(** * game_automation_script: step interpreter and timed replay scheduler

    A shallow embedding of the control core of the repository:

    - [AutomationScript] (src/src/automation_script.py): the run loop of
      [run_script], the condition / loop / end_loop handlers and the
      [${...}] template resolver [_resolve_value];
    - [EventPlayer] (src/src/event_player.py): [start_playback],
      [stop_playback] and the worker [_playback_loop];
    - [InputPlayer] (src/src/core/player.py): [start_playback] and
      [set_speed].

    Python values are modelled by [Value]; Python exceptions by [PyExn] and
    the [result] type.  Strings are sequences of code points below 256.
    Floating-point variables are outside the model of [Value]; the timing
    functions of the players use exact rationals.  Registered callbacks are
    taken to return normally; the models record the points where they are
    called.  Each model follows one thread of control: what another thread
    does to the object appears as an explicit command between two moves. *)

From Stdlib Require Import ZArith QArith String Ascii List Lia DecimalString.
From stdpp Require Import gmap strings.

Set Warnings "-register-all".
Local Open Scope Z_scope.

(* ===================================================================== *)
(** ** Python values                                                      *)
(* ===================================================================== *)

Module PyValue.

(** The exceptions the modelled code can meet. *)
Inductive PyExn : Type :=
  | TypeError | KeyError | ValueError | IndexError | ZeroDivisionError.

(** A computation that returns or raises. *)
Inductive result (A : Type) : Type :=
  | Ok (a : A)
  | Raise (e : PyExn).
Arguments Ok {A} a.
Arguments Raise {A} e.

Definition bind {A B : Type} (r : result A) (k : A -> result B) : result B :=
  match r with
  | Ok a => k a
  | Raise e => Raise e
  end.

Notation "'try!' x ':=' r 'in' k" := (bind r (fun x => k))
  (at level 10, x name, r at level 100, k at level 200).

(** JSON-like values held in steps and in the variable bag.  A dict is an
    association list with distinct str keys, in insertion order, as Python
    prints it. *)
Inductive Value : Type :=
  | VNone
  | VBool (b : bool)
  | VInt (n : Z)
  | VStr (s : string)
  | VList (xs : list Value)
  | VTuple (xs : list Value)
  | VDict (kvs : list (string * Value)).

Definition is_str (v : Value) : bool :=
  match v with VStr _ => true | _ => false end.

(** *** Characters and strings *)

Definition code (c : ascii) : Z := Z.of_nat (nat_of_ascii c).

Definition ch_quote : ascii := "'"%char.
Definition ch_dquote : ascii := "034"%char.
Definition ch_backslash : ascii := "\"%char.

Fixpoint str_contains (c : ascii) (s : string) : bool :=
  match s with
  | EmptyString => false
  | String d r => if Ascii.eqb c d then true else str_contains c r
  end.

Fixpoint str_join (sep : string) (xs : list string) : string :=
  match xs with
  | [] => ""
  | [x] => x
  | x :: rest => x +:+ sep +:+ str_join sep rest
  end.

Definition hex_digit (n : Z) : ascii :=
  if n <? 10 then ascii_of_nat (Z.to_nat (48 + n))
  else ascii_of_nat (Z.to_nat (87 + n)).

(** [str.isprintable] on one code point below 256. *)
Definition is_printable (c : ascii) : bool :=
  let n := code c in
  ((32 <=? n) && (n <=? 126)) || ((161 <=? n) && negb (n =? 173)).

(** [repr] of one character inside the quotes [q]. *)
Definition repr_char (q : ascii) (c : ascii) : string :=
  if Ascii.eqb c ch_backslash then String ch_backslash (String ch_backslash "")
  else if Ascii.eqb c q then String ch_backslash (String q "")
  else if code c =? 9 then String ch_backslash "t"
  else if code c =? 10 then String ch_backslash "n"
  else if code c =? 13 then String ch_backslash "r"
  else if is_printable c then String c ""
  else String ch_backslash
         (String "x" (String (hex_digit (code c / 16))
                        (String (hex_digit (code c mod 16)) ""))).

Fixpoint repr_chars (q : ascii) (s : string) : string :=
  match s with
  | EmptyString => ""
  | String c r => repr_char q c +:+ repr_chars q r
  end.

(** [repr(s)] for a string: single quotes, unless the text holds a single
    quote and no double quote. *)
Definition repr_str (s : string) : string :=
  let q := if str_contains ch_quote s && negb (str_contains ch_dquote s)
           then ch_dquote else ch_quote in
  String q (repr_chars q s +:+ String q "").

(** [str(n)] for an int. *)
Definition str_of_int (n : Z) : string := NilZero.string_of_int (Z.to_int n).

Fixpoint py_repr (v : Value) : string :=
  match v with
  | VNone => "None"
  | VBool true => "True"
  | VBool false => "False"
  | VInt n => str_of_int n
  | VStr s => repr_str s
  | VList xs => "[" +:+ str_join ", " (List.map py_repr xs) +:+ "]"
  | VTuple xs =>
      match xs with
      | [x] => "(" +:+ py_repr x +:+ ",)"
      | _ => "(" +:+ str_join ", " (List.map py_repr xs) +:+ ")"
      end
  | VDict kvs =>
      "{" +:+ str_join ", "
                (List.map (fun kv => repr_str (fst kv) +:+ ": " +:+ py_repr (snd kv)) kvs)
          +:+ "}"
  end.

(** [str(v)]. *)
Definition py_str (v : Value) : string :=
  match v with
  | VStr s => s
  | _ => py_repr v
  end.

(** *** [int(text)] *)

(** White space [int] skips around the digits: the ASCII blanks 0x09-0x0d
    and 0x20, and the spaces 0x85 and 0xa0 above them.  The separators
    0x1c-0x1f, which [str.strip] removes, make [int] raise. *)
Definition is_py_space (c : ascii) : bool :=
  let n := code c in
  ((9 <=? n) && (n <=? 13)) || (n =? 32) || (n =? 133) || (n =? 160).

Fixpoint lstrip (s : string) : string :=
  match s with
  | EmptyString => ""
  | String c r => if is_py_space c then lstrip r else s
  end.

Definition py_strip (s : string) : string :=
  String.rev (lstrip (String.rev (lstrip s))).

Definition digit_of (c : ascii) : option Z :=
  let n := code c in
  if (48 <=? n) && (n <=? 57) then Some (n - 48) else None.

(** Digits with single underscores between them; [prev] tells whether the
    character before was a digit. *)
Fixpoint digits_value (s : string) (acc : Z) (prev : bool) : option Z :=
  match s with
  | EmptyString => if prev then Some acc else None
  | String c r =>
      match digit_of c with
      | Some d => digits_value r (10 * acc + d) true
      | None =>
          if Ascii.eqb c "_"%char && prev then digits_value r acc false
          else None
      end
  end.

(** [int(s)] in base ten; [Raise ValueError] on any other text. *)
Definition py_int (s : string) : result Z :=
  let body := py_strip s in
  let parsed :=
    match body with
    | String "-"%char r => option_map Z.opp (digits_value r 0 false)
    | String "+"%char r => digits_value r 0 false
    | _ => digits_value body 0 false
    end in
  match parsed with
  | Some n => Ok n
  | None => Raise ValueError
  end.

(** *** Subscripting *)

(** [xs[i]] on a sequence, with Python's negative indices. *)
Definition seq_index {A : Type} (xs : list A) (i : Z) : option A :=
  let n := Z.of_nat (length xs) in
  if (0 <=? i) && (i <? n) then nth_error xs (Z.to_nat i)
  else if (- n <=? i) && (i <? 0) then nth_error xs (Z.to_nat (n + i))
  else None.

Fixpoint str_chars (s : string) : list ascii :=
  match s with
  | EmptyString => []
  | String c r => c :: str_chars r
  end.

Fixpoint dict_get (kvs : list (string * Value)) (k : string) : option Value :=
  match kvs with
  | [] => None
  | (k', v) :: rest => if String.eqb k k' then Some v else dict_get rest k
  end.

(** [v[i]] with an int subscript. *)
Definition getitem_int (v : Value) (i : Z) : result Value :=
  match v with
  | VList xs | VTuple xs =>
      match seq_index xs i with
      | Some x => Ok x
      | None => Raise IndexError
      end
  | VStr s =>
      match seq_index (str_chars s) i with
      | Some c => Ok (VStr (String c ""))
      | None => Raise IndexError
      end
  | VDict _ => Raise KeyError
  | VNone | VBool _ | VInt _ => Raise TypeError
  end.

(** [v[k]] with a str subscript. *)
Definition getitem_str (v : Value) (k : string) : result Value :=
  match v with
  | VDict kvs =>
      match dict_get kvs k with
      | Some x => Ok x
      | None => Raise KeyError
      end
  | _ => Raise TypeError
  end.

(** *** Comparisons *)

Definition as_int (v : Value) : option Z :=
  match v with
  | VInt n => Some n
  | VBool b => Some (if b then 1 else 0)
  | _ => None
  end.

(** [a == b]; bool is an int, a dict compares without order. *)
Fixpoint py_eq (a b : Value) : bool :=
  match a, b with
  | VNone, VNone => true
  | VBool x, VBool y => Bool.eqb x y
  | VBool x, VInt y => (if x then 1 else 0) =? y
  | VInt x, VBool y => x =? (if y then 1 else 0)
  | VInt x, VInt y => x =? y
  | VStr x, VStr y => String.eqb x y
  | VList xs, VList ys | VTuple xs, VTuple ys =>
      (fix all2 (l : list Value) (r : list Value) : bool :=
         match l, r with
         | [], [] => true
         | x :: l', y :: r' => py_eq x y && all2 l' r'
         | _, _ => false
         end) xs ys
  | VDict xs, VDict ys =>
      (length xs =? length ys)%nat
      && (fix each (l : list (string * Value)) : bool :=
            match l with
            | [] => true
            | kv :: l' =>
                match dict_get ys (fst kv) with
                | Some y => py_eq (snd kv) y && each l'
                | None => false
                end
            end) xs
  | _, _ => false
  end.

(** [n >= v] and [n < v] for an int [n]: [TypeError] unless [v] is a number. *)
Definition int_ge (n : Z) (v : Value) : result bool :=
  match as_int v with
  | Some m => Ok (m <=? n)
  | None => Raise TypeError
  end.

Definition int_lt (n : Z) (v : Value) : result bool :=
  match as_int v with
  | Some m => Ok (n <? m)
  | None => Raise TypeError
  end.

(** [needle in s] for strings: [s] holds [needle] as a substring. *)
Fixpoint str_prefix (p s : string) : bool :=
  match p, s with
  | EmptyString, _ => true
  | String a p', String b s' => Ascii.eqb a b && str_prefix p' s'
  | _, EmptyString => false
  end.

Fixpoint str_in (needle s : string) : bool :=
  str_prefix needle s ||
  match s with
  | EmptyString => false
  | String _ r => str_in needle r
  end.

(** Values that can be dict keys or set members. *)
Fixpoint hashable (v : Value) : bool :=
  match v with
  | VList _ | VDict _ => false
  | VTuple xs => forallb hashable xs
  | _ => true
  end.

(** [x in container], for the containers [_check_variable_contains_condition]
    accepts. *)
Definition py_in (x container : Value) : result bool :=
  match container with
  | VList xs | VTuple xs => Ok (existsb (py_eq x) xs)
  | VDict kvs =>
      if hashable x then
        Ok (match x with VStr k => bool_decide (is_Some (dict_get kvs k)) | _ => false end)
      else Raise TypeError
  | VStr s =>
      match x with
      | VStr n => Ok (str_in n s)
      | _ => Raise TypeError
      end
  | _ => Raise TypeError
  end.

End PyValue.

(* ===================================================================== *)
(** ** automation_script.py: class AutomationScript                       *)
(* ===================================================================== *)

Module AutomationScript.
Import PyValue.

(** *** The template resolver [_resolve_value] *)

Definition is_char (c d : ascii) : bool := Ascii.eqb c d.

(** One element of the scan of [re.sub(r'\${([^}]+)}', ...)] over a string:
    a character outside every match, or a match with its group 1. *)
Inductive Piece : Type :=
  | Lit (c : ascii)
  | Placeholder (var_path : string).

(** The non-overlapping matches of the pattern, leftmost first.  At a ["${"]
    the group takes every character up to the next ["}"]; an empty group or
    a missing ["}"] is no match and the scan moves on by one character. *)
Fixpoint re_matches (s : string) : list Piece :=
  match s with
  | EmptyString => []
  | String c rest =>
      let skip := Lit c :: re_matches rest in
      if is_char c "$" then
        match rest with
        | String b body =>
            if is_char b "{" then
              (fix group (t : string) (acc : string) : list Piece :=
                 match t with
                 | EmptyString => skip
                 | String d t' =>
                     if is_char d "}" then
                       match acc with
                       | EmptyString => skip
                       | _ => Placeholder (String.rev acc) :: re_matches t'
                       end
                     else group t' (String d acc)
                 end) body EmptyString
            else skip
        | EmptyString => skip
        end
      else skip
  end.

(** [match.group(0)]. *)
Definition group0 (var_path : string) : string := "${" +:+ var_path +:+ "}".

(** [re.split(r'[\.\[]', var_path)]. *)
Fixpoint re_split (s : string) : list string :=
  match s with
  | EmptyString => [EmptyString]
  | String c r =>
      if is_char c "." || is_char c "[" then EmptyString :: re_split r
      else match re_split r with
           | p :: ps => String c p :: ps
           | [] => [String c EmptyString]
           end
  end.

(** [part.endswith(']')] and [part[:-1]]. *)
Fixpoint endswith_rbracket (s : string) : bool :=
  match s with
  | EmptyString => false
  | String c EmptyString => is_char c "]"
  | String _ r => endswith_rbracket r
  end.

Fixpoint drop_last (s : string) : string :=
  match s with
  | EmptyString => EmptyString
  | String _ EmptyString => EmptyString
  | String c r => String c (drop_last r)
  end.

(** The [for part in parts[1:]] loop of [replace_var]: [Ok None] is the
    early [return match.group(0)], [Raise] an exception no handler takes. *)
Fixpoint follow_parts (cur : Value) (parts : list string) : result (option Value) :=
  match parts with
  | [] => Ok (Some cur)
  | part :: rest =>
      if endswith_rbracket part then
        match (try! index := py_int (drop_last part) in getitem_int cur index) with
        | Ok v => follow_parts v rest
        | Raise ValueError | Raise IndexError => Ok None
        | Raise e => Raise e
        end
      else
        match getitem_str cur part with
        | Ok v => follow_parts v rest
        | Raise KeyError | Raise TypeError => Ok None
        | Raise e => Raise e
        end
  end.

(** The callback [replace_var] of [re.sub], on group 1 of a match. *)
Definition replace_var (vars : gmap string Value) (var_path : string)
  : result string :=
  match re_split var_path with
  | [] => Ok (group0 var_path)
  | var_name :: parts =>
      match vars !! var_name with
      | None => Ok (group0 var_path)
      | Some base =>
          try! r := follow_parts base parts in
          match r with
          | Some v => Ok (py_str v)
          | None => Ok (group0 var_path)
          end
      end
  end.

(** [re.sub]: the pieces are rewritten from left to right; the first
    exception of the callback leaves [re.sub]. *)
Fixpoint sub_pieces (vars : gmap string Value) (ps : list Piece)
  : result string :=
  match ps with
  | [] => Ok EmptyString
  | Lit c :: rest =>
      try! tail := sub_pieces vars rest in Ok (String c tail)
  | Placeholder g :: rest =>
      try! head := replace_var vars g in
      try! tail := sub_pieces vars rest in
      Ok (head +:+ tail)
  end.

Definition _resolve_value (vars : gmap string Value) (value : Value)
  : result Value :=
  match value with
  | VStr s => try! out := sub_pieces vars (re_matches s) in Ok (VStr out)
  | _ => Ok value
  end.


(** *** Steps and interpreter state *)

(** One entry of [script_data["steps"]].  Each optional key of the dict is
    an [option]; [None] stands for an absent key (and for JSON [null] where
    the code tests [is not None]).  [params] holds the keys read only by the
    external handlers (coordinates, image paths, ...).  The record stands for
    the steps that carry a ["type"] and whose jump targets, when present, are
    integers: on a step without a type, or with another value as a target,
    [run_script] raises inside its [try] ([KeyError], [TypeError]) and returns
    [False]; such steps are outside the model. *)
Record Step : Type := mkStep {
  step_type : string;
  enabled : bool;
  next_step : option Z;
  on_failure : option Z;
  then_step : option Z;
  else_step : option Z;
  end_step : option Z;
  loop_id : option string;
  loop_type : option string;
  count : option Value;
  condition_type : option string;
  variable : option string;
  value : option Value;
  name : option string;
  params : list (string * Value)
}.

(** An entry of [loop_counters]: the dict built by [_execute_count_loop] or
    by [_execute_while_loop]. *)
Inductive Frame : Type :=
  | CountFrame (current : Z) (total : Value) (start_step : Z)
  | WhileFrame (start_step : Z).

(** The points where the run loop calls a lifecycle callback (the call is
    made when the callback is registered). *)
Inductive Callback : Type :=
  | OnStepStart (index : Z)
  | OnStepEnd (index : Z) (success : bool)
  | OnScriptEnd (success : bool).

(** The attributes of an [AutomationScript] object that a run reads and
    writes.  [clock] counts the calls made to the outside world so far and
    [trace] lists the callback points passed, oldest first. *)
Record State : Type := mkState {
  running : bool;
  paused : bool;
  current_step : Z;
  variables : gmap string Value;
  loop_counters : gmap string Frame;
  clock : nat;
  trace : list Callback
}.

Definition set_current_step (i : Z) (st : State) : State :=
  mkState (running st) (paused st) i (variables st) (loop_counters st)
          (clock st) (trace st).

Definition set_variables (vs : gmap string Value) (st : State) : State :=
  mkState (running st) (paused st) (current_step st) vs (loop_counters st)
          (clock st) (trace st).

Definition set_loop_counters (lc : gmap string Frame) (st : State) : State :=
  mkState (running st) (paused st) (current_step st) (variables st) lc
          (clock st) (trace st).

Definition set_running (b : bool) (st : State) : State :=
  mkState b (paused st) (current_step st) (variables st) (loop_counters st)
          (clock st) (trace st).

Definition tick (st : State) : State :=
  mkState (running st) (paused st) (current_step st) (variables st)
          (loop_counters st) (S (clock st)) (trace st).

Definition emit (c : Callback) (st : State) : State :=
  mkState (running st) (paused st) (current_step st) (variables st)
          (loop_counters st) (clock st) (trace st ++ [c]).

Definition str_is (a b : string) : bool := String.eqb a b.

(** The step types whose handlers only talk to the screen, the input
    devices, the file system or the event player. *)
Definition external_types : list string :=
  ["click"; "double_click"; "right_click"; "move"; "drag"; "key"; "text";
   "wait"; "find_image"; "find_text"; "play_recording"; "execute_command";
   "screenshot"].

Definition is_external (t : string) : bool := existsb (str_is t) external_types.

Section Interpreter.

(** The outside world.  The n-th call made to it is answered by the oracle at
    [n]: an external handler returns its success flag and the variable bag
    it leaves (a [save_to] target may have been written); the image and the
    text check return their verdict or raise. *)
Variable world_step : nat -> Step -> gmap string Value -> bool * gmap string Value.
Variable world_image : nat -> Step -> result bool.
Variable world_text : nat -> Step -> gmap string Value -> result bool.

Definition _execute_external (st : State) (step : Step) : bool * State :=
  let '(ok, vs) := world_step (clock st) step (variables st) in
  (ok, tick (set_variables vs st)).

Definition _check_image_condition (st : State) (step : Step) : result bool * State :=
  (world_image (clock st) step, tick st).

Definition _check_text_condition (st : State) (step : Step) : result bool * State :=
  (world_text (clock st) step (variables st), tick st).

Definition value_is_none (v : option Value) : bool :=
  match v with
  | None | Some VNone => true
  | Some _ => false
  end.

Definition _check_variable_equals_condition (st : State) (step : Step) : result bool :=
  let var_name := default "" (variable step) in
  if str_is var_name "" || value_is_none (value step) then Ok false
  else
    let var_value := default VNone (variables st !! var_name) in
    try! compare_value := _resolve_value (variables st) (default VNone (value step)) in
    Ok (py_eq var_value compare_value).

Definition _check_variable_contains_condition (st : State) (step : Step) : result bool :=
  let var_name := default "" (variable step) in
  if str_is var_name "" || value_is_none (value step) then Ok false
  else
    let var_value := default VNone (variables st !! var_name) in
    try! compare_value := _resolve_value (variables st) (default VNone (value step)) in
    match var_value with
    | VList _ | VTuple _ | VDict _ | VStr _ => py_in compare_value var_value
    | _ => Ok false
    end.

(** The evaluation of the condition of a [condition] step: [None] when the
    condition type is missing or unknown, otherwise the verdict (or the
    exception) of the check and the state it leaves. *)
Definition check_condition (st : State) (step : Step)
  : option (result bool * State) :=
  let ct := default "" (condition_type step) in
  if str_is ct "" then None
  else if str_is ct "image_exists" then Some (_check_image_condition st step)
  else if str_is ct "text_exists" then Some (_check_text_condition st step)
  else if str_is ct "variable_equals" then
    Some (_check_variable_equals_condition st step, st)
  else if str_is ct "variable_contains" then
    Some (_check_variable_contains_condition st step, st)
  else None.

Definition _execute_condition (st : State) (step : Step) : bool * State :=
  match check_condition st step with
  | None => (false, st)
  | Some (Raise _, st1) => (false, st1)
  | Some (Ok true, st1) =>
      match then_step step with
      | Some t => (true, set_current_step (t - 1) st1)
      | None => (true, st1)
      end
  | Some (Ok false, st1) =>
      match else_step step with
      | Some e => (true, set_current_step (e - 1) st1)
      | None => (true, st1)
      end
  end.

Definition _execute_count_loop (st : State) (step : Step) (lid : string)
  : result bool * State :=
  match _resolve_value (variables st) (default (VInt 1) (count step)) with
  | Raise e => (Raise e, st)
  | Ok cnt =>
      let st1 :=
        match loop_counters st !! lid with
        | None =>
            set_loop_counters
              (<[lid := CountFrame 0 cnt (current_step st)]> (loop_counters st)) st
        | Some _ => st
        end in
      match loop_counters st1 !! lid with
      | Some (CountFrame cur tot start) =>
          match int_ge cur tot with
          | Raise e => (Raise e, st1)
          | Ok true =>
              let st2 :=
                match end_step step with
                | Some e => set_current_step e st1
                | None => st1
                end in
              (Ok true, set_loop_counters (delete lid (loop_counters st2)) st2)
          | Ok false =>
              (Ok true,
               set_loop_counters
                 (<[lid := CountFrame (cur + 1) tot start]> (loop_counters st1)) st1)
          end
      | Some (WhileFrame _) | None => (Raise KeyError, st1)
      end
  end.

Definition _execute_while_loop (st : State) (step : Step) (lid : string)
  : result bool * State :=
  let ct := default "" (condition_type step) in
  if str_is ct "" then (Ok false, st)
  else
    let st1 :=
      match loop_counters st !! lid with
      | None =>
          set_loop_counters
            (<[lid := WhileFrame (current_step st)]> (loop_counters st)) st
      | Some _ => st
      end in
    let '(res, st2) :=
      if str_is ct "image_exists" then _check_image_condition st1 step
      else if str_is ct "variable_equals" then
        (_check_variable_equals_condition st1 step, st1)
      else (Ok false, st1) in
    match res with
    | Raise e => (Raise e, st2)
    | Ok true => (Ok true, st2)
    | Ok false =>
        let st3 :=
          match end_step step with
          | Some e => set_current_step e st2
          | None => st2
          end in
        (Ok true, set_loop_counters (delete lid (loop_counters st3)) st3)
    end.

Definition _execute_loop (st : State) (step : Step) : bool * State :=
  let lid := default ("loop_" +:+ str_of_int (current_step st)) (loop_id step) in
  let lt := default "count" (loop_type step) in
  let '(res, st1) :=
    if str_is lt "count" then _execute_count_loop st step lid
    else if str_is lt "while" then _execute_while_loop st step lid
    else (Ok false, st) in
  match res with
  | Ok b => (b, st1)
  | Raise _ => (false, st1)
  end.

Definition _execute_end_loop (st : State) (step : Step) : bool * State :=
  let lid := default "" (loop_id step) in
  if str_is lid "" then (false, st)
  else
    match loop_counters st !! lid with
    | Some (CountFrame cur tot start) =>
        match int_lt cur tot with
        | Raise _ => (false, st)
        | Ok true => (true, set_current_step start st)
        | Ok false => (true, st)
        end
    | Some (WhileFrame start) => (true, set_current_step start st)
    | None => (true, st)
    end.

Definition _execute_set_variable (st : State) (step : Step) : bool * State :=
  let var_name := default "" (name step) in
  if str_is var_name "" then (false, st)
  else
    match _resolve_value (variables st) (default VNone (value step)) with
    | Raise _ => (false, st)
    | Ok resolved_value =>
        (true, set_variables (<[var_name := resolved_value]> (variables st)) st)
    end.

Definition _execute_step (st : State) (step : Step) : bool * State :=
  let t := step_type step in
  if is_external t then _execute_external st step
  else if str_is t "condition" then _execute_condition st step
  else if str_is t "loop" then _execute_loop st step
  else if str_is t "end_loop" then _execute_end_loop st step
  else if str_is t "set_variable" then _execute_set_variable st step
  else (false, st).

(** One pass through the body of the [while] of [run_script].  While
    [paused] is set the pass is one poll of the pause loop and leaves the
    object as it is. *)
Inductive Iteration : Type :=
  | LoopExit (st : State)
  | Continue (st : State)
  | Fault (e : PyExn) (st : State).

Definition loop_iteration (steps : list Step) (st : State) : Iteration :=
  if negb (running st && (current_step st <? Z.of_nat (length steps))) then
    LoopExit st
  else if paused st then Continue st
  else
    match seq_index steps (current_step st) with
    | None => Fault IndexError st
    | Some step =>
        if negb (enabled step) then
          Continue (set_current_step (current_step st + 1) st)
        else
          let st1 := emit (OnStepStart (current_step st)) st in
          let '(success, st2) := _execute_step st1 step in
          let st3 := emit (OnStepEnd (current_step st2) success) st2 in
          let target := if success then next_step step else on_failure step in
          match target with
          | Some j => Continue (set_current_step j st3)
          | None => Continue (set_current_step (current_step st3 + 1) st3)
          end
    end.

(** The [while] loop of [run_script], bounded by [fuel] iterations: [None]
    when the loop is still going after [fuel] passes. *)
Fixpoint run_loop (fuel : nat) (steps : list Step) (st : State)
  : option Iteration :=
  match fuel with
  | O => None
  | S fuel' =>
      match loop_iteration steps st with
      | Continue st' => run_loop fuel' steps st'
      | stop => Some stop
      end
  end.

(** The object after at most [fuel] passes of the loop (fewer when the loop
    ends before). *)
Fixpoint loop_state (fuel : nat) (steps : list Step) (st : State) : State :=
  match fuel with
  | O => st
  | S fuel' =>
      match loop_iteration steps st with
      | Continue st' => loop_state fuel' steps st'
      | LoopExit st' | Fault _ st' => st'
      end
  end.

(** The assignments of [run_script] before its loop. *)
Definition run_script_init (from_step : Z) (st : State) : State :=
  mkState true false from_step ∅ ∅ (clock st) (trace st).

(** [run_script]: the returned flag and the object's state afterwards. *)
Definition run_script (fuel : nat) (steps : list Step) (from_step : Z) (st : State)
  : option (bool * State) :=
  match steps with
  | [] => Some (false, st)
  | _ =>
      match run_loop fuel steps (run_script_init from_step st) with
      | None => None
      | Some (LoopExit st') | Some (Continue st') =>
          Some (true, set_running false (emit (OnScriptEnd true) st'))
      | Some (Fault _ st') =>
          Some (false, set_running false (emit (OnScriptEnd false) st'))
      end
  end.

End Interpreter.


(** *** Shapes of programs and traces used in the statements *)

Definition is_control (t : string) : bool :=
  str_is t "condition" || str_is t "loop" || str_is t "end_loop".

(** A step with the sequential jump policy: enabled, neither a condition nor
    a loop boundary, and without [next_step] or [on_failure]. *)
Definition sequential (s : Step) : Prop :=
  enabled s = true /\ next_step s = None /\ on_failure s = None
  /\ is_control (step_type s) = false.

(** What no handler touches: the run flags and the callback trace. *)
Definition same_flags (st st' : State) : Prop :=
  running st' = running st /\ paused st' = paused st /\ trace st' = trace st.

(** The indices handed to [on_step_start], in order: the steps executed. *)
Fixpoint started (tr : list Callback) : list Z :=
  match tr with
  | [] => []
  | OnStepStart i :: rest => i :: started rest
  | _ :: rest => started rest
  end.

End AutomationScript.

(* ===================================================================== *)
(** ** time.sleep                                                         *)
(* ===================================================================== *)

Module PyTime.

(** [time.sleep(w)] returns after the wait or raises at once: CPython turns
    the seconds into nanoseconds of a 64-bit clock and raises [OverflowError]
    when they do not fit (a wait of about 2^63 ns, some 292 years; an epoch
    timestamp divided by a small speed is larger), and the platform may
    refuse smaller waits.  Both players call it inside a [try].  A [Clock]
    tells for each wait whether the call raises. *)
Class Clock : Type := sleep_raises : Q -> bool.

End PyTime.

(* ===================================================================== *)
(** ** event_player.py: class EventPlayer                                 *)
(* ===================================================================== *)

Module EventPlayer.
Import PyValue.
Export PyTime.

(** A recorded event: [event["time"]] and [event["type"]]; what else the
    dict holds is read by the input sink only. *)
Record Event : Type := mkEvent {
  etime : Q;
  etype : string
}.

(** What the player does that can be observed from outside: the calls of
    [time.sleep] that return, the dispatch of event [i] ([_execute_event]
    followed by [on_event]) and the points where a callback is called. *)
Inductive Action : Type :=
  | Sleep (d : Q)
  | Dispatch (i : nat)
  | OnStart
  | OnStop
  | OnError.

(** Where the playback thread stands in [_playback_loop]; [i] is the index
    of the event of the current pass and [last] is [last_event_time]. *)
Inductive Pc : Type :=
  | Head (i : nat) (last : Q)
  | PauseLoop (i : nat) (last : Q)
  | Wait (i : nat) (last : Q)
  | Exec (i : nat)
  | Finally
  | Done.

(** The player object together with its playback thread.  [thread] is [None]
    before the first [start_playback]. *)
Record Player : Type := mkPlayer {
  playing : bool;
  paused : bool;
  stop_event : bool;
  events : list Event;
  speed : Q;
  thread : option Pc;
  log : list Action
}.

Definition act (a : Action) (p : Player) : Player :=
  mkPlayer (playing p) (paused p) (stop_event p) (events p) (speed p)
           (thread p) (log p ++ [a]).

Definition goto (pc : Pc) (p : Player) : Player :=
  mkPlayer (playing p) (paused p) (stop_event p) (events p) (speed p)
           (Some pc) (log p).

Definition set_playing (b : bool) (p : Player) : Player :=
  mkPlayer b (paused p) (stop_event p) (events p) (speed p) (thread p) (log p).

Definition set_paused (b : bool) (p : Player) : Player :=
  mkPlayer (playing p) b (stop_event p) (events p) (speed p) (thread p) (log p).

Definition set_stop_event (b : bool) (p : Player) : Player :=
  mkPlayer (playing p) (paused p) b (events p) (speed p) (thread p) (log p).

Definition set_speed_field (s : Q) (p : Player) : Player :=
  mkPlayer (playing p) (paused p) (stop_event p) (events p) s (thread p) (log p).

Definition clear_thread (p : Player) : Player :=
  mkPlayer (playing p) (paused p) (stop_event p) (events p) (speed p)
           None (log p).

Definition poll_interval : Q := 1 # 10.

Definition is_zero (q : Q) : bool := Qeq_bool q 0.
Definition is_positive (q : Q) : bool := negb (Qle_bool q 0).

(** [(event_time - last_event_time) / self.speed], over the rationals: the
    source computes it in binary floating point, so the number slept can
    differ from this one in its last bit. *)
Definition wait_time (event_time last : Q) (spd : Q) : Q :=
  (event_time - last) / spd.

Section Thread.
Context {clock : Clock}.

(** A wait the loop gets through: not positive, so that [time.sleep] is not
    called, or taken by the clock. *)
Definition accepted (w : Q) : bool := negb (is_positive w) || negb (sleep_raises w).

Definition waits_accepted (ws : list Q) : bool := forallb accepted ws.

(** One atomic move of the playback thread inside [_playback_loop].  A
    [time.sleep] that raises is caught by the [except] of the loop: [on_error]
    is called and the [finally] block follows. *)
Definition thread_step (p : Player) : Player :=
  match thread p with
  | None | Some Done => p
  | Some (Head i last) =>
      match nth_error (events p) i with
      | None => goto Finally p
      | Some _ => if stop_event p then goto Finally p else goto (PauseLoop i last) p
      end
  | Some (PauseLoop i last) =>
      if paused p && negb (stop_event p) then act (Sleep poll_interval) p
      else if stop_event p then goto Finally p
      else goto (Wait i last) p
  | Some (Wait i last) =>
      match nth_error (events p) i with
      | None => goto Finally p
      | Some event =>
          if is_zero (speed p) then goto Finally (act OnError p)
          else
            let w := wait_time (etime event) last (speed p) in
            if is_positive w then
              if sleep_raises w then goto Finally (act OnError p)
              else goto (Exec i) (act (Sleep w) p)
            else goto (Exec i) p
      end
  | Some (Exec i) =>
      match nth_error (events p) i with
      | None => goto Finally p
      | Some event => goto (Head (S i) (etime event)) (act (Dispatch i) p)
      end
  | Some Finally => goto Done (act OnStop (set_playing false p))
  end.

Fixpoint thread_steps (n : nat) (p : Player) : Player :=
  match n with
  | O => p
  | S n' => thread_steps n' (thread_step p)
  end.

Definition is_alive (p : Player) : bool :=
  match thread p with
  | None | Some Done => false
  | Some _ => true
  end.

(** [self.playback_thread.join()]: the caller waits while the thread moves;
    [None] when the thread is still alive after [fuel] moves. *)
Fixpoint join (fuel : nat) (p : Player) : option Player :=
  if is_alive p then
    match fuel with
    | O => None
    | S fuel' => join fuel' (thread_step p)
    end
  else Some p.

Definition start_playback (spd : option Q) (p : Player) : bool * Player :=
  if playing p then (false, p)
  else
    match events p with
    | [] => (false, p)
    | _ =>
        let p1 := match spd with
                  | Some s => set_speed_field s p
                  | None => p
                  end in
        let p2 := set_stop_event false (set_paused false (set_playing true p1)) in
        (true, act OnStart (goto (Head 0 0) p2))
    end.

Definition stop_playback (fuel : nat) (p : Player) : option (bool * Player) :=
  if negb (playing p) then Some (false, p)
  else
    let p1 := set_playing false (set_stop_event true p) in
    let joined := if is_alive p1 then option_map clear_thread (join fuel p1)
                  else Some p1 in
    match joined with
    | None => None
    | Some p2 => Some (true, act OnStop p2)
    end.

Definition pause_playback (p : Player) : bool * Player :=
  if negb (playing p) || paused p then (false, p)
  else (true, set_paused true p).

Definition resume_playback (p : Player) : bool * Player :=
  if negb (playing p) || negb (paused p) then (false, p)
  else (true, set_paused false p).

(** What happens to a player between [start_playback] and [stop_playback]:
    a move of the playback thread, or a call from the controlling thread. *)
Inductive Cmd : Type :=
  | Tick
  | PauseCmd
  | ResumeCmd.

Definition run_cmd (c : Cmd) (p : Player) : Player :=
  match c with
  | Tick => thread_step p
  | PauseCmd => snd (pause_playback p)
  | ResumeCmd => snd (resume_playback p)
  end.

Definition run_cmds (cs : list Cmd) (p : Player) : Player :=
  fold_left (fun q c => run_cmd c q) cs p.

End Thread.

(** A player as [__init__] and [load_recording] leave it. *)
Definition loaded (evs : list Event) (spd : Q) : Player :=
  {| playing := false; paused := false; stop_event := false; events := evs;
     speed := spd; thread := None; log := [] |}.

Fixpoint count_on_stop (l : list Action) : nat :=
  match l with
  | [] => 0
  | OnStop :: r => S (count_on_stop r)
  | _ :: r => count_on_stop r
  end.

Fixpoint sleeps (l : list Action) : list Q :=
  match l with
  | [] => []
  | Sleep d :: r => d :: sleeps r
  | _ :: r => sleeps r
  end.

(** The waits of a whole playback: for each event, the gap to the event
    before it (to 0 for the first) divided by the speed. *)
Fixpoint gaps (evs : list Event) (last : Q) (spd : Q) : list Q :=
  match evs with
  | [] => []
  | e :: r => wait_time (etime e) last spd :: gaps r (etime e) spd
  end.

(** What a playback that is neither paused nor stopped does for the events
    [evs], the first of which has index [i]: per event one sleep of the whole
    wait when it is positive, then the dispatch. *)
Fixpoint pass_actions (evs : list Event) (i : nat) (last spd : Q) : list Action :=
  match evs with
  | [] => []
  | e :: r =>
      (if is_positive (wait_time (etime e) last spd)
       then [Sleep (wait_time (etime e) last spd)] else [])
      ++ Dispatch i :: pass_actions r (S i) (etime e) spd
  end.

(** An upper bound on the moves the playback thread still makes once the
    stop flag is set. *)
Definition moves_left (p : Player) : nat :=
  match thread p with
  | Some (Wait _ _) => 4
  | Some (Exec _) => 3
  | Some (Head _ _) | Some (PauseLoop _ _) => 2
  | Some Finally => 1
  | Some Done | None => 0
  end.

(** A session between its start and a stop: the stop flag is clear, and
    either the thread is alive and [on_stop] has not been called, or the
    thread has ended, [playing] is false and [on_stop] was called once. *)
Definition session_inv (p : Player) : Prop :=
  stop_event p = false
  /\ ((playing p = true /\ is_alive p = true /\ count_on_stop (log p) = 0%nat)
      \/ (playing p = false /\ thread p = Some Done
          /\ count_on_stop (log p) = 1%nat)).

End EventPlayer.

(* ===================================================================== *)
(** ** core/player.py: class InputPlayer                                  *)
(* ===================================================================== *)

Module InputPlayer.

(** A Python float as far as comparisons see it: a finite number, an
    infinity or NaN. *)
Inductive Num : Type :=
  | Fin (q : Q)
  | PosInf
  | NegInf
  | NaN.

(** [a < b]. *)
Definition num_lt (a b : Num) : bool :=
  match a, b with
  | NaN, _ | _, NaN => false
  | Fin x, Fin y => negb (Qle_bool y x)
  | NegInf, NegInf => false
  | NegInf, _ => true
  | _, PosInf => match a with PosInf => false | _ => true end
  | _, _ => false
  end.

(** [a <= b]. *)
Definition num_le (a b : Num) : bool :=
  match a, b with
  | NaN, _ | _, NaN => false
  | Fin x, Fin y => Qle_bool x y
  | NegInf, _ => true
  | _, PosInf => true
  | _, _ => false
  end.

(** The builtins [min(a, b)] and [max(a, b)]: the first argument is kept
    unless the second is strictly smaller (larger). *)
Definition py_min (a b : Num) : Num := if num_lt b a then b else a.
Definition py_max (a b : Num) : Num := if num_lt a b then b else a.

(** The float literals [0.1] and [10.0]; [0.1] is the double nearest to one
    tenth. *)
Definition speed_lo : Num := Fin (3602879701896397 # 36028797018963968).
Definition speed_hi : Num := Fin 10.

(** [max(0.1, min(10.0, speed))]. *)
Definition clamp_speed (s : Num) : Num := py_max speed_lo (py_min speed_hi s).

Definition in_speed_range (s : Num) : bool := num_le speed_lo s && num_le s speed_hi.

(** The object: the number of loaded events, the flags, the speed, the
    cursor and the two callbacks (by a handle). *)
Record Player : Type := mkPlayer {
  events : list Q;
  playing : bool;
  paused : bool;
  speed : Num;
  current_index : nat;
  on_event_callback : option nat;
  on_complete_callback : option nat
}.

(** [__init__]. *)
Definition init : Player :=
  {| events := []; playing := false; paused := false; speed := Fin 1;
     current_index := 0; on_event_callback := None;
     on_complete_callback := None |}.

Definition load_events (evs : list Q) (p : Player) : Player :=
  mkPlayer evs (playing p) (paused p) (speed p) 0 (on_event_callback p)
           (on_complete_callback p).

Definition start_playback (on_event on_complete : option nat) (s : Num) (p : Player)
  : bool * Player :=
  if playing p then (false, p)
  else
    match events p with
    | [] => (false, p)
    | _ => (true, mkPlayer (events p) true false (clamp_speed s) 0 on_event on_complete)
    end.

Definition set_speed (s : Num) (p : Player) : Player :=
  mkPlayer (events p) (playing p) (paused p) (clamp_speed s) (current_index p)
           (on_event_callback p) (on_complete_callback p).

Definition stop_playback (p : Player) : Player :=
  if negb (playing p) then p
  else mkPlayer (events p) false false (speed p) (current_index p)
                (on_event_callback p) (on_complete_callback p).

(** The calls a client can make on the object. *)
Inductive Call : Type :=
  | CallLoad (evs : list Q)
  | CallStart (on_event on_complete : option nat) (s : Num)
  | CallSetSpeed (s : Num)
  | CallStop.

Definition call (c : Call) (p : Player) : Player :=
  match c with
  | CallLoad evs => load_events evs p
  | CallStart e k s => snd (start_playback e k s p)
  | CallSetSpeed s => set_speed s p
  | CallStop => stop_playback p
  end.

End InputPlayer.

(* ===================================================================== *)
(** ** Sample programs and a quiet outside world                          *)
(* ===================================================================== *)

Module Samples.
Import PyValue AutomationScript.

(** A world where every external action succeeds and writes no variable,
    and no image or text is ever on the screen. *)
Definition quiet_step (n : nat) (s : Step) (vs : gmap string Value)
  : bool * gmap string Value := (true, vs).
Definition quiet_image (n : nat) (s : Step) : result bool := Ok false.
Definition quiet_text (n : nat) (s : Step) (vs : gmap string Value)
  : result bool := Ok false.

(** What [add_step(step_type)] appends: the type and [enabled = True]. *)
Definition plain_step (t : string) : Step :=
  {| step_type := t; enabled := true; next_step := None; on_failure := None;
     then_step := None; else_step := None; end_step := None; loop_id := None;
     loop_type := None; count := None; condition_type := None;
     variable := None; value := None; name := None; params := [] |}.

Definition set_variable_step (n : string) (v : Value) : Step :=
  {| step_type := "set_variable"; enabled := true; next_step := None;
     on_failure := None; then_step := None; else_step := None;
     end_step := None; loop_id := None; loop_type := None; count := None;
     condition_type := None; variable := None; value := Some v;
     name := Some n; params := [] |}.

(** A [variable_equals] condition step with both branch targets and an
    optional [next_step]. *)
Definition condition_step (var : string) (v : Value) (t e : Z) (nxt : option Z)
  : Step :=
  {| step_type := "condition"; enabled := true; next_step := nxt;
     on_failure := None; then_step := Some t; else_step := Some e;
     end_step := None; loop_id := None; loop_type := None; count := None;
     condition_type := Some "variable_equals"; variable := Some var;
     value := Some v; name := None; params := [] |}.

Definition count_loop_step (lid : string) (n : Value) (e : Z) : Step :=
  {| step_type := "loop"; enabled := true; next_step := None;
     on_failure := None; then_step := None; else_step := None;
     end_step := Some e; loop_id := Some lid; loop_type := Some "count";
     count := Some n; condition_type := None; variable := None;
     value := None; name := None; params := [] |}.

Definition end_loop_step (lid : string) : Step :=
  {| step_type := "end_loop"; enabled := true; next_step := None;
     on_failure := None; then_step := None; else_step := None;
     end_step := None; loop_id := Some lid; loop_type := None; count := None;
     condition_type := None; variable := None; value := None; name := None;
     params := [] |}.

(** A fresh [AutomationScript] object, as [__init__] leaves it. *)
Definition fresh : State :=
  {| running := false; paused := false; current_step := 0; variables := ∅;
     loop_counters := ∅; clock := 0; trace := [] |}.

(** A count loop of [n] rounds around one body step:
    index 0 the loop start, 1 the body, 2 the matching [end_loop]. *)
Definition count_program (n : Z) : list Step :=
  [count_loop_step "main_loop" (VInt n) 2;
   set_variable_step "seen" (VBool true);
   end_loop_step "main_loop"].

(** A condition at index 0 that also carries [next_step]. *)
Definition branch_program (nxt : option Z) : list Step :=
  [condition_step "x" (VInt 1) 1 2 nxt; plain_step "click"; plain_step "wait"].

(** A run in progress, at index 0, with [x = 1] in the bag. *)
Definition in_progress : State :=
  {| running := true; paused := false; current_step := 0;
     variables := {[ "x" := VInt 1 ]}; loop_counters := ∅; clock := 0;
     trace := [] |}.

(** Where the run of [count_program N] is caught for [N >= 2]: the frame
    counts 1 and the step index moves between the body and [end_loop]. *)
Definition stuck (N : Z) (st : State) : Prop :=
  running st = true /\ paused st = false
  /\ loop_counters st !! "main_loop" = Some (CountFrame 1 (VInt N) 0)
  /\ (current_step st = 1 \/ current_step st = 2).

(** Two recorded events one second apart. *)
Definition two_events : list EventPlayer.Event :=
  [EventPlayer.mkEvent 0 "key_press"; EventPlayer.mkEvent 1 "key_release"].

(** A playback of [two_events] at speed 1 whose thread has dispatched the
    first event and is about to wait for the second. *)
Definition waiting : EventPlayer.Player :=
  {| EventPlayer.playing := true; EventPlayer.paused := false;
     EventPlayer.stop_event := false; EventPlayer.events := two_events;
     EventPlayer.speed := 1;
     EventPlayer.thread := Some (EventPlayer.Wait 1 0);
     EventPlayer.log := [EventPlayer.OnStart; EventPlayer.Dispatch 0] |}.

(** The same playback a moment later, inside the sleep before the second
    event. *)
Definition sleeping : EventPlayer.Player :=
  {| EventPlayer.playing := true; EventPlayer.paused := false;
     EventPlayer.stop_event := false; EventPlayer.events := two_events;
     EventPlayer.speed := 1;
     EventPlayer.thread := Some (EventPlayer.Exec 1);
     EventPlayer.log := [EventPlayer.OnStart; EventPlayer.Dispatch 0;
                         EventPlayer.Sleep (EventPlayer.wait_time 1 0 1)] |}.

(** An [InputPlayer] with two events that is playing at speed 2. *)
Definition replaying : InputPlayer.Player :=
  {| InputPlayer.events := [0%Q; 1%Q]; InputPlayer.playing := true;
     InputPlayer.paused := false; InputPlayer.speed := InputPlayer.Fin 2;
     InputPlayer.current_index := 1; InputPlayer.on_event_callback := None;
     InputPlayer.on_complete_callback := Some 7%nat |}.

(** A clock that takes every wait below 2^63 ns and refuses the others. *)
Definition int64_clock : PyTime.Clock :=
  fun w => Qle_bool (9223372036854775808 # 1000000000) w.

(** The sleeps of a whole playback of [two_events] started at speed 100. *)
Definition sleeps_at_speed_100 : list Q :=
  EventPlayer.sleeps
    (EventPlayer.log
       (EventPlayer.thread_steps (clock:=int64_clock) 10
          (snd (EventPlayer.start_playback (Some 100%Q)
                  (EventPlayer.loaded two_events 1))))).

End Samples.

(* ===================================================================== *)
(** ** automation_script.py: run control and the shapes of templates      *)
(* ===================================================================== *)

Module ScriptControl.
Import PyValue AutomationScript.

(** [stop_script], [pause_script] and [resume_script], called from another
    thread between two passes of the run loop. *)
Definition stop_script (st : State) : State := set_running false st.

Definition pause_script (st : State) : State :=
  mkState (running st) true (current_step st) (variables st)
          (loop_counters st) (clock st) (trace st).

Definition resume_script (st : State) : State :=
  mkState (running st) false (current_step st) (variables st)
          (loop_counters st) (clock st) (trace st).

(** The statements of [run_script] after its loop: the completion callback,
    the returned flag and the [finally] clause. *)
Definition run_script_end (it : Iteration) : bool * State :=
  match it with
  | LoopExit st' | Continue st' =>
      (true, set_running false (emit (OnScriptEnd true) st'))
  | Fault _ st' =>
      (false, set_running false (emit (OnScriptEnd false) st'))
  end.

(** The text a piece of the scan stands for. *)
Definition piece_text (p : Piece) : string :=
  match p with
  | Lit c => String c EmptyString
  | Placeholder g => group0 g
  end.

Fixpoint pieces_text (ps : list Piece) : string :=
  match ps with
  | [] => EmptyString
  | p :: rest => piece_text p +:+ pieces_text rest
  end.

(** The groups of the placeholders of a scan, and the base name of one. *)
Fixpoint placeholders (ps : list Piece) : list string :=
  match ps with
  | [] => []
  | Lit _ :: rest => placeholders rest
  | Placeholder g :: rest => g :: placeholders rest
  end.

Definition base_name (var_path : string) : string :=
  match re_split var_path with
  | n :: _ => n
  | [] => EmptyString
  end.

(** A variable name that can be written between ["${"] and ["}"] as it is:
    not empty and without ['.'], ['['] and ['}']. *)
Fixpoint plain_chars (s : string) : bool :=
  match s with
  | EmptyString => true
  | String c r =>
      negb (is_char c "." || is_char c "[" || is_char c "}") && plain_chars r
  end.

Definition simple_name (s : string) : bool :=
  match s with
  | EmptyString => false
  | _ => plain_chars s
  end.

(** How often the completion callback was reached. *)
Fixpoint count_script_end (tr : list Callback) : nat :=
  match tr with
  | [] => 0
  | OnScriptEnd _ :: rest => S (count_script_end rest)
  | _ :: rest => count_script_end rest
  end.

(** The index holds an enabled step of the program. *)
Definition enabled_at (steps : list Step) (i : Z) : Prop :=
  exists s, seq_index steps i = Some s /\ enabled s = true.

(** The object a pass of the loop leaves. *)
Definition state_of (it : Iteration) : State :=
  match it with
  | LoopExit st | Continue st | Fault _ st => st
  end.

End ScriptControl.

(* ===================================================================== *)
(** ** More sample programs                                               *)
(* ===================================================================== *)

Module MoreSamples.
Import PyValue AutomationScript Samples.

(** A while loop start on [image_exists]. *)
Definition while_image_step (lid : string) (e : Z) : Step :=
  {| step_type := "loop"; enabled := true; next_step := None;
     on_failure := None; then_step := None; else_step := None;
     end_step := Some e; loop_id := Some lid; loop_type := Some "while";
     count := None; condition_type := Some "image_exists"; variable := None;
     value := None; name := None;
     params := [("image_path", VStr "logo.png")] |}.

(** A world in which the image is always on the screen. *)
Definition seeing_image (n : nat) (s : Step) : result bool := Ok true.

(** Wait while the logo is shown: index 0 the loop start, 1 the body, 2 the
    [end_loop]. *)
Definition logo_program : list Step :=
  [while_image_step "logo" 2; plain_step "click"; end_loop_step "logo"].

(** A playback at speed 1 that has dispatched its first event and stands
    before a second one recorded 10^10 seconds later. *)
Definition before_long_gap : EventPlayer.Player :=
  {| EventPlayer.playing := true; EventPlayer.paused := false;
     EventPlayer.stop_event := false;
     EventPlayer.events := [EventPlayer.mkEvent 0 "key_press";
                            EventPlayer.mkEvent 10000000000 "key_release"];
     EventPlayer.speed := 1;
     EventPlayer.thread := Some (EventPlayer.Head 1 0);
     EventPlayer.log := [EventPlayer.OnStart; EventPlayer.Dispatch 0] |}.

End MoreSamples.

(* ===================================================================== *)
(** ** event_player.py: what a playback log holds                         *)
(* ===================================================================== *)

Module PlaybackLog.
Import EventPlayer.

(** The indices of the events dispatched, in order. *)
Fixpoint dispatched (l : list Action) : list nat :=
  match l with
  | [] => []
  | Dispatch i :: r => i :: dispatched r
  | _ :: r => dispatched r
  end.

Fixpoint count_on_error (l : list Action) : nat :=
  match l with
  | [] => 0
  | OnError :: r => S (count_on_error r)
  | _ :: r => count_on_error r
  end.

(** How many more events, and how many more waits, the thread can still go
    through once the stop flag is set. *)
Definition dispatches_left (p : Player) : nat :=
  match thread p with
  | Some (Wait _ _) | Some (Exec _) => 1
  | _ => 0
  end.

Definition sleeps_left (p : Player) : nat :=
  match thread p with
  | Some (Wait _ _) => 1
  | _ => 0
  end.

End PlaybackLog.

(* ===================================================================== *)
(** ** config.py: the settings tree                                      *)
(* ===================================================================== *)

(** [Config.config] is a dict of JSON values whose dicts nest as a tree (no
    dict is reachable along two paths), as [DEFAULT_CONFIG] and a loaded file
    are.  The model holds its items; a mutation of a nested dict is the
    rebuilt tree. *)
Module Config.
Import PyValue.

Definition is_dot (c : ascii) : bool := Ascii.eqb c "."%char.

(** [key.split('.')]: never empty. *)
Fixpoint split_dot (s : string) : list string :=
  match s with
  | EmptyString => [EmptyString]
  | String c r =>
      if is_dot c then EmptyString :: split_dot r
      else match split_dot r with
           | h :: t => String c h :: t
           | [] => [String c EmptyString]
           end
  end.

(** [d[k] = v] on the items of a dict: an old key keeps its place, a new one
    goes last. *)
Fixpoint dict_set (kvs : list (string * Value)) (k : string) (v : Value)
  : list (string * Value) :=
  match kvs with
  | [] => [(k, v)]
  | (k', x) :: rest =>
      if String.eqb k k' then (k', v) :: rest else (k', x) :: dict_set rest k v
  end.

(** The loop of [get]: [value = value[k]] for each key. *)
Fixpoint lookup_path (value : Value) (keys : list string) : result Value :=
  match keys with
  | [] => Ok value
  | k :: ks => try! v := getitem_str value k in lookup_path v ks
  end.

Definition get (config : list (string * Value)) (key : string) (default : Value)
  : result Value :=
  match lookup_path (VDict config) (split_dot key) with
  | Ok v => Ok v
  | Raise KeyError | Raise TypeError => Ok default
  | Raise e => Raise e
  end.

(** The loop of [set] over [keys[:-1]], then [config[keys[-1]] = value]. *)
Fixpoint assign_path (config : list (string * Value)) (keys : list string)
         (last : string) (value : Value) : list (string * Value) :=
  match keys with
  | [] => dict_set config last value
  | k :: ks =>
      let sub := match dict_get config k with
                 | Some (VDict d) => d
                 | _ => []
                 end in
      dict_set config k (VDict (assign_path sub ks last value))
  end.

Definition set (config : list (string * Value)) (key : string) (value : Value)
  : result (bool * list (string * Value)) :=
  let keys := split_dot key in
  match seq_index keys (-1) with
  | Some last => Ok (true, assign_path config (removelast keys) last value)
  | None => Raise IndexError
  end.

(** [_update_dict(target, source)], by recursion on the source value. *)
Fixpoint update_from (source : Value) (target : list (string * Value))
         {struct source} : list (string * Value) :=
  match source with
  | VDict s =>
      (fix items (s : list (string * Value)) (target : list (string * Value))
         : list (string * Value) :=
         match s with
         | [] => target
         | (key, value) :: rest =>
             items rest
               match dict_get target key, value with
               | Some (VDict t), VDict _ =>
                   dict_set target key (VDict (update_from value t))
               | _, _ => dict_set target key value
               end
         end) s target
  | _ => target
  end.

Definition _update_dict (target source : list (string * Value))
  : list (string * Value) :=
  update_from (VDict source) target.

(** What a read gives for a lookup that returned or raised. *)
Definition or_default (default : Value) (r : result Value) : Value :=
  match r with
  | Ok v => v
  | Raise _ => default
  end.

(** A small settings tree. *)
Definition settings : list (string * Value) :=
  [("log_level", VStr "INFO");
   ("paths", VDict [("scripts", VStr "scripts"); ("logs", VStr "logs")]);
   ("gui", VDict [("font_size", VInt 10)])].

(** A loaded file that changes one path and adds a key. *)
Definition loaded_file : list (string * Value) :=
  [("paths", VDict [("logs", VStr "var/log")]); ("lang", VStr "zh")].

End Config.

(* ===================================================================== *)
(** ** core/player.py: the playback thread of [InputPlayer]              *)
(* ===================================================================== *)

(** [_playback_thread] as a step machine over the object it shares with
    the client.  An event is its timestamp.  The log holds the calls of the
    callbacks, [Play i] for [_play_event(events[i])] with all it does (it
    catches its own exceptions; for a [WaitEvent] it sleeps
    [duration / speed] itself), and [Sleep d] for a [time.sleep(d)] of the
    loop of [_playback_thread] that returned. *)
Module InputThread.
Import InputPlayer PyTime.

Inductive Action : Type :=
  | OnEvent (i : nat)
  | Play (i : nat)
  | Sleep (d : Q)
  | OnComplete.

(** Where the thread stands: at the [while] test, about to fetch the event
    under the lock, holding event [i] with timestamp [t], past
    [_play_event], leaving the loop, ended. *)
Inductive Pc : Type :=
  | Head
  | Fetch
  | Playing (i : nat) (t : Q)
  | Advance (t : Q)
  | Complete
  | Done.

Record Session : Type := mkSession {
  player : Player;
  pc : Pc;
  log : list Action
}.

Definition set_flags (pl pa : bool) (p : Player) : Player :=
  mkPlayer (events p) pl pa (speed p) (current_index p)
           (on_event_callback p) (on_complete_callback p).

Definition set_index (i : nat) (p : Player) : Player :=
  mkPlayer (events p) (playing p) (paused p) (speed p) i
           (on_event_callback p) (on_complete_callback p).

Definition poll : Q := 1 # 10.

(** [max(0, gap / self.speed)], over the rationals; [None] when the
    division raises.  A wait that is NaN or not above 0 leaves the 0. *)
Definition wait_for (gap : Q) (s : Num) : option Q :=
  match s with
  | Fin q =>
      if Qeq_bool q 0 then None
      else Some (if Qle_bool (gap / q) 0 then 0 else gap / q)%Q
  | PosInf | NegInf | NaN => Some 0%Q
  end.

Definition callback_entry (cb : option nat) (a : Action) : list Action :=
  match cb with
  | Some _ => [a]
  | None => []
  end.

(** The wait the loop makes after an event with timestamp [t] when event
    [j] is the next one. *)
Definition wait_between (p : Player) (t : Q) (j : nat) : option Q :=
  match nth_error (events p) j with
  | Some t' => if negb (Qle_bool t' t) then wait_for (t' - t) (speed p) else None
  | None => None
  end.

(** The wait the thread still makes before it tests [playing] again, when
    it stands between that test and the wait. *)
Definition pending_wait (s : Session) : option Q :=
  let p := player s in
  match pc s with
  | Fetch =>
      match nth_error (events p) (current_index p) with
      | Some t => wait_between p t (S (current_index p))
      | None => None
      end
  | Playing _ t | Advance t => wait_between p t (S (current_index p))
  | Head | Complete | Done => None
  end.

Section Thread.
Context {clock : Clock}.

(** [time.sleep] takes the pending wait. *)
Definition pending_ok (s : Session) : bool :=
  match pending_wait s with
  | Some d => negb (sleep_raises d)
  | None => true
  end.

(** One atomic move of the thread.  An exception of the loop (the division,
    a [time.sleep] that raises) goes to the handler of [_playback_thread],
    which clears the flags and does not call [on_complete]. *)
Definition thread_step (s : Session) : Session :=
  let p := player s in
  match pc s with
  | Head =>
      if playing p && (current_index p <? length (events p))%nat then
        if paused p then mkSession p Head (log s ++ [Sleep poll])
        else mkSession p Fetch (log s)
      else mkSession p Complete (log s)
  | Fetch =>
      match nth_error (events p) (current_index p) with
      | None => mkSession p Complete (log s)
      | Some t => mkSession p (Playing (current_index p) t) (log s)
      end
  | Playing i t =>
      mkSession p (Advance t)
        (log s ++ callback_entry (on_event_callback p) (OnEvent i) ++ [Play i])
  | Advance t =>
      let p1 := set_index (S (current_index p)) p in
      match nth_error (events p1) (current_index p1) with
      | None => mkSession p1 Complete (log s)
      | Some t' =>
          if negb (Qle_bool t' t) then
            match wait_for (t' - t) (speed p1) with
            | Some d =>
                if sleep_raises d
                then mkSession (set_flags false false p1) Done (log s)
                else mkSession p1 Head (log s ++ [Sleep d])
            | None => mkSession (set_flags false false p1) Done (log s)
            end
          else mkSession p1 Head (log s)
      end
  | Complete =>
      mkSession (set_flags false false p) Done
        (log s ++ callback_entry (on_complete_callback p) OnComplete)
  | Done => s
  end.

Fixpoint thread_steps (n : nat) (s : Session) : Session :=
  match n with
  | O => s
  | S n' => thread_steps n' (thread_step s)
  end.

(** Waits that [time.sleep] takes. *)
Definition waits_taken (ws : list Q) : bool :=
  forallb (fun d => negb (sleep_raises d)) ws.

End Thread.

(** The thread [start_playback] creates. *)
Definition spawn (p : Player) : Session := mkSession p Head [].

Fixpoint plays (l : list Action) : list nat :=
  match l with
  | [] => []
  | Play i :: r => i :: plays r
  | _ :: r => plays r
  end.

Fixpoint sleeps (l : list Action) : list Q :=
  match l with
  | [] => []
  | Sleep d :: r => d :: sleeps r
  | _ :: r => sleeps r
  end.

Fixpoint completes (l : list Action) : nat :=
  match l with
  | [] => 0
  | OnComplete :: r => S (completes r)
  | _ :: r => completes r
  end.

(** The waits between the events after the one with timestamp [t]. *)
Fixpoint waits_after (t : Q) (rest : list Q) (q : Q) : list Q :=
  match rest with
  | [] => []
  | t' :: r =>
      (if negb (Qle_bool t' t) then [((t' - t) / q)%Q] else [])
      ++ waits_after t' r q
  end.

(** What an undisturbed thread does for the events [t :: rest], the first
    of which has index [i]. *)
Fixpoint run_actions (cb : option nat) (t : Q) (rest : list Q) (i : nat) (q : Q)
  : list Action :=
  callback_entry cb (OnEvent i) ++ Play i ::
  match rest with
  | [] => []
  | t' :: r =>
      (if negb (Qle_bool t' t) then [Sleep ((t' - t) / q)%Q] else [])
      ++ run_actions cb t' r (S i) q
  end.

(** Moves the thread still makes, and events it can still play, once
    [playing] is false. *)
Definition rank (s : Session) : nat :=
  match pc s with
  | Fetch => 5
  | Playing _ _ => 4
  | Advance _ => 3
  | Head => 2
  | Complete => 1
  | Done => 0
  end.

Definition plays_left (s : Session) : nat :=
  match pc s with
  | Fetch | Playing _ _ => 1
  | _ => 0
  end.

Definition completes_left (s : Session) : nat :=
  match pc s, on_complete_callback (player s) with
  | Done, _ | _, None => 0
  | _, Some _ => 1
  end.

(** A thread at the start of a recording whose second event comes 10^11
    seconds after the first, at speed 10. *)
Definition before_long_wait : Session :=
  {| player := {| events := [0%Q; 100000000000%Q]; playing := true;
                  paused := false; speed := Fin 10; current_index := 0;
                  on_event_callback := None;
                  on_complete_callback := Some 2%nat |};
     pc := Head;
     log := [] |}.

(** A thread between two events of a three-event recording. *)
Definition between_events : Session :=
  {| player := {| events := [0%Q; 1%Q; 3%Q]; playing := true; paused := false;
                  speed := Fin 2; current_index := 1;
                  on_event_callback := Some 1%nat;
                  on_complete_callback := Some 2%nat |};
     pc := Head;
     log := [OnEvent 0; Play 0; Sleep (1 # 2)] |}.

End InputThread.

(* ===================================================================== *)
(** ** Properties of the template resolver                                *)
(* ===================================================================== *)

Module ResolverProps.
Import PyValue AutomationScript.

Lemma resolve_non_string (vars : gmap string Value) (v : Value) :
  is_str v = false -> _resolve_value vars v = Ok v.
Proof. destruct v; simpl; intros H; try reflexivity; discriminate H. Qed.

(** A placeholder whose base name is not in the bag keeps its text. *)
Lemma replace_var_missing_base (vars : gmap string Value) (var_path : string) :
  (forall n ps, re_split var_path = n :: ps -> vars !! n = None) ->
  replace_var vars var_path = Ok (group0 var_path).
Proof.
  intros H. unfold replace_var.
  destruct (re_split var_path) as [|n ps] eqn:E; [reflexivity|].
  now rewrite (H n ps eq_refl).
Qed.

(** The failures the two handlers of [replace_var] take: a missing key or a
    str subscript on something that is not a dict; an index that is not an
    int or is out of range on a list. *)
Lemma follow_missing_key (cur : Value) (k : string) (rest : list string) :
  endswith_rbracket k = false ->
  (forall v, getitem_str cur k <> Ok v) ->
  follow_parts cur (k :: rest) = Ok None.
Proof.
  intros Hk Hfail. simpl. rewrite Hk.
  destruct cur; simpl in *; try reflexivity.
  destruct (dict_get kvs k) as [v|]; [|reflexivity].
  exfalso. now apply (Hfail v).
Qed.

Lemma follow_bad_index_list (xs : list Value) (part : string) (rest : list string) :
  endswith_rbracket part = true ->
  (forall i, py_int (drop_last part) = Ok i -> seq_index xs i = None) ->
  follow_parts (VList xs) (part :: rest) = Ok None.
Proof.
  intros Hp Hidx. simpl. rewrite Hp.
  destruct (py_int (drop_last part)) as [i|e] eqn:E; simpl.
  - now rewrite (Hidx i eq_refl).
  - unfold py_int in E.
    destruct (match py_strip (drop_last part) with
              | String "-"%char r => option_map Z.opp (digits_value r 0 false)
              | String "+"%char r => digits_value r 0 false
              | _ => digits_value (py_strip (drop_last part)) 0 false
              end); inversion E; reflexivity.
Qed.

(** An index applied to a value that is neither a sequence nor a dict raises
    [TypeError], and no handler of the index branch takes it. *)
Lemma follow_index_not_subscriptable (cur : Value) (part : string)
      (rest : list string) (i : Z) :
  endswith_rbracket part = true ->
  py_int (drop_last part) = Ok i ->
  getitem_int cur i = Raise TypeError ->
  follow_parts cur (part :: rest) = Raise TypeError.
Proof. intros Hp Hi Hg. simpl. now rewrite Hp, Hi; simpl; rewrite Hg. Qed.

(** C8. [resolve] of ["${a.b}"] with [a = {"b": 5}] is ["5"]; of ["${a[1]}"]
    with [a = [10, 20, 30]] is ["20"]; of ["${missing}"] in a bag without
    [missing] is the text ["${missing}"] itself; and a value that is not a
    string is returned unchanged. *)
Theorem resolve_examples :
  _resolve_value {[ "a" := VDict [("b", VInt 5)] ]} (VStr "${a.b}") = Ok (VStr "5")
  /\ _resolve_value {[ "a" := VList [VInt 10; VInt 20; VInt 30] ]} (VStr "${a[1]}")
     = Ok (VStr "20")
  /\ (forall vars : gmap string Value,
        vars !! "missing" = None ->
        _resolve_value vars (VStr "${missing}") = Ok (VStr "${missing}"))
  /\ (forall (vars : gmap string Value) (v : Value),
        is_str v = false -> _resolve_value vars v = Ok v).
Proof.
  split; [vm_compute; reflexivity|].
  split; [vm_compute; reflexivity|].
  split.
  - intros vars H. cbn. unfold replace_var. cbn. now rewrite H.
  - apply resolve_non_string.
Qed.

Lemma resolve_examples_witness :
  _resolve_value (∅ : gmap string Value) (VStr "${missing}") = Ok (VStr "${missing}")
  /\ _resolve_value (∅ : gmap string Value) (VInt 3) = Ok (VInt 3).
Proof.
  destruct resolve_examples as (_ & _ & Hmiss & Hid).
  split.
  - apply Hmiss. reflexivity.
  - apply Hid. reflexivity.
Defined.

(** C6, evaluated on the code.  An index applied to an int, or to a dict,
    raises out of [_resolve_value]: the placeholder is not kept, and the
    resolvable placeholder next to it is not resolved either.  The same index
    on a list that is too short is taken softly. *)
Theorem resolve_index_on_scalar_raises :
  _resolve_value {[ "a" := VInt 5 ]} (VStr "${a[0]}") = Raise TypeError
  /\ _resolve_value (<[ "b" := VInt 7 ]> {[ "a" := VInt 5 ]}) (VStr "${b} ${a[0]}")
     = Raise TypeError
  /\ _resolve_value {[ "a" := VDict [("k", VInt 1)] ]} (VStr "${a[0]}") = Raise KeyError
  /\ _resolve_value (<[ "b" := VInt 7 ]> {[ "a" := VList [] ]}) (VStr "${b} ${a[0]}")
     = Ok (VStr "7 ${a[0]}")
  /\ _resolve_value (<[ "b" := VInt 7 ]> {[ "a" := VInt 5 ]}) (VStr "${b} ${a.k}")
     = Ok (VStr "7 ${a.k}").
Proof. repeat split; vm_compute; reflexivity. Qed.

End ResolverProps.

(* ===================================================================== *)
(** ** Properties of the run loop                                         *)
(* ===================================================================== *)

Module InterpreterProps.
Import PyValue AutomationScript.

Section WithWorld.

Variable world_step : nat -> Step -> gmap string Value -> bool * gmap string Value.
Variable world_image : nat -> Step -> result bool.
Variable world_text : nat -> Step -> gmap string Value -> result bool.

Local Notation "'exec_step'" := (_execute_step world_step world_image world_text).
Local Notation "'iteration'" := (loop_iteration world_step world_image world_text).
Local Notation "'loop'" := (run_loop world_step world_image world_text).
Local Notation "'run'" := (run_script world_step world_image world_text).

Ltac flags := unfold same_flags in *; simpl in *; intuition congruence.

Lemma frame_external st step : same_flags st (snd (_execute_external world_step st step)).
Proof. unfold _execute_external. destruct (world_step _ _ _). flags. Qed.

Lemma frame_check st step r st1 :
  check_condition world_image world_text st step = Some (r, st1) -> same_flags st st1.
Proof.
  unfold check_condition, _check_image_condition, _check_text_condition.
  repeat (match goal with |- context [if ?c then _ else _] => destruct c end);
    intros H; inversion H; subst; flags.
Qed.

Lemma frame_condition st step :
  same_flags st (snd (_execute_condition world_image world_text st step)).
Proof.
  unfold _execute_condition.
  destruct (check_condition _ _ st step) as [[r st1]|] eqn:E; [|flags].
  apply frame_check in E.
  destruct r as [[|]|]; [destruct (then_step step)|destruct (else_step step)|]; flags.
Qed.

Lemma frame_count_loop st step lid :
  same_flags st (snd (_execute_count_loop st step lid)).
Proof.
  unfold _execute_count_loop.
  destruct (_resolve_value _ _); [|flags].
  match goal with |- context [loop_counters ?s !! lid] =>
    match s with st => fail 1 | _ => set (st1 := s) end end.
  assert (same_flags st st1) by (subst st1; destruct (loop_counters st !! lid); flags).
  clearbody st1.
  destruct (loop_counters st1 !! lid) as [[cur tot start|start]|]; try flags.
  destruct (int_ge cur tot) as [[|]|]; try flags.
  destruct (end_step step); flags.
Qed.

Lemma frame_while_loop st step lid :
  same_flags st (snd (_execute_while_loop world_image st step lid)).
Proof.
  unfold _execute_while_loop, _check_image_condition.
  destruct (str_is _ ""); [flags|].
  set (st1 := match loop_counters st !! lid with
              | None => _ | Some _ => st end).
  assert (same_flags st st1) by (subst st1; destruct (loop_counters st !! lid); flags).
  clearbody st1.
  destruct (str_is _ "image_exists").
  - destruct (world_image _ _) as [[|]|]; try flags. destruct (end_step step); flags.
  - destruct (str_is _ "variable_equals").
    + destruct (_check_variable_equals_condition st1 step) as [[|]|]; try flags.
      destruct (end_step step); flags.
    + destruct (end_step step); flags.
Qed.

Lemma frame_loop st step :
  same_flags st (snd (_execute_loop world_image st step)).
Proof.
  unfold _execute_loop.
  destruct (str_is _ "count").
  - pose proof (frame_count_loop st step
      (default ("loop_" +:+ str_of_int (current_step st)) (loop_id step))) as F.
    destruct (_execute_count_loop _ _ _) as [[b|e] st1]; flags.
  - destruct (str_is _ "while"); [|flags].
    pose proof (frame_while_loop st step
      (default ("loop_" +:+ str_of_int (current_step st)) (loop_id step))) as F.
    destruct (_execute_while_loop _ _ _ _) as [[b|e] st1]; flags.
Qed.

Lemma frame_end_loop st step : same_flags st (snd (_execute_end_loop st step)).
Proof.
  unfold _execute_end_loop.
  destruct (str_is _ ""); [flags|].
  destruct (loop_counters st !! _) as [[cur tot start|start]|]; try flags.
  destruct (int_lt cur tot) as [[|]|]; flags.
Qed.

Lemma frame_set_variable st step : same_flags st (snd (_execute_set_variable st step)).
Proof.
  unfold _execute_set_variable.
  destruct (str_is _ ""); [flags|]. destruct (_resolve_value _ _); flags.
Qed.

(** No handler touches the run flags or calls a lifecycle callback. *)
Lemma execute_step_frame (st : State) (step : Step) :
  same_flags st (snd (exec_step st step)).
Proof.
  unfold _execute_step.
  destruct (is_external _); [apply frame_external|].
  destruct (str_is _ "condition"); [apply frame_condition|].
  destruct (str_is _ "loop"); [apply frame_loop|].
  destruct (str_is _ "end_loop"); [apply frame_end_loop|].
  destruct (str_is _ "set_variable"); [apply frame_set_variable|flags].
Qed.

(** A handler other than condition, loop and end_loop leaves the step index. *)
Lemma execute_step_plain (st st' : State) (step : Step) (b : bool) :
  is_control (step_type step) = false ->
  exec_step st step = (b, st') ->
  current_step st' = current_step st /\ loop_counters st' = loop_counters st.
Proof.
  unfold is_control, _execute_step, _execute_external, _execute_set_variable.
  intros Hc H.
  apply orb_false_elim in Hc as [Hc He]. apply orb_false_elim in Hc as [Hc Hl].
  rewrite Hc, Hl, He in H.
  destruct (is_external _).
  - destruct (world_step _ _ _); inversion H; subst; auto.
  - destruct (str_is _ "set_variable"); [|inversion H; subst; auto].
    destruct (str_is _ ""); [inversion H; subst; auto|].
    destruct (_resolve_value _ _); inversion H; subst; auto.
Qed.

Lemma run_loop_more_fuel (steps : list Step) (fuel extra : nat) (st : State)
      (r : Iteration) :
  loop fuel steps st = Some r -> loop (fuel + extra) steps st = Some r.
Proof.
  revert st. induction fuel as [|fuel IH]; intros st H; simpl in *; [discriminate|].
  destruct (iteration steps st); auto.
Qed.

Lemma seq_index_lt {A : Type} (xs : list A) (i : Z) (x : A) :
  seq_index xs i = Some x -> i < Z.of_nat (length xs).
Proof.
  unfold seq_index.
  destruct ((0 <=? i) && (i <? Z.of_nat (length xs))) eqn:E1.
  - intros _. apply andb_true_iff in E1 as [_ E1]. lia.
  - destruct ((- Z.of_nat (length xs) <=? i) && (i <? 0)) eqn:E2; [|discriminate].
    intros _. apply andb_true_iff in E2 as [_ E2]. lia.
Qed.

Lemma seq_index_nat {A : Type} (xs : list A) (k : nat) :
  (k < length xs)%nat -> seq_index xs (Z.of_nat k) = nth_error xs k.
Proof.
  intros H. unfold seq_index.
  replace ((0 <=? Z.of_nat k) && (Z.of_nat k <? Z.of_nat (length xs))) with true.
  - now rewrite Nat2Z.id.
  - symmetry. apply andb_true_iff. split; lia.
Qed.

(** The pass of the run loop over an enabled step. *)
Lemma iteration_enabled (steps : list Step) (st : State) (step : Step) :
  running st = true -> paused st = false ->
  seq_index steps (current_step st) = Some step ->
  enabled step = true ->
  exists b st2,
    exec_step (emit (OnStepStart (current_step st)) st) step = (b, st2)
    /\ iteration steps st =
       Continue (set_current_step
                   (match (if b then next_step step else on_failure step) with
                    | Some j => j
                    | None => current_step st2 + 1
                    end)
                   (emit (OnStepEnd (current_step st2) b) st2)).
Proof.
  intros Hr Hp Hs He.
  pose proof (seq_index_lt _ _ _ Hs) as Hlt.
  destruct (exec_step (emit (OnStepStart (current_step st)) st) step) as [b st2] eqn:E.
  exists b, st2. split; [reflexivity|].
  unfold loop_iteration. rewrite Hr, Hp, Hs, He.
  replace (current_step st <? Z.of_nat (length steps)) with true by (symmetry; lia).
  simpl. rewrite E.
  destruct (if b then next_step step else on_failure step); reflexivity.
Qed.

(** C10. [run_script] on an empty step list returns [False] at once: the
    object is left as it was, so no step ran, [running] was not set and the
    [on_script_end] callback was not called. *)
Theorem run_script_empty (fuel : nat) (from_step : Z) (st : State) :
  run fuel [] from_step st = Some (false, st).
Proof. reflexivity. Qed.

(** The pass over a step with the sequential policy. *)
Lemma iteration_sequential (steps : list Step) (st : State) (step : Step) :
  running st = true -> paused st = false ->
  seq_index steps (current_step st) = Some step ->
  sequential step ->
  exists b st',
    iteration steps st = Continue st'
    /\ running st' = true /\ paused st' = false
    /\ current_step st' = current_step st + 1
    /\ trace st' = trace st ++ [OnStepStart (current_step st);
                                OnStepEnd (current_step st) b].
Proof.
  intros Hr Hp Hs (He & Hn & Hf & Hc).
  destruct (iteration_enabled steps st step Hr Hp Hs He) as (b & st2 & Hx & Hit).
  pose proof (execute_step_frame (emit (OnStepStart (current_step st)) st) step) as F.
  pose proof (execute_step_plain _ _ _ _ Hc Hx) as [Hcs _].
  rewrite Hx in F. destruct F as (F1 & F2 & F3). simpl in *.
  exists b. eexists. split; [exact Hit|].
  rewrite Hn, Hf. destruct b; simpl; rewrite ?F1, ?F2, ?F3, ?Hcs, <- ?app_assoc; auto.
Qed.

Lemma started_app (a b : list Callback) : started (a ++ b) = started a ++ started b.
Proof.
  induction a as [|c a IH]; simpl; [reflexivity|].
  destruct c; simpl; now rewrite IH.
Qed.

Lemma sequential_loop (steps : list Step) :
  Forall sequential steps ->
  forall (m k : nat) (st : State),
    (k + m)%nat = length steps ->
    running st = true -> paused st = false ->
    current_step st = Z.of_nat k ->
    exists st' evs,
      loop (S m) steps st = Some (LoopExit st')
      /\ trace st' = trace st ++ evs
      /\ started evs = List.map Z.of_nat (seq k m).
Proof.
  intros Hall. induction m as [|m IH]; intros k st Hk Hr Hp Hcs.
  - exists st, []. simpl. unfold loop_iteration. rewrite Hr, Hcs.
    replace (Z.of_nat k <? Z.of_nat (length steps)) with false by (symmetry; lia).
    simpl. now rewrite app_nil_r.
  - assert (Hlt : (k < length steps)%nat) by lia.
    destruct (nth_error steps k) as [step|] eqn:En;
      [|apply nth_error_None in En; lia].
    assert (Hseq : sequential step).
    { rewrite List.Forall_forall in Hall. apply Hall. eapply nth_error_In, En. }
    assert (Hs : seq_index steps (current_step st) = Some step).
    { rewrite Hcs, seq_index_nat; assumption. }
    destruct (iteration_sequential steps st step Hr Hp Hs Hseq)
      as (b & st1 & Hit & Hr1 & Hp1 & Hcs1 & Htr1).
    destruct (IH (S k) st1) as (st' & evs & Hl & Htr & Hst); auto; try lia.
    exists st', ([OnStepStart (current_step st); OnStepEnd (current_step st) b] ++ evs).
    split; [|split].
    + change (loop (S (S m)) steps st) with
        (match iteration steps st with
         | Continue s => loop (S m) steps s
         | stop => Some stop
         end).
      now rewrite Hit.
    + rewrite Htr, Htr1, <- app_assoc. reflexivity.
    + simpl. rewrite Hst, Hcs. reflexivity.
Qed.

(** C9. A non-empty program whose steps are all enabled and carry no
    condition, loop, [next_step] or [on_failure], run from index 0 with enough
    fuel for its [n] steps, returns [True] after executing the indices
    [0, 1, ..., n-1] once each, in this order. *)
Theorem sequential_run_visits_in_order
        (steps : list Step) (st : State) (fuel : nat) :
  steps <> [] ->
  Forall sequential steps ->
  (length steps < fuel)%nat ->
  exists st' evs,
    run fuel steps 0 st = Some (true, st')
    /\ trace st' = trace st ++ evs
    /\ started evs = List.map Z.of_nat (seq 0 (length steps))
    /\ running st' = false.
Proof.
  intros Hne Hall Hfuel.
  destruct (sequential_loop steps Hall (length steps) 0%nat (run_script_init 0 st))
    as (st1 & evs & Hl & Htr & Hst); auto.
  apply (run_loop_more_fuel steps _ (fuel - S (length steps))) in Hl.
  replace (S (length steps) + (fuel - S (length steps)))%nat with fuel in Hl by lia.
  exists (set_running false (emit (OnScriptEnd true) st1)), (evs ++ [OnScriptEnd true]).
  unfold run_script. destruct steps as [|s0 rest]; [congruence|].
  rewrite Hl. simpl in *. repeat split.
  - rewrite Htr, <- app_assoc. reflexivity.
  - rewrite started_app, Hst. simpl. now rewrite app_nil_r.
Qed.

(** C2, as the code has it.  An enabled condition step with [then_step = T],
    [else_step = F] and no [next_step], whose condition evaluates to [b]:
    the pass of the run loop leaves the step index on [T] when [b] is true
    and on [F] when it is false, whatever [on_failure] is; and when that
    index holds an enabled step, it is the next step executed. *)
Theorem condition_branch_target
        (steps : list Step) (st st1 : State) (step : Step) (T F : Z) (b : bool) :
  running st = true -> paused st = false ->
  seq_index steps (current_step st) = Some step ->
  enabled step = true ->
  step_type step = "condition" ->
  then_step step = Some T -> else_step step = Some F ->
  next_step step = None ->
  check_condition world_image world_text
    (emit (OnStepStart (current_step st)) st) step = Some (Ok b, st1) ->
  exists st',
    iteration steps st = Continue st'
    /\ current_step st' = (if b then T else F)
    /\ (forall target : Step,
          seq_index steps (if b then T else F) = Some target ->
          enabled target = true ->
          exists st'' evs,
            iteration steps st' = Continue st''
            /\ trace st'' = trace st' ++ OnStepStart (if b then T else F) :: evs).
Proof.
  intros Hr Hp Hs He Hty HT HF Hn Hc.
  destruct (iteration_enabled steps st step Hr Hp Hs He) as (ok & st2 & Hx & Hit).
  pose proof (frame_check _ _ _ _ Hc) as Fc.
  assert (Hexec : ok = true /\ st2 = set_current_step ((if b then T else F) - 1) st1).
  { unfold _execute_step in Hx. rewrite Hty in Hx. simpl in Hx.
    unfold _execute_condition in Hx. rewrite Hc, HT, HF in Hx.
    destruct b; inversion Hx; auto. }
  destruct Hexec as [-> ->].
  rewrite Hn in Hit. simpl in Hit.
  eexists. split; [exact Hit|]. split; [simpl; lia|].
  intros target Hst Het.
  match type of Hit with _ = Continue ?s => set (st' := s) in * end.
  assert (Hr' : running st' = true) by (subst st'; flags).
  assert (Hp' : paused st' = false) by (subst st'; flags).
  assert (Hcs' : current_step st' = (if b then T else F)) by (subst st'; simpl; lia).
  clearbody st'. rewrite <- Hcs' in Hst.
  destruct (iteration_enabled steps st' target Hr' Hp' Hst Het) as (ok' & st3 & Hx' & Hit').
  pose proof (execute_step_frame (emit (OnStepStart (current_step st')) st') target) as F3.
  rewrite Hx' in F3. destruct F3 as (_ & _ & F3). simpl in F3.
  eexists. exists [OnStepEnd (current_step st3) ok'].
  split; [exact Hit'|]. simpl. rewrite F3, Hcs', <- app_assoc. reflexivity.
Qed.

(** *** The count loop *)

Import Samples.

Lemma exec_body (st : State) :
  exec_step st (set_variable_step "seen" (VBool true))
  = (true, set_variables (<["seen" := VBool true]> (variables st)) st).
Proof. reflexivity. Qed.

(** [end_loop] on a count frame that has rounds left: the step index is set
    to [start_step]. *)
Lemma exec_end_loop_back (st : State) (cur N start : Z) :
  loop_counters st !! "main_loop" = Some (CountFrame cur (VInt N) start) ->
  cur < N ->
  exec_step st (end_loop_step "main_loop") = (true, set_current_step start st).
Proof.
  intros H HN. unfold _execute_step.
  change (is_external (step_type (end_loop_step "main_loop"))) with false.
  change (str_is (step_type (end_loop_step "main_loop")) "condition") with false.
  change (str_is (step_type (end_loop_step "main_loop")) "loop") with false.
  change (str_is (step_type (end_loop_step "main_loop")) "end_loop") with true.
  cbv iota. unfold _execute_end_loop.
  change (default "" (loop_id (end_loop_step "main_loop"))) with "main_loop".
  change (str_is "main_loop" "") with false. cbv iota.
  rewrite H. unfold int_lt. simpl.
  replace (cur <? N) with true by (symmetry; lia). reflexivity.
Qed.

(** The first visit of the loop start with [N >= 1] rounds: the frame is
    created and counts 1. *)
Lemma exec_loop_first (st : State) (N : Z) :
  loop_counters st !! "main_loop" = None ->
  0 < N ->
  exec_step st (count_loop_step "main_loop" (VInt N) 2)
  = (true, set_loop_counters
             (<["main_loop" := CountFrame 1 (VInt N) (current_step st)]>
                (<["main_loop" := CountFrame 0 (VInt N) (current_step st)]>
                   (loop_counters st))) st).
Proof.
  intros H HN. unfold _execute_step.
  change (is_external (step_type (count_loop_step "main_loop" (VInt N) 2))) with false.
  change (str_is (step_type (count_loop_step "main_loop" (VInt N) 2)) "condition")
    with false.
  change (str_is (step_type (count_loop_step "main_loop" (VInt N) 2)) "loop") with true.
  cbv iota. unfold _execute_loop.
  change (default _ (loop_id (count_loop_step "main_loop" (VInt N) 2)))
    with "main_loop".
  change (str_is (default "count" (loop_type (count_loop_step "main_loop" (VInt N) 2)))
            "count") with true.
  cbv iota. unfold _execute_count_loop.
  change (_resolve_value (variables st)
            (default (VInt 1) (count (count_loop_step "main_loop" (VInt N) 2))))
    with (Ok (VInt N) : result Value).
  cbv iota. rewrite H.
  change (loop_counters (set_loop_counters ?m st)) with m.
  rewrite lookup_insert_eq. unfold int_ge. simpl.
  replace (N <=? 0) with false by (symmetry; lia). reflexivity.
Qed.

Lemma stuck_step (N : Z) (st : State) :
  2 <= N -> stuck N st ->
  exists st', iteration (count_program N) st = Continue st' /\ stuck N st'.
Proof.
  intros HN (Hr & Hp & Hf & [Hcs|Hcs]).
  - assert (Hs : seq_index (count_program N) (current_step st)
                 = Some (set_variable_step "seen" (VBool true)))
      by (rewrite Hcs; reflexivity).
    destruct (iteration_enabled _ st _ Hr Hp Hs eq_refl) as (b & st2 & Hx & Hit).
    rewrite exec_body in Hx. inversion Hx; subst b st2; clear Hx.
    eexists. split; [exact Hit|]. unfold stuck. simpl. rewrite Hcs. auto.
  - assert (Hs : seq_index (count_program N) (current_step st)
                 = Some (end_loop_step "main_loop"))
      by (rewrite Hcs; reflexivity).
    destruct (iteration_enabled _ st _ Hr Hp Hs eq_refl) as (b & st2 & Hx & Hit).
    rewrite (exec_end_loop_back _ 1 N 0) in Hx by (simpl; auto; lia).
    inversion Hx; subst b st2; clear Hx.
    eexists. split; [exact Hit|]. unfold stuck. simpl. auto.
Qed.

Lemma stuck_forever (N : Z) :
  2 <= N ->
  forall (fuel : nat) (st : State),
    stuck N st -> loop fuel (count_program N) st = None.
Proof.
  intros HN. induction fuel as [|fuel IH]; intros st Hst; [reflexivity|].
  destruct (stuck_step N st HN Hst) as (st' & Hit & Hst').
  simpl. rewrite Hit. apply IH, Hst'.
Qed.

(** C1, evaluated on the code.  For a count loop of [N >= 2] rounds,
    [end_loop] sets the step index to [start_step] and the run loop then adds
    one: control lands on the first body step, the loop start is never
    visited again, its counter stays at 1, and [run_script] returns for no
    amount of fuel. *)
Theorem count_loop_never_returns (N : Z) (fuel : nat) (st : State) :
  2 <= N ->
  run fuel (count_program N) 0 st = None.
Proof.
  intros HN. unfold run_script.
  change (count_program N) with
    (count_loop_step "main_loop" (VInt N) 2 :: tl (count_program N)) at 1.
  cbv iota.
  destruct fuel as [|fuel]; [reflexivity|].
  set (st0 := run_script_init 0 st).
  assert (Hs : seq_index (count_program N) (current_step st0)
               = Some (count_loop_step "main_loop" (VInt N) 2)) by reflexivity.
  destruct (iteration_enabled _ st0 _ eq_refl eq_refl Hs eq_refl)
    as (b & st2 & Hx & Hit).
  rewrite (exec_loop_first _ N) in Hx by (simpl; auto; lia).
  inversion Hx; subst b st2; clear Hx.
  simpl run_loop. rewrite Hit.
  rewrite stuck_forever; auto.
  unfold stuck. simpl. rewrite lookup_insert_eq. auto.
Qed.

Lemma loop_state_S (n : nat) (steps : list Step) (st st' : State) :
  iteration steps st = Continue st' ->
  loop_state world_step world_image world_text (S n) steps st
  = loop_state world_step world_image world_text n steps st'.
Proof. intros H. simpl. now rewrite H. Qed.

(** One round of the stuck run: the body and [end_loop], and the body is
    next again. *)
Lemma stuck_round (N : Z) (st : State) :
  2 <= N -> stuck N st -> current_step st = 1 ->
  exists st2,
    (forall n, loop_state world_step world_image world_text (S (S n))
                 (count_program N) st
               = loop_state world_step world_image world_text n
                   (count_program N) st2)
    /\ stuck N st2 /\ current_step st2 = 1
    /\ started (trace st2) = started (trace st) ++ [1; 2].
Proof.
  intros HN (Hr & Hp & Hf & _) Hcs.
  assert (Hs : seq_index (count_program N) (current_step st)
               = Some (set_variable_step "seen" (VBool true)))
    by (rewrite Hcs; reflexivity).
  destruct (iteration_enabled _ st _ Hr Hp Hs eq_refl) as (b & sa & Hx & Hit).
  rewrite exec_body in Hx. inversion Hx; subst b sa; clear Hx.
  match type of Hit with _ = Continue ?s => set (st1 := s) in * end.
  assert (Hs1 : seq_index (count_program N) (current_step st1)
                = Some (end_loop_step "main_loop"))
    by (subst st1; simpl; rewrite Hcs; reflexivity).
  destruct (iteration_enabled _ st1 _ Hr Hp Hs1 eq_refl) as (b & sb & Hx & Hit1).
  rewrite (exec_end_loop_back _ 1 N 0) in Hx by (subst st1; simpl; auto; lia).
  inversion Hx; subst b sb; clear Hx.
  eexists. split; [|split; [|split]].
  - intros n. rewrite (loop_state_S _ _ _ _ Hit), (loop_state_S _ _ _ _ Hit1).
    reflexivity.
  - unfold stuck. simpl. auto.
  - reflexivity.
  - subst st1. simpl. rewrite Hcs, !started_app. simpl.
    rewrite <- !app_assoc. reflexivity.
Qed.

Lemma stuck_rounds (N : Z) (k : nat) :
  2 <= N ->
  forall st : State,
    stuck N st -> current_step st = 1 ->
    started (trace (loop_state world_step world_image world_text (2 * k)
                      (count_program N) st))
    = started (trace st) ++ concat (repeat [1; 2] k).
Proof.
  intros HN. induction k as [|k IH]; intros st Hst Hcs.
  - simpl. now rewrite app_nil_r.
  - destruct (stuck_round N st HN Hst Hcs) as (st2 & Hl & Hst2 & Hcs2 & Htr).
    replace (2 * S k)%nat with (S (S (2 * k))) by lia.
    rewrite Hl, (IH st2 Hst2 Hcs2), Htr. simpl. rewrite <- app_assoc. reflexivity.
Qed.

(** For [N >= 2] the passes of the run visit the loop start once and then
    the body and [end_loop] in turn, as many times as one lets it run: the
    body is executed more than [N] times. *)
Lemma count_loop_body_unbounded (N : Z) (k : nat) (st : State) :
  2 <= N ->
  started (trace (loop_state world_step world_image world_text (S (2 * k))
                    (count_program N) (run_script_init 0 st)))
  = started (trace st) ++ 0 :: concat (repeat [1; 2] k).
Proof.
  intros HN.
  set (st0 := run_script_init 0 st).
  assert (Hs : seq_index (count_program N) (current_step st0)
               = Some (count_loop_step "main_loop" (VInt N) 2)) by reflexivity.
  destruct (iteration_enabled _ st0 _ eq_refl eq_refl Hs eq_refl)
    as (b & st2 & Hx & Hit).
  rewrite (exec_loop_first _ N) in Hx by (simpl; auto; lia).
  inversion Hx; subst b st2; clear Hx.
  rewrite (loop_state_S _ _ _ _ Hit).
  rewrite stuck_rounds; auto.
  - simpl. rewrite !started_app. simpl. rewrite <- !app_assoc. reflexivity.
  - unfold stuck. simpl. rewrite lookup_insert_eq. auto.
Qed.

(** With zero rounds the body is skipped, with one it runs once. *)
Lemma count_loop_zero_and_one :
  (exists st', run 2 (count_program 0) 0 fresh = Some (true, st')
               /\ started (trace st') = [0])
  /\ (exists st', run 4 (count_program 1) 0 fresh = Some (true, st')
                  /\ started (trace st') = [0; 1; 2]).
Proof. split; eexists; (split; [vm_compute; reflexivity|reflexivity]). Qed.

(** The first nine passes over a loop of two rounds: the body (index 1) has
    already run four times and the loop start (index 0) once. *)
Lemma count_loop_two_rounds_trace :
  started (trace (loop_state world_step world_image world_text 9
                    (count_program 2) (run_script_init 0 fresh)))
  = [0; 1; 2; 1; 2; 1; 2; 1; 2].
Proof. vm_compute. reflexivity. Qed.

End WithWorld.

Import Samples.

Lemma count_loop_never_returns_witness :
  2 <= 2
  /\ run_script quiet_step quiet_image quiet_text 40 (count_program 2) 0 fresh = None.
Proof.
  split; [lia|].
  apply (count_loop_never_returns quiet_step quiet_image quiet_text 2 40 fresh). lia.
Defined.

(** C2 as the claim states it fails: the condition at index 0 of
    [branch_program (Some 0)] is true and carries [then_step = 1], but its
    [next_step = 0] is applied after the handler and the step index is 0. *)
Lemma next_step_overrides_branch :
  seq_index (branch_program (Some 0)) (current_step in_progress)
    = Some (condition_step "x" (VInt 1) 1 2 (Some 0))
  /\ check_condition quiet_image quiet_text
       (emit (OnStepStart 0) in_progress) (condition_step "x" (VInt 1) 1 2 (Some 0))
     = Some (Ok true, emit (OnStepStart 0) in_progress)
  /\ exists st',
       loop_iteration quiet_step quiet_image quiet_text
         (branch_program (Some 0)) in_progress = Continue st'
       /\ current_step st' = 0
       /\ current_step st' <> 1.
Proof.
  split; [reflexivity|]. split; [vm_compute; reflexivity|].
  eexists. split; [vm_compute; reflexivity|]. split; [reflexivity|discriminate].
Qed.

Lemma condition_branch_target_witness :
  exists st',
    loop_iteration quiet_step quiet_image quiet_text
      (branch_program None) in_progress = Continue st'
    /\ current_step st' = 1
    /\ (forall target : Step,
          seq_index (branch_program None) 1 = Some target ->
          enabled target = true ->
          exists st'' evs,
            loop_iteration quiet_step quiet_image quiet_text
              (branch_program None) st' = Continue st''
            /\ trace st'' = trace st' ++ OnStepStart 1 :: evs).
Proof.
  apply (condition_branch_target quiet_step quiet_image quiet_text
           (branch_program None) in_progress (emit (OnStepStart 0) in_progress)
           (condition_step "x" (VInt 1) 1 2 None) 1 2 true);
    reflexivity.
Defined.

Lemma sequential_run_visits_in_order_witness :
  exists st' evs,
    run_script quiet_step quiet_image quiet_text 3
      [plain_step "click"; set_variable_step "y" (VInt 2)] 0 fresh = Some (true, st')
    /\ trace st' = trace fresh ++ evs
    /\ started evs = [0; 1]
    /\ running st' = false.
Proof.
  apply (sequential_run_visits_in_order quiet_step quiet_image quiet_text
           [plain_step "click"; set_variable_step "y" (VInt 2)] fresh 3).
  - discriminate.
  - repeat constructor.
  - simpl. lia.
Defined.

End InterpreterProps.

(* ===================================================================== *)
(** ** Properties of the players                                          *)
(* ===================================================================== *)

Module InputPlayerProps.
Import InputPlayer.

Lemma clamp_speed_in_range (s : Num) : in_speed_range (clamp_speed s) = true.
Proof.
  destruct s as [q| | |]; try reflexivity.
  unfold clamp_speed, py_min, speed_hi, speed_lo.
  cbn [num_lt].
  destruct (Qle_bool 10 q) eqn:E1; cbn [negb]; [reflexivity|].
  unfold py_max. cbn [num_lt].
  destruct (Qle_bool q (3602879701896397 # 36028797018963968)) eqn:E2;
    cbn [negb]; [reflexivity|].
  unfold in_speed_range. cbn [num_le].
  apply andb_true_iff. split; apply Qle_bool_iff.
  - destruct (Qlt_le_dec q (3602879701896397 # 36028797018963968)) as [H|H];
      [|exact H].
    apply Qlt_le_weak, Qle_bool_iff in H. congruence.
  - destruct (Qlt_le_dec 10 q) as [H|H]; [|exact H].
    apply Qlt_le_weak, Qle_bool_iff in H. congruence.
Qed.

Lemma call_keeps_range (c : Call) (p : Player) :
  in_speed_range (speed p) = true -> in_speed_range (speed (call c p)) = true.
Proof.
  intros H. destruct c as [evs|e k s|s|]; simpl; auto using clamp_speed_in_range.
  - unfold start_playback. destruct (playing p); [exact H|].
    destruct (events p); [exact H|]. apply clamp_speed_in_range.
  - unfold stop_playback. destruct (playing p); simpl; exact H.
Qed.

Lemma calls_keep_range (cs : list Call) (p : Player) :
  in_speed_range (speed p) = true ->
  in_speed_range (speed (fold_left (fun q c => call c q) cs p)) = true.
Proof.
  revert p. induction cs as [|c cs IH]; intros p H; simpl; [exact H|].
  apply IH, call_keeps_range, H.
Qed.

End InputPlayerProps.

Module EventPlayerProps.
Import EventPlayer.

Section WithClock.
Context {clock : Clock}.

Lemma count_on_stop_app (a b : list Action) :
  count_on_stop (a ++ b) = (count_on_stop a + count_on_stop b)%nat.
Proof.
  induction a as [|x a IH]; simpl; [reflexivity|].
  destruct x; simpl; rewrite IH; reflexivity.
Qed.

Lemma sleeps_app (a b : list Action) : sleeps (a ++ b) = sleeps a ++ sleeps b.
Proof.
  induction a as [|x a IH]; simpl; [reflexivity|].
  destruct x; simpl; rewrite IH; reflexivity.
Qed.

Ltac thread_cases :=
  repeat (simpl in *; rewrite ?count_on_stop_app in *; simpl in *;
          match goal with
          | |- context [match nth_error ?l ?i with _ => _ end] =>
              destruct (nth_error l i) eqn:?
          | |- context [if ?c then _ else _] => destruct c eqn:?
          end);
  simpl in *; rewrite ?count_on_stop_app in *; simpl in *.

Lemma session_inv_start (spd : option Q) (evs : list Event) (s : Q) (p : Player) :
  start_playback spd (loaded evs s) = (true, p) -> session_inv p.
Proof.
  unfold start_playback, loaded. simpl.
  destruct evs as [|e evs]; [discriminate|].
  intros H. inversion H; subst. unfold session_inv.
  destruct spd; simpl; auto.
Qed.

Lemma session_inv_cmd (c : Cmd) (p : Player) :
  session_inv p -> session_inv (run_cmd c p).
Proof.
  intros (Hs & [(Hp & Ha & Hc)|(Hp & Ht & Hc)]).
  - destruct p as [pl pa se evs spd th lg]. simpl in *. subst.
    destruct c; unfold session_inv.
    + destruct th as [[i last|i last|i last|i| |]|]; try discriminate;
        unfold run_cmd, thread_step; thread_cases; rewrite ?Hc; auto 6.
    + unfold run_cmd, pause_playback. thread_cases; auto 6.
    + unfold run_cmd, resume_playback. thread_cases; auto 6.
  - destruct p as [pl pa se evs spd th lg]. simpl in *. subst.
    destruct c; unfold session_inv; simpl; auto 6.
Qed.

Lemma session_inv_cmds (cs : list Cmd) (p : Player) :
  session_inv p -> session_inv (run_cmds cs p).
Proof.
  revert p. unfold run_cmds.
  induction cs as [|c cs IH]; intros p H; simpl; [exact H|].
  apply IH, session_inv_cmd, H.
Qed.

Lemma join_alive (fuel : nat) (p : Player) :
  is_alive p = true -> join (S fuel) p = join fuel (thread_step p).
Proof. intros H. simpl. now rewrite H. Qed.

Lemma join_ended (fuel : nat) (p : Player) :
  is_alive p = false -> join fuel p = Some p.
Proof. intros H. destruct fuel; simpl; now rewrite H. Qed.

(** A move of the thread once the stop flag is set: it comes closer to its
    end without calling [on_stop], or it is the [finally] block. *)
Lemma stopping_move (p : Player) :
  stop_event p = true -> is_alive p = true ->
  stop_event (thread_step p) = true
  /\ ((is_alive (thread_step p) = true
       /\ (moves_left (thread_step p) < moves_left p)%nat
       /\ count_on_stop (log (thread_step p)) = count_on_stop (log p))
      \/ (thread (thread_step p) = Some Done
          /\ playing (thread_step p) = false
          /\ count_on_stop (log (thread_step p)) = S (count_on_stop (log p)))).
Proof.
  intros Hs Ha. destruct p as [pl pa se evs spd th lg]. simpl in *. subst.
  destruct th as [[i last|i last|i last|i| |]|]; try discriminate;
    unfold thread_step, moves_left; thread_cases;
    (split; [reflexivity|]); auto;
    first [ left; repeat split; first [reflexivity | lia]
          | right; repeat split; first [reflexivity | lia] ].
Qed.

Lemma join_after_stop (n : nat) (p : Player) :
  (moves_left p <= n)%nat ->
  stop_event p = true -> is_alive p = true ->
  exists p',
    join n p = Some p'
    /\ thread p' = Some Done /\ playing p' = false
    /\ count_on_stop (log p') = S (count_on_stop (log p)).
Proof.
  revert p. induction n as [|n IH]; intros p Hm Hs Ha.
  - destruct p as [pl pa se evs spd [[i last|i last|i last|i| |]|] lg];
      unfold moves_left, is_alive in *; simpl in *; try discriminate; lia.
  - rewrite join_alive by exact Ha.
    destruct (stopping_move p Hs Ha) as (Hs' & [(Ha' & Hlt & Hc)|(Ht & Hp & Hc)]).
    + destruct (IH (thread_step p)) as (p' & Hj & Ht & Hp & Hc'); auto; [lia|].
      exists p'. rewrite Hj, Hc', Hc. auto.
    + exists (thread_step p). rewrite join_ended; [auto|].
      unfold is_alive. now rewrite Ht.
Qed.

(** C4, evaluated on the code.  Whatever happened since [start_playback]
    accepted the session (moves of the playback thread, pauses, resumes), a
    [stop_playback] that finds [playing] set returns [True] after [on_stop]
    has been called twice: once by the [finally] of [_playback_loop], which
    the join waits for, and once more by [stop_playback] itself. *)
Theorem stop_playback_calls_on_stop_twice
        (spd : option Q) (evs : list Event) (s : Q) (cs : list Cmd) (p0 : Player) :
  start_playback spd (loaded evs s) = (true, p0) ->
  playing (run_cmds cs p0) = true ->
  exists p',
    stop_playback 4 (run_cmds cs p0) = Some (true, p')
    /\ count_on_stop (log p') = 2%nat
    /\ playing p' = false.
Proof.
  intros Hstart Hplay.
  pose proof (session_inv_cmds cs p0 (session_inv_start _ _ _ _ Hstart)) as Hinv.
  destruct Hinv as (Hs & [(Hp & Ha & Hc)|(Hp & _)]); [|congruence].
  set (p := run_cmds cs p0) in *.
  set (p1 := set_playing false (set_stop_event true p)).
  assert (Ha1 : is_alive p1 = true) by exact Ha.
  destruct (join_after_stop 4 p1) as (p' & Hj & Ht & Hpl & Hc'); auto.
  { unfold moves_left. simpl. destruct (thread p) as [[| | | | |]|]; lia. }
  exists (act OnStop (clear_thread p')).
  unfold stop_playback. rewrite Hp. simpl negb. cbv iota.
  fold p1. rewrite Ha1, Hj. simpl.
  rewrite count_on_stop_app, Hc'. simpl.
  change (log p1) with (log p). rewrite Hc. auto.
Qed.

(** Without a stop, a session whose thread has ended has called [on_stop]
    once and has cleared [playing]. *)
Lemma natural_end_calls_on_stop_once
      (spd : option Q) (evs : list Event) (s : Q) (cs : list Cmd) (p0 : Player) :
  start_playback spd (loaded evs s) = (true, p0) ->
  is_alive (run_cmds cs p0) = false ->
  count_on_stop (log (run_cmds cs p0)) = 1%nat /\ playing (run_cmds cs p0) = false.
Proof.
  intros Hstart Hend.
  pose proof (session_inv_cmds cs p0 (session_inv_start _ _ _ _ Hstart)) as Hinv.
  destruct Hinv as (_ & [(_ & Ha & _)|(Hp & _ & Hc)]); [congruence|auto].
Qed.

(** *** The waits of a playback *)

Lemma thread_steps_S (n : nat) (p : Player) :
  thread_steps (S n) p = thread_steps n (thread_step p).
Proof. reflexivity. Qed.

Lemma thread_steps_O (p : Player) : thread_steps 0 p = p.
Proof. reflexivity. Qed.

Local Arguments thread_steps : simpl never.
Local Arguments join : simpl never.

Lemma skipn_cons_nth {A : Type} (l : list A) (i : nat) (x : A) (r : list A) :
  skipn i l = x :: r -> nth_error l i = Some x /\ skipn (S i) l = r.
Proof.
  revert l. induction i as [|i IH]; intros l H.
  - change (skipn 0 l) with l in H. subst l. auto.
  - destruct l as [|y l]; [discriminate|].
    change (skipn (S i) (y :: l)) with (skipn i l) in H.
    apply IH in H as [H1 H2]. auto.
Qed.

Lemma skipn_nil_nth {A : Type} (l : list A) (i : nat) :
  skipn i l = [] -> nth_error l i = None.
Proof.
  revert l. induction i as [|i IH]; intros l H.
  - change (skipn 0 l) with l in H. now subst l.
  - destruct l as [|y l]; [reflexivity|].
    change (skipn (S i) (y :: l)) with (skipn i l) in H. now apply IH.
Qed.

Lemma pass_actions_cons (e : Event) (r : list Event) (i : nat) (last spd : Q) :
  pass_actions (e :: r) i last spd
  = (if is_positive (wait_time (etime e) last spd)
     then [Sleep (wait_time (etime e) last spd)] else [])
    ++ Dispatch i :: pass_actions r (S i) (etime e) spd.
Proof. reflexivity. Qed.

(** The moves of the playback thread, one by one. *)
Lemma step_head (p : Player) (i : nat) (last : Q) (e : Event) :
  thread p = Some (Head i last) -> nth_error (events p) i = Some e ->
  stop_event p = false ->
  thread_step p = goto (PauseLoop i last) p.
Proof. intros Ht Hn Hs. unfold thread_step. now rewrite Ht, Hn, Hs. Qed.

Lemma step_head_end (p : Player) (i : nat) (last : Q) :
  thread p = Some (Head i last) -> nth_error (events p) i = None ->
  thread_step p = goto Finally p.
Proof. intros Ht Hn. unfold thread_step. now rewrite Ht, Hn. Qed.

Lemma step_head_stopped (p : Player) (i : nat) (last : Q) :
  thread p = Some (Head i last) -> stop_event p = true ->
  thread_step p = goto Finally p.
Proof.
  intros Ht Hs. unfold thread_step. rewrite Ht, Hs.
  now destruct (nth_error (events p) i).
Qed.

Lemma step_pause (p : Player) (i : nat) (last : Q) :
  thread p = Some (PauseLoop i last) -> paused p = false ->
  stop_event p = false ->
  thread_step p = goto (Wait i last) p.
Proof. intros Ht Hp Hs. unfold thread_step. now rewrite Ht, Hp, Hs. Qed.

Lemma step_wait (p : Player) (i : nat) (last : Q) (e : Event) :
  thread p = Some (Wait i last) -> nth_error (events p) i = Some e ->
  is_zero (speed p) = false ->
  accepted (wait_time (etime e) last (speed p)) = true ->
  thread_step p =
    goto (Exec i)
         (if is_positive (wait_time (etime e) last (speed p))
          then act (Sleep (wait_time (etime e) last (speed p))) p else p).
Proof.
  intros Ht Hn Hz Hw. unfold thread_step. rewrite Ht, Hn, Hz.
  unfold accepted in Hw.
  destruct (is_positive _); [|reflexivity].
  destruct (sleep_raises _); [discriminate|reflexivity].
Qed.

(** A wait that [time.sleep] refuses ends the loop through its [except]. *)
Lemma step_wait_refused (p : Player) (i : nat) (last : Q) (e : Event) :
  thread p = Some (Wait i last) -> nth_error (events p) i = Some e ->
  is_zero (speed p) = false ->
  accepted (wait_time (etime e) last (speed p)) = false ->
  thread_step p = goto Finally (act OnError p).
Proof.
  intros Ht Hn Hz Hw. unfold thread_step. rewrite Ht, Hn, Hz.
  unfold accepted in Hw.
  destruct (is_positive _); [|discriminate].
  destruct (sleep_raises _); [reflexivity|discriminate].
Qed.

Lemma step_exec (p : Player) (i : nat) (e : Event) :
  thread p = Some (Exec i) -> nth_error (events p) i = Some e ->
  thread_step p = goto (Head (S i) (etime e)) (act (Dispatch i) p).
Proof. intros Ht Hn. unfold thread_step. now rewrite Ht, Hn. Qed.

Lemma step_finally (p : Player) :
  thread p = Some Finally ->
  thread_step p = goto Done (act OnStop (set_playing false p)).
Proof. intros Ht. unfold thread_step. now rewrite Ht. Qed.

(** The playback thread, left alone with waits the clock takes, goes
    through the remaining events and ends: four moves per event and two to
    leave. *)
Lemma natural_run (rest : list Event) :
  forall (i : nat) (last : Q) (p : Player),
    stop_event p = false -> paused p = false -> is_zero (speed p) = false ->
    thread p = Some (Head i last) ->
    skipn i (events p) = rest ->
    waits_accepted (gaps rest last (speed p)) = true ->
    thread (thread_steps (4 * length rest + 2) p) = Some Done
    /\ playing (thread_steps (4 * length rest + 2) p) = false
    /\ log (thread_steps (4 * length rest + 2) p)
       = log p ++ pass_actions rest i last (speed p) ++ [OnStop].
Proof.
  induction rest as [|e rest IH]; intros i last p Hs Hp Hz Ht Hk Hw.
  - apply skipn_nil_nth in Hk.
    change (4 * length (@nil Event) + 2)%nat with 2%nat.
    rewrite !thread_steps_S, thread_steps_O.
    rewrite (step_head_end p i last Ht Hk).
    rewrite step_finally by reflexivity.
    repeat split.
  - apply skipn_cons_nth in Hk as [Hn Hk].
    cbn [gaps waits_accepted forallb] in Hw.
    apply andb_true_iff in Hw as [Hw Hws].
    replace (4 * length (e :: rest) + 2)%nat
      with (S (S (S (S (4 * length rest + 2))))) by (simpl length; lia).
    rewrite !thread_steps_S.
    rewrite (step_head p i last e Ht Hn Hs).
    rewrite (step_pause (goto (PauseLoop i last) p) i last)
      by first [reflexivity | exact Hp | exact Hs].
    rewrite (step_wait (goto (Wait i last) (goto (PauseLoop i last) p)) i last e)
      by first [reflexivity | exact Hn | exact Hz | exact Hw].
    rewrite pass_actions_cons.
    change (speed (goto (Wait i last) (goto (PauseLoop i last) p))) with (speed p).
    destruct (is_positive (wait_time (etime e) last (speed p)));
      match goal with |- context [thread_step (goto (Exec i) ?q0)] =>
        rewrite (step_exec (goto (Exec i) q0) i e)
          by first [reflexivity | exact Hn]
      end;
      match goal with |- context [thread_steps _ ?q] =>
        destruct (IH (S i) (etime e) q Hs Hp Hz eq_refl Hk Hws) as (H1 & H2 & H3)
      end;
      (split; [exact H1|]); (split; [exact H2|]);
      rewrite H3; cbn [log goto act speed]; rewrite <- !app_assoc; reflexivity.
Qed.

Lemma sleeps_pass_actions (evs : list Event) (i : nat) (last spd : Q) :
  sleeps (pass_actions evs i last spd) = List.filter is_positive (gaps evs last spd).
Proof.
  revert i last. induction evs as [|e r IH]; intros i last; simpl; [reflexivity|].
  destruct (is_positive (wait_time (etime e) last spd)); simpl; now rewrite IH.
Qed.

(** C3, as the code has it.  A playback at a speed other than zero, neither
    paused nor stopped, all of whose positive waits [time.sleep] takes, ends
    after sleeping once per event for the whole wait
    [(t[i] - t[i-1]) / speed] when it is positive and not at all otherwise,
    with 0 before the first event.  The stop flag is not read during a wait:
    when [stop_playback] sets it after the thread's last check before a wait
    that [time.sleep] takes, the thread still sleeps the whole wait and
    dispatches the event; when it sets it during the sleep, the thread still
    dispatches the event. *)
Theorem playback_waits_in_one_sleep :
  (forall (evs : list Event) (s0 s : Q) (p0 : Player),
      is_zero s = false ->
      start_playback (Some s) (loaded evs s0) = (true, p0) ->
      waits_accepted (gaps evs 0 s) = true ->
      thread (thread_steps (4 * length evs + 2) p0) = Some Done
      /\ sleeps (log (thread_steps (4 * length evs + 2) p0))
         = List.filter is_positive (gaps evs 0 s))
  /\ (forall (p : Player) (i : nat) (last : Q) (e : Event),
        playing p = true ->
        thread p = Some (Wait i last) ->
        nth_error (events p) i = Some e ->
        is_zero (speed p) = false ->
        is_positive (wait_time (etime e) last (speed p)) = true ->
        sleep_raises (wait_time (etime e) last (speed p)) = false ->
        exists p' rest,
          stop_playback 4 p = Some (true, p')
          /\ log p' = log p ++ Sleep (wait_time (etime e) last (speed p))
                             :: Dispatch i :: rest)
  /\ (forall (p : Player) (i : nat) (e : Event),
        playing p = true ->
        thread p = Some (Exec i) ->
        nth_error (events p) i = Some e ->
        exists p' rest,
          stop_playback 4 p = Some (true, p')
          /\ log p' = log p ++ Dispatch i :: rest).
Proof.
  split; [|split].
  - intros evs s0 s p0 Hz Hstart Hws.
    unfold start_playback, loaded in Hstart. simpl in Hstart.
    destruct evs as [|e evs]; [discriminate|].
    inversion Hstart; subst p0; clear Hstart.
    match goal with |- context [thread_steps _ ?q] =>
      destruct (natural_run (e :: evs) 0%nat 0 q) as (H1 & H2 & H3); auto end.
    split; [exact H1|].
    rewrite H3. simpl log. rewrite !sleeps_app, sleeps_pass_actions. simpl.
    now rewrite app_nil_r.
  - intros p i last e Hp Ht Hn Hz Hw Hr.
    unfold stop_playback. rewrite Hp. cbn [negb].
    set (p1 := set_playing false (set_stop_event true p)).
    assert (Ht1 : thread p1 = Some (Wait i last)) by exact Ht.
    assert (Ha : is_alive p1 = true) by (unfold is_alive; now rewrite Ht1).
    assert (Hacc : accepted (wait_time (etime e) last (speed p1)) = true)
      by (unfold accepted; change (speed p1) with (speed p); now rewrite Hr, orb_true_r).
    rewrite Ha.
    rewrite join_alive by exact Ha.
    rewrite (step_wait p1 i last e Ht1 Hn Hz Hacc).
    change (speed p1) with (speed p). rewrite Hw.
    rewrite join_alive by reflexivity.
    rewrite (step_exec _ i e) by first [reflexivity | exact Hn].
    rewrite join_alive by reflexivity.
    rewrite (step_head_stopped _ (S i) (etime e)) by reflexivity.
    rewrite join_alive by reflexivity.
    rewrite step_finally by reflexivity.
    rewrite join_ended by reflexivity.
    cbn [option_map]. eexists. eexists. split; [reflexivity|].
    cbn [log act clear_thread goto set_playing].
    change (log p1) with (log p). rewrite <- !app_assoc. reflexivity.
  - intros p i e Hp Ht Hn.
    unfold stop_playback. rewrite Hp. cbn [negb].
    set (p1 := set_playing false (set_stop_event true p)).
    assert (Ht1 : thread p1 = Some (Exec i)) by exact Ht.
    assert (Ha : is_alive p1 = true) by (unfold is_alive; now rewrite Ht1).
    rewrite Ha.
    rewrite join_alive by exact Ha.
    rewrite (step_exec p1 i e Ht1 Hn).
    rewrite join_alive by reflexivity.
    rewrite (step_head_stopped _ (S i) (etime e)) by reflexivity.
    rewrite join_alive by reflexivity.
    rewrite step_finally by reflexivity.
    rewrite join_ended by reflexivity.
    cbn [option_map]. eexists. eexists. split; [reflexivity|].
    cbn [log act clear_thread goto set_playing].
    change (log p1) with (log p). rewrite <- !app_assoc. reflexivity.
Qed.

End WithClock.

Import Samples.

(** C3 as the claim states it fails: the one-second gap of [two_events] at
    speed 1 is waited in a single sleep of one second, ten times the poll
    slice. *)
Lemma one_second_gap_is_one_sleep :
  thread (thread_steps (clock:=int64_clock) 10
            (snd (start_playback (Some 1%Q) (loaded two_events 1))))
    = Some Done
  /\ sleeps (log (thread_steps (clock:=int64_clock) 10
                    (snd (start_playback (Some 1%Q) (loaded two_events 1)))))
     = [wait_time 1 0 1]
  /\ (poll_interval < wait_time 1 0 1)%Q.
Proof. repeat split; vm_compute; reflexivity. Qed.

Lemma playback_waits_in_one_sleep_witness :
  (thread (thread_steps (clock:=int64_clock) (4 * length two_events + 2)
             (snd (start_playback (Some 1%Q) (loaded two_events 1)))) = Some Done
   /\ sleeps (log (thread_steps (clock:=int64_clock) (4 * length two_events + 2)
                     (snd (start_playback (Some 1%Q) (loaded two_events 1)))))
      = List.filter is_positive (gaps two_events 0 1))
  /\ (exists p' rest,
        stop_playback (clock:=int64_clock) 4 waiting = Some (true, p')
        /\ log p' = log waiting
                      ++ Sleep (wait_time 1 0 1) :: Dispatch 1 :: rest)
  /\ (exists p' rest,
        stop_playback (clock:=int64_clock) 4 sleeping = Some (true, p')
        /\ log p' = log sleeping ++ Dispatch 1 :: rest).
Proof.
  destruct (playback_waits_in_one_sleep (clock:=int64_clock))
    as (Hrun & Hstop & Hmid).
  split; [|split].
  - apply (Hrun two_events 1%Q 1%Q); reflexivity.
  - apply (Hstop waiting 1%nat 0%Q (mkEvent 1 "key_release")); reflexivity.
  - apply (Hmid sleeping 1%nat (mkEvent 1 "key_release")); reflexivity.
Defined.

Lemma stop_playback_calls_on_stop_twice_witness :
  exists p',
    stop_playback (clock:=int64_clock) 4
      (run_cmds (clock:=int64_clock) [Tick; Tick; Tick]
         (snd (start_playback (Some 1%Q) (loaded two_events 1))))
    = Some (true, p')
    /\ count_on_stop (log p') = 2%nat
    /\ playing p' = false.
Proof.
  apply (stop_playback_calls_on_stop_twice (clock:=int64_clock)
           (Some 1%Q) two_events 1 [Tick; Tick; Tick]);
    reflexivity.
Defined.

End EventPlayerProps.

(* ===================================================================== *)
(** ** Sessions: speed range and busy starts                              *)
(* ===================================================================== *)

Module SessionProps.
Import PyValue Samples.

(** C7, as the code has it.  The speed of an [InputPlayer] lies in
    [[0.1, 10.0]] after any sequence of calls on a new object, after every
    [set_speed] and after every accepted [start_playback], whatever number
    is passed (an infinity and NaN included).  [EventPlayer.start_playback]
    stores the speed it is given unchanged. *)
Theorem speed_clamped_by_input_player_only :
  (forall cs : list InputPlayer.Call,
      InputPlayer.in_speed_range
        (InputPlayer.speed
           (fold_left (fun q c => InputPlayer.call c q) cs InputPlayer.init)) = true)
  /\ (forall (s : InputPlayer.Num) (p : InputPlayer.Player),
        InputPlayer.in_speed_range (InputPlayer.speed (InputPlayer.set_speed s p))
        = true)
  /\ (forall (e k : option nat) (s : InputPlayer.Num) (p p' : InputPlayer.Player),
        InputPlayer.start_playback e k s p = (true, p') ->
        InputPlayer.in_speed_range (InputPlayer.speed p') = true)
  /\ (forall (s : Q) (p p' : EventPlayer.Player),
        EventPlayer.start_playback (Some s) p = (true, p') ->
        EventPlayer.speed p' = s).
Proof.
  split; [|split; [|split]].
  - intros cs. apply InputPlayerProps.calls_keep_range. reflexivity.
  - intros s p. apply InputPlayerProps.clamp_speed_in_range.
  - intros e k s p p'. unfold InputPlayer.start_playback.
    destruct (InputPlayer.playing p); [discriminate|].
    destruct (InputPlayer.events p); [discriminate|].
    intros H. inversion H. apply InputPlayerProps.clamp_speed_in_range.
  - intros s p p'. unfold EventPlayer.start_playback.
    destruct (EventPlayer.playing p); [discriminate|].
    destruct (EventPlayer.events p); [discriminate|].
    intros H. inversion H. reflexivity.
Qed.

Lemma speed_clamped_by_input_player_only_witness :
  InputPlayer.in_speed_range
    (InputPlayer.speed
       (snd (InputPlayer.start_playback None None (InputPlayer.Fin 100)
               (InputPlayer.load_events [0%Q; 1%Q] InputPlayer.init)))) = true
  /\ EventPlayer.speed
       (snd (EventPlayer.start_playback (Some 100%Q) (EventPlayer.loaded two_events 1)))
     = 100%Q.
Proof.
  destruct speed_clamped_by_input_player_only as (_ & _ & Hin & Hev).
  split.
  - apply (Hin None None (InputPlayer.Fin 100)
               (InputPlayer.load_events [0%Q; 1%Q] InputPlayer.init)).
    reflexivity.
  - apply (Hev 100%Q (EventPlayer.loaded two_events 1)). reflexivity.
Defined.

(** C7 as the claim states it fails on [EventPlayer]: a playback started at
    speed 100 waits with speed 100, outside [[0.1, 10.0]]. *)
Lemma event_player_speed_not_clamped :
  fst (EventPlayer.start_playback (Some 100%Q) (EventPlayer.loaded two_events 1)) = true
  /\ InputPlayer.in_speed_range
       (InputPlayer.Fin
          (EventPlayer.speed
             (snd (EventPlayer.start_playback (Some 100%Q)
                     (EventPlayer.loaded two_events 1))))) = false
  /\ sleeps_at_speed_100 = [EventPlayer.wait_time 1 0 100].
Proof. repeat split; vm_compute; reflexivity. Qed.

(** C5, as the code has it.  [start_playback] of either player, called while
    [playing] is set, returns [False] and leaves the object as it is.
    [run_script] has no such check: on a non-empty script it starts over from
    [from_step] with an empty variable bag and no loop frame, whatever the
    object held. *)
Theorem busy_start_rejected_by_players :
  (forall (spd : option Q) (p : EventPlayer.Player),
      EventPlayer.playing p = true ->
      EventPlayer.start_playback spd p = (false, p))
  /\ (forall (e k : option nat) (s : InputPlayer.Num) (p : InputPlayer.Player),
        InputPlayer.playing p = true ->
        InputPlayer.start_playback e k s p = (false, p))
  /\ (forall world_step world_image world_text
             (fuel : nat) (steps : list AutomationScript.Step) (from_step : Z)
             (st : AutomationScript.State),
        steps <> [] ->
        AutomationScript.run_script world_step world_image world_text
          fuel steps from_step st
        = AutomationScript.run_script world_step world_image world_text
            fuel steps from_step
            (AutomationScript.mkState false false 0 ∅ ∅
               (AutomationScript.clock st) (AutomationScript.trace st))).
Proof.
  split; [|split].
  - intros spd p H. unfold EventPlayer.start_playback. now rewrite H.
  - intros e k s p H. unfold InputPlayer.start_playback. now rewrite H.
  - intros ws wi wt fuel steps from_step st Hne.
    destruct steps as [|s0 rest]; [congruence|reflexivity].
Qed.

Lemma busy_start_rejected_by_players_witness :
  EventPlayer.start_playback (Some 2%Q) waiting = (false, waiting)
  /\ InputPlayer.start_playback None None (InputPlayer.Fin 3) replaying
     = (false, replaying)
  /\ AutomationScript.run_script quiet_step quiet_image quiet_text 2
       [set_variable_step "y" (VInt 2)] 0 in_progress
     = AutomationScript.run_script quiet_step quiet_image quiet_text 2
         [set_variable_step "y" (VInt 2)] 0
         (AutomationScript.mkState false false 0 ∅ ∅
            (AutomationScript.clock in_progress)
            (AutomationScript.trace in_progress)).
Proof.
  destruct busy_start_rejected_by_players as (Hev & Hin & Hrun).
  split; [|split].
  - apply Hev. reflexivity.
  - apply Hin. reflexivity.
  - apply Hrun. discriminate.
Defined.

(** C5 as the claim states it fails on the interpreter: [run_script] called
    on an object whose run is in progress ([running] set, [x = 1] in the bag)
    is not rejected; it returns [True] and the bag of the run in progress is
    gone. *)
Lemma run_script_restarts_active_run :
  AutomationScript.running in_progress = true
  /\ AutomationScript.variables in_progress !! "x" = Some (VInt 1)
  /\ exists st',
       AutomationScript.run_script quiet_step quiet_image quiet_text 2
         [set_variable_step "y" (VInt 2)] 0 in_progress = Some (true, st')
       /\ AutomationScript.variables st' !! "x" = None
       /\ st' <> in_progress.
Proof.
  split; [reflexivity|]. split; [vm_compute; reflexivity|].
  eexists. split; [vm_compute; reflexivity|]. split; [vm_compute; reflexivity|].
  intros H. apply (f_equal AutomationScript.running) in H. discriminate H.
Qed.

End SessionProps.

(* ===================================================================== *)
(** ** More on the template resolver                                      *)
(* ===================================================================== *)

Module ResolverMore.
Import PyValue AutomationScript ScriptControl.

Lemma is_char_eq (c d : ascii) : is_char c d = true -> c = d.
Proof. apply Ascii.eqb_eq. Qed.

Lemma app_cons (c : ascii) (a b : string) :
  String c a +:+ b = String c (a +:+ b).
Proof. reflexivity. Qed.

Lemma app_nil_l (a : string) : EmptyString +:+ a = a.
Proof. reflexivity. Qed.

Lemma str_app_assoc (a b c : string) : (a +:+ b) +:+ c = a +:+ (b +:+ c).
Proof.
  induction a as [|x a IH]; [reflexivity|].
  rewrite !app_cons, IH. reflexivity.
Qed.

Lemma str_app_nil_r (a : string) : a +:+ EmptyString = a.
Proof.
  induction a as [|x a IH]; [reflexivity|]. rewrite app_cons, IH. reflexivity.
Qed.

Lemma str_length_app (a b : string) :
  String.length (a +:+ b) = (String.length a + String.length b)%nat.
Proof.
  induction a as [|x a IH]; [reflexivity|].
  rewrite app_cons. simpl. now rewrite IH.
Qed.

Lemma rev_app_spec (s1 s2 : string) :
  String.rev_app s1 s2 = String.rev s1 +:+ s2.
Proof.
  unfold String.rev. revert s2.
  induction s1 as [|c s1 IH]; intros s2; simpl; [reflexivity|].
  rewrite IH, (IH (String c EmptyString)).
  rewrite str_app_assoc. reflexivity.
Qed.

Lemma rev_cons (c : ascii) (s : string) :
  String.rev (String c s) = String.rev s +:+ String c EmptyString.
Proof. unfold String.rev at 1. simpl. apply rev_app_spec. Qed.

Lemma rev_append (a b : string) :
  String.rev (a +:+ b) = String.rev b +:+ String.rev a.
Proof.
  induction a as [|c a IH]; simpl.
  - rewrite app_nil_l. now rewrite str_app_nil_r.
  - rewrite app_cons, !rev_cons, IH, str_app_assoc. reflexivity.
Qed.

Lemma rev_involutive (s : string) : String.rev (String.rev s) = s.
Proof.
  induction s as [|c s IH]; [reflexivity|].
  rewrite rev_cons, rev_append, IH. reflexivity.
Qed.

(** The scan loses nothing: the pieces of a string, put back together with
    each placeholder as its own text, are the string. *)
Lemma re_matches_text_bounded (n : nat) :
  forall s : string, (String.length s <= n)%nat -> pieces_text (re_matches s) = s.
Proof.
  induction n as [|n IH]; intros s Hn.
  - destruct s; [reflexivity|simpl in Hn; lia].
  - destruct s as [|c rest]; [reflexivity|].
    assert (Hskip : pieces_text (Lit c :: re_matches rest) = String c rest).
    { simpl. rewrite IH; [reflexivity|simpl in Hn; lia]. }
    simpl re_matches.
    destruct (is_char c "$") eqn:Ec; [|exact Hskip].
    destruct rest as [|b body]; [exact Hskip|].
    destruct (is_char b "{") eqn:Eb; [|exact Hskip].
    apply is_char_eq in Ec, Eb. subst c b.
    assert (Hin : forall (t acc : string),
               String.rev acc +:+ t = body ->
               pieces_text
                 ((fix group (t : string) (acc : string) : list Piece :=
                     match t with
                     | EmptyString => Lit "$" :: re_matches (String "{" body)
                     | String d t' =>
                         if is_char d "}" then
                           match acc with
                           | EmptyString => Lit "$" :: re_matches (String "{" body)
                           | _ => Placeholder (String.rev acc) :: re_matches t'
                           end
                         else group t' (String d acc)
                     end) t acc)
               = String "$" (String "{" body)).
    { induction t as [|d t' IHt]; intros acc Hacc; [exact Hskip|].
      destruct (is_char d "}") eqn:Ed.
      - apply is_char_eq in Ed. subst d.
        destruct acc as [|a acc']; [exact Hskip|].
        cbn [pieces_text piece_text].
        rewrite IH.
        + unfold group0. rewrite <- Hacc.
          rewrite !app_cons, app_nil_l, !str_app_assoc. reflexivity.
        + assert (Hl : String.length body
                       = (String.length (String.rev (String a acc'))
                          + String.length (String "}" t'))%nat)
            by (rewrite <- Hacc; apply str_length_app).
          simpl in Hn, Hl. lia.
      - apply IHt. rewrite rev_cons, str_app_assoc. exact Hacc. }
    apply (Hin body EmptyString). reflexivity.
Qed.

Lemma re_matches_text (s : string) : pieces_text (re_matches s) = s.
Proof. apply (re_matches_text_bounded (String.length s)). lia. Qed.

Lemma replace_var_unknown (vars : gmap string Value) (g : string) :
  vars !! base_name g = None -> replace_var vars g = Ok (group0 g).
Proof.
  unfold base_name, replace_var.
  destruct (re_split g) as [|n ps]; [reflexivity|].
  intros H. now rewrite H.
Qed.

Lemma sub_pieces_unknown (vars : gmap string Value) (ps : list Piece) :
  (forall g, In g (placeholders ps) -> vars !! base_name g = None) ->
  sub_pieces vars ps = Ok (pieces_text ps).
Proof.
  induction ps as [|p ps IH]; intros H; [reflexivity|].
  destruct p as [c|g]; simpl.
  - rewrite IH; [reflexivity|]. intros g Hg. apply H. exact Hg.
  - rewrite replace_var_unknown by (apply H; left; reflexivity).
    simpl. rewrite IH; [reflexivity|]. intros g' Hg. apply H. right. exact Hg.
Qed.

(** X1. A string none of whose placeholders names a variable of the bag
    is returned as it is, whatever else it holds (lone ["$"], ["${}"], an
    unclosed ["${"]); in particular every string is, in an empty bag. *)
Theorem resolve_without_known_names (vars : gmap string Value) (s : string) :
  (forall g, In g (placeholders (re_matches s)) -> vars !! base_name g = None) ->
  _resolve_value vars (VStr s) = Ok (VStr s).
Proof.
  intros H. simpl. rewrite sub_pieces_unknown by exact H.
  simpl. now rewrite re_matches_text.
Qed.

Lemma resolve_without_known_names_witness :
  _resolve_value {[ "a" := VInt 1 ]} (VStr "x ${b.c} $ ${} ${d[0]} ${e")
  = Ok (VStr "x ${b.c} $ ${} ${d[0]} ${e").
Proof.
  apply resolve_without_known_names.
  vm_compute. intros g [<-|[<-|[]]]; reflexivity.
Defined.

(** *** A variable written and read back *)

Lemma re_matches_open (body : string) :
  re_matches (String "$" (String "{" body))
  = (fix group (t : string) (acc : string) : list Piece :=
       match t with
       | EmptyString => Lit "$" :: re_matches (String "{" body)
       | String d t' =>
           if is_char d "}" then
             match acc with
             | EmptyString => Lit "$" :: re_matches (String "{" body)
             | _ => Placeholder (String.rev acc) :: re_matches t'
             end
           else group t' (String d acc)
       end) body EmptyString.
Proof. reflexivity. Qed.

Lemma group_plain (skip : list Piece) :
  forall t acc : string,
    plain_chars t = true ->
    acc <> EmptyString \/ t <> EmptyString ->
    (fix group (t : string) (acc : string) : list Piece :=
       match t with
       | EmptyString => skip
       | String d t' =>
           if is_char d "}" then
             match acc with
             | EmptyString => skip
             | _ => Placeholder (String.rev acc) :: re_matches t'
             end
           else group t' (String d acc)
       end) (t +:+ "}") acc
    = [Placeholder (String.rev acc +:+ t)].
Proof.
  induction t as [|d t' IH]; intros acc Hp Hne.
  - rewrite app_nil_l, str_app_nil_r.
    destruct acc as [|a acc']; [destruct Hne; congruence|reflexivity].
  - rewrite app_cons. simpl in Hp. apply andb_true_iff in Hp as [Hd Hp].
    apply negb_true_iff, orb_false_iff in Hd as [_ Hd].
    rewrite Hd. rewrite IH; [|exact Hp|left; discriminate].
    rewrite rev_cons, str_app_assoc. reflexivity.
Qed.

Lemma re_matches_simple (n : string) :
  simple_name n = true ->
  re_matches ("${" +:+ n +:+ "}") = [Placeholder n].
Proof.
  intros H.
  change ("${" +:+ n +:+ "}") with (String "$" (String "{" (n +:+ "}"))).
  rewrite re_matches_open.
  rewrite group_plain.
  - reflexivity.
  - destruct n; [discriminate|exact H].
  - right. destruct n; [discriminate|discriminate].
Qed.

Lemma re_split_plain (s : string) : plain_chars s = true -> re_split s = [s].
Proof.
  induction s as [|c r IH]; intros H; [reflexivity|].
  simpl in H. apply andb_true_iff in H as [Hc Hr].
  apply negb_true_iff, orb_false_iff in Hc as [Hc _].
  simpl. rewrite Hc, (IH Hr). reflexivity.
Qed.

Lemma resolve_simple_placeholder (vars : gmap string Value) (n : string) (v : Value) :
  simple_name n = true -> vars !! n = Some v ->
  _resolve_value vars (VStr ("${" +:+ n +:+ "}")) = Ok (VStr (py_str v)).
Proof.
  intros Hn Hv. unfold _resolve_value. rewrite (re_matches_simple n Hn).
  simpl. unfold replace_var.
  rewrite re_split_plain by (destruct n; [discriminate|exact Hn]).
  rewrite Hv. simpl. now rewrite str_app_nil_r.
Qed.

(** X2. A [set_variable] step whose name is a plain one (not empty, without
    ['.'], ['['] and ['}']) and whose value resolves to [w] succeeds, and the
    template ["${name}"] then resolves to [str(w)]. *)
Theorem set_variable_then_resolve
        (st : State) (step : Step) (n : string) (w : Value) :
  name step = Some n ->
  simple_name n = true ->
  _resolve_value (variables st) (default VNone (value step)) = Ok w ->
  fst (_execute_set_variable st step) = true
  /\ _resolve_value (variables (snd (_execute_set_variable st step)))
       (VStr ("${" +:+ n +:+ "}"))
     = Ok (VStr (py_str w)).
Proof.
  intros Hname Hn Hw. unfold _execute_set_variable. rewrite Hname.
  assert (Hne : str_is (default "" (Some n)) "" = false).
  { destruct n; [discriminate|reflexivity]. }
  rewrite Hne, Hw. split; [reflexivity|].
  apply resolve_simple_placeholder; [exact Hn|].
  simpl. apply lookup_insert_eq.
Qed.

Lemma set_variable_then_resolve_witness :
  fst (_execute_set_variable Samples.fresh
         (Samples.set_variable_step "retry_count" (VInt 3))) = true
  /\ _resolve_value
       (variables (snd (_execute_set_variable Samples.fresh
                          (Samples.set_variable_step "retry_count" (VInt 3)))))
       (VStr ("${" +:+ "retry_count" +:+ "}"))
     = Ok (VStr (py_str (VInt 3))).
Proof.
  apply (set_variable_then_resolve Samples.fresh
           (Samples.set_variable_step "retry_count" (VInt 3)) "retry_count" (VInt 3));
    reflexivity.
Defined.

End ResolverMore.

(* ===================================================================== *)
(** ** More on the run loop                                               *)
(* ===================================================================== *)

Module InterpreterMore.
Import PyValue AutomationScript ScriptControl.

Section WithWorld.

Variable world_step : nat -> Step -> gmap string Value -> bool * gmap string Value.
Variable world_image : nat -> Step -> result bool.
Variable world_text : nat -> Step -> gmap string Value -> result bool.

Local Notation "'exec_step'" := (_execute_step world_step world_image world_text).
Local Notation "'iteration'" := (loop_iteration world_step world_image world_text).
Local Notation "'loop'" := (run_loop world_step world_image world_text).
Local Notation "'passes'" := (loop_state world_step world_image world_text).
Local Notation "'run'" := (run_script world_step world_image world_text).

Lemma count_script_end_app (a b : list Callback) :
  count_script_end (a ++ b) = (count_script_end a + count_script_end b)%nat.
Proof.
  induction a as [|c a IH]; simpl; [reflexivity|].
  destruct c; simpl; now rewrite IH.
Qed.

(** What one pass adds to the trace: nothing, or the start and the end of the
    enabled step at the current index. *)
Lemma pass_trace (steps : list Step) (st : State) :
  exists evs,
    trace (state_of (iteration steps st)) = trace st ++ evs
    /\ Forall (enabled_at steps) (started evs)
    /\ count_script_end evs = 0%nat.
Proof.
  unfold loop_iteration.
  destruct (negb (running st && (current_step st <? Z.of_nat (length steps))));
    [exists []; simpl; now rewrite app_nil_r|].
  destruct (paused st); [exists []; simpl; now rewrite app_nil_r|].
  destruct (seq_index steps (current_step st)) as [step|] eqn:Hs;
    [|exists []; simpl; now rewrite app_nil_r].
  destruct (enabled step) eqn:He; simpl;
    [|exists []; simpl; now rewrite app_nil_r].
  pose proof (InterpreterProps.execute_step_frame world_step world_image world_text
                (emit (OnStepStart (current_step st)) st) step) as F.
  destruct (exec_step (emit (OnStepStart (current_step st)) st) step)
    as [ok st2] eqn:Hx.
  destruct F as (_ & _ & Ftr). simpl in Ftr.
  exists [OnStepStart (current_step st); OnStepEnd (current_step st2) ok].
  split; [|split].
  - destruct (if ok then next_step step else on_failure step);
      simpl; rewrite Ftr, <- app_assoc; reflexivity.
  - simpl. constructor; [|constructor]. exists step. auto.
  - reflexivity.
Qed.

Lemma passes_trace (steps : list Step) (n : nat) :
  forall st : State,
  exists evs,
    trace (passes n steps st) = trace st ++ evs
    /\ Forall (enabled_at steps) (started evs)
    /\ count_script_end evs = 0%nat.
Proof.
  induction n as [|n IH]; intros st.
  - exists []. simpl. now rewrite app_nil_r.
  - destruct (pass_trace steps st) as (e1 & H1 & F1 & C1).
    simpl. destruct (iteration steps st) as [st'|st'|e st'] eqn:Hit;
      simpl in H1; try solve [exists e1; auto].
    destruct (IH st') as (e2 & H2 & F2 & C2).
    exists (e1 ++ e2). split; [|split].
    + rewrite H2, H1, <- app_assoc. reflexivity.
    + rewrite InterpreterProps.started_app. apply Forall_app. auto.
    + rewrite count_script_end_app, C1, C2. reflexivity.
Qed.

(** X3. However long a run goes on and whatever its steps do, every index
    handed to [on_step_start] holds an enabled step of the program: a step
    with [enabled = False] is never executed, also when a jump lands on it. *)
Theorem disabled_steps_never_start (steps : list Step) (n : nat) (st : State) :
  exists evs,
    trace (passes n steps st) = trace st ++ evs
    /\ Forall (enabled_at steps) (started evs).
Proof.
  destruct (passes_trace steps n st) as (evs & H & F & _). eauto.
Qed.

Lemma run_loop_trace (steps : list Step) (fuel : nat) :
  forall (st : State) (it : Iteration),
    loop fuel steps st = Some it ->
    (exists evs,
        trace (state_of it) = trace st ++ evs
        /\ count_script_end evs = 0%nat)
    /\ match it with
       | LoopExit _ => True
       | Continue _ => False
       | Fault _ st' => current_step st' < - Z.of_nat (length steps)
       end.
Proof.
  induction fuel as [|fuel IH]; intros st it H; [discriminate|].
  simpl in H.
  destruct (pass_trace steps st) as (e1 & H1 & _ & C1).
  destruct (iteration steps st) as [st'|st'|e st'] eqn:Hit; simpl in H1.
  - inversion H; subst it. split; [eauto|exact I].
  - destruct (IH st' it H) as ((e2 & H2 & C2) & Hk). split; [|exact Hk].
    exists (e1 ++ e2). rewrite H2, H1, <- app_assoc, count_script_end_app, C1, C2.
    auto.
  - inversion H; subst it. split; [eauto|].
    unfold loop_iteration in Hit.
    destruct (negb (running st && (current_step st <? Z.of_nat (length steps))))
      eqn:Hc; [discriminate|].
    destruct (paused st); [discriminate|].
    destruct (seq_index steps (current_step st)) as [step|] eqn:Hs.
    + destruct (negb (enabled step)); [discriminate|].
      destruct (exec_step _ step) as [ok st2].
      destruct (if ok then next_step step else on_failure step); discriminate.
    + inversion Hit; subst st'.
      apply negb_false_iff, andb_true_iff in Hc as [_ Hlt].
      unfold seq_index in Hs.
      destruct ((0 <=? current_step st) && (current_step st <? Z.of_nat (length steps)))
        eqn:E1.
      { apply andb_true_iff in E1 as [E0 E1].
        apply nth_error_None in Hs. lia. }
      destruct ((- Z.of_nat (length steps) <=? current_step st) && (current_step st <? 0))
        eqn:E2.
      { apply andb_true_iff in E2 as [E2 E3].
        apply nth_error_None in Hs. lia. }
      apply andb_false_iff in E1, E2. lia.
Qed.

Lemma run_script_unfold (fuel : nat) (steps : list Step) (from_step : Z) (st : State) :
  steps <> [] ->
  run fuel steps from_step st
  = option_map run_script_end (loop fuel steps (run_script_init from_step st)).
Proof.
  intros Hne. unfold run_script. destruct steps as [|s0 r]; [congruence|].
  destruct (loop fuel (s0 :: r) (run_script_init from_step st)) as [[s|s|e s]|];
    reflexivity.
Qed.

(** X4. On a non-empty script all of whose steps carry a type and have
    integers as jump targets (the steps a [Step] stands for), when
    [run_script] returns, the completion callback was reached once, last, and
    with the returned flag; [running] is false; and the flag is [False] only
    when the step index had fallen below [-len(steps)]: no failing step makes
    such a run fail. *)
Theorem run_script_completion
        (fuel : nat) (steps : list Step) (from_step : Z) (st st' : State) (b : bool) :
  steps <> [] ->
  run fuel steps from_step st = Some (b, st') ->
  (exists evs,
      trace st' = trace st ++ evs ++ [OnScriptEnd b]
      /\ count_script_end evs = 0%nat)
  /\ running st' = false
  /\ (b = false -> current_step st' < - Z.of_nat (length steps)).
Proof.
  intros Hne H. rewrite run_script_unfold in H by exact Hne.
  destruct (loop fuel steps (run_script_init from_step st)) as [it|] eqn:Hl;
    [|discriminate].
  destruct (run_loop_trace steps fuel _ it Hl) as ((evs & Htr & Hc) & Hk).
  simpl in H. inversion H as [Hb]; clear H.
  destruct it as [s|s|e s]; simpl in *; inversion Hb; subst; simpl.
  - split; [|split; [reflexivity|discriminate]].
    exists evs. rewrite Htr, <- app_assoc. auto.
  - contradiction.
  - split; [|split; [reflexivity|intros _; exact Hk]].
    exists evs. rewrite Htr, <- app_assoc. auto.
Qed.

(** *** Where a run starts *)

Lemma seq_index_negative {A : Type} (xs : list A) (k : nat) :
  (1 <= k <= length xs)%nat ->
  seq_index xs (- Z.of_nat k) = nth_error xs (length xs - k).
Proof.
  intros H. unfold seq_index.
  replace ((0 <=? - Z.of_nat k) && (- Z.of_nat k <? Z.of_nat (length xs)))
    with false by (symmetry; apply andb_false_iff; left; lia).
  replace ((- Z.of_nat (length xs) <=? - Z.of_nat k) && (- Z.of_nat k <? 0))
    with true by (symmetry; apply andb_true_iff; split; lia).
  f_equal. lia.
Qed.

Lemma map_seq_succ {A : Type} (f : nat -> A) (n a : nat) :
  List.map f (seq (S a) n) = List.map (fun j => f (S j)) (seq a n).
Proof.
  revert a. induction n as [|n IH]; intros a; [reflexivity|].
  simpl. now rewrite IH.
Qed.

Lemma negative_start_loop (steps : list Step) :
  Forall sequential steps ->
  forall (k : nat) (st : State),
    (k <= length steps)%nat ->
    running st = true -> paused st = false ->
    current_step st = - Z.of_nat k ->
    exists st' evs,
      loop (S (k + length steps)) steps st = Some (LoopExit st')
      /\ trace st' = trace st ++ evs
      /\ started evs
         = List.map (fun j => Z.of_nat j - Z.of_nat k) (seq 0 (k + length steps)).
Proof.
  intros Hall. induction k as [|k IH]; intros st Hk Hr Hp Hcs.
  - destruct (InterpreterProps.sequential_loop world_step world_image world_text
                steps Hall (length steps) 0%nat st) as (st' & evs & Hl & Htr & Hst);
      auto.
    exists st', evs. split; [exact Hl|]. split; [exact Htr|].
    rewrite Hst. apply map_ext. intros j. lia.
  - assert (Hs : exists step, seq_index steps (current_step st) = Some step
                              /\ sequential step).
    { rewrite Hcs, seq_index_negative by lia.
      destruct (nth_error steps (length steps - S k)) as [step|] eqn:En;
        [|apply nth_error_None in En; lia].
      exists step. split; [reflexivity|].
      rewrite List.Forall_forall in Hall. apply Hall. eapply nth_error_In, En. }
    destruct Hs as (step & Hs & Hseq).
    destruct (InterpreterProps.iteration_sequential world_step world_image
                world_text steps st step Hr Hp Hs Hseq)
      as (b & st1 & Hit & Hr1 & Hp1 & Hcs1 & Htr1).
    destruct (IH st1) as (st' & evs & Hl & Htr & Hst); auto; try lia.
    exists st', ([OnStepStart (current_step st); OnStepEnd (current_step st) b] ++ evs).
    split; [|split].
    + change (loop (S (S k + length steps)) steps st) with
        (match iteration steps st with
         | Continue s => loop (S (k + length steps)) steps s
         | stop => Some stop
         end).
      now rewrite Hit.
    + rewrite Htr, Htr1, <- app_assoc. reflexivity.
    + simpl started. rewrite Hst, Hcs.
      change (S k + length steps)%nat with (S (k + length steps)).
      change (seq 0 (S (k + length steps))) with (0%nat :: seq 1 (k + length steps)).
      cbn [List.map]. rewrite map_seq_succ.
      replace (Z.of_nat 0 - Z.of_nat (S k)) with (- Z.of_nat (S k)) by lia.
      f_equal. apply map_ext. intros j. lia.
Qed.

(** X5. Where a run starts.  On a program of [n] steps with the sequential
    policy, [run_script(from_step = -k)] with [1 <= k <= n] executes the last
    [k] steps under the indices [-k .. -1] and then the whole program
    [0 .. n-1], and returns [True]: a negative start index counts from the
    end and does not stop at the end.  With [from_step >= n] the run returns
    [True] at once and executes nothing. *)
Theorem run_script_start_index (steps : list Step) (st : State) :
  steps <> [] ->
  (forall (k fuel : nat),
      Forall sequential steps ->
      (1 <= k <= length steps)%nat ->
      (k + length steps < fuel)%nat ->
      exists st' evs,
        run fuel steps (- Z.of_nat k) st = Some (true, st')
        /\ trace st' = trace st ++ evs
        /\ started evs
           = List.map (fun j => Z.of_nat j - Z.of_nat k)
               (seq 0 (k + length steps)))
  /\ (forall (from_step : Z) (fuel : nat),
        Z.of_nat (length steps) <= from_step ->
        run (S fuel) steps from_step st
        = Some (true, set_running false
                        (emit (OnScriptEnd true) (run_script_init from_step st)))).
Proof.
  intros Hne. split.
  - intros k fuel Hall Hk Hfuel.
    destruct (negative_start_loop steps Hall k (run_script_init (- Z.of_nat k) st))
      as (st1 & evs & Hl & Htr & Hst); auto; [lia|].
    apply (InterpreterProps.run_loop_more_fuel world_step world_image world_text
             steps _ (fuel - S (k + length steps))) in Hl.
    replace (S (k + length steps) + (fuel - S (k + length steps)))%nat
      with fuel in Hl by lia.
    exists (set_running false (emit (OnScriptEnd true) st1)), (evs ++ [OnScriptEnd true]).
    rewrite run_script_unfold, Hl by exact Hne. simpl. split; [reflexivity|].
    split.
    + simpl in Htr. rewrite Htr, <- app_assoc. reflexivity.
    + rewrite InterpreterProps.started_app, Hst. simpl. now rewrite app_nil_r.
  - intros from_step fuel Hge.
    rewrite run_script_unfold by exact Hne.
    simpl. unfold loop_iteration. simpl.
    replace (from_step <? Z.of_nat (length steps)) with false by (symmetry; lia).
    reflexivity.
Qed.

(** *** Pause, resume and stop *)

Lemma paused_pass (steps : list Step) (st : State) :
  paused st = true -> state_of (iteration steps st) = st
                      /\ (forall e s, iteration steps st <> Fault e s).
Proof.
  intros Hp. unfold loop_iteration. rewrite Hp.
  destruct (negb (running st && (current_step st <? Z.of_nat (length steps))));
    split; try reflexivity; discriminate.
Qed.

Lemma paused_passes (steps : list Step) (n : nat) (st : State) :
  paused st = true -> passes n steps st = st.
Proof.
  intros Hp. induction n as [|n IH]; [reflexivity|].
  destruct (paused_pass steps st Hp) as [Hs Hf].
  simpl. destruct (iteration steps st) as [s|s|e s]; simpl in Hs; subst; auto.
Qed.

(** X6. While a run is paused no pass of the loop changes anything: after
    [pause_script], any number of passes and [resume_script], the object is
    what it was before the pause, with its step index, variables and loop
    frames. *)
Theorem pause_then_resume (steps : list Step) (n : nat) (st : State) :
  paused st = false ->
  resume_script (passes n steps (pause_script st)) = st.
Proof.
  intros Hp. rewrite paused_passes by reflexivity.
  destruct st as [r p cs vs lc ck tr]. simpl in Hp. subst p. reflexivity.
Qed.

(** After [stop_script] the next test of the loop condition leaves the
    loop whatever the step index is: [on_script_end] is called with [True]
    and [run_script] returns [True]. *)
Lemma stopped_run_returns_true (steps : list Step) (fuel n : nat) (st : State) :
  option_map run_script_end (loop (S fuel) steps (stop_script (passes n steps st)))
  = Some (true, set_running false
                  (emit (OnScriptEnd true) (stop_script (passes n steps st)))).
Proof. reflexivity. Qed.

(** *** Loop boundaries *)

Lemma exec_loop_step (st : State) (step : Step) :
  step_type step = "loop" ->
  exec_step st step = _execute_loop world_image st step.
Proof. intros H. unfold _execute_step. rewrite H. reflexivity. Qed.

Lemma exec_end_loop_step (st : State) (step : Step) :
  step_type step = "end_loop" ->
  exec_step st step = _execute_end_loop st step.
Proof. intros H. unfold _execute_step. rewrite H. reflexivity. Qed.

(** X8. A count loop start whose frame has no round left, because the
    count is zero or negative at the first visit, or because the frame kept
    from an earlier run of the loop is used up, skips the body: the pass
    continues after [end_step] (after the loop start itself when the step has
    no [end_step]), the frame is removed and the variables are untouched. *)
Theorem count_loop_without_rounds
        (steps : list Step) (st : State) (step : Step) (lid : string) (N : Z) :
  running st = true -> paused st = false ->
  seq_index steps (current_step st) = Some step ->
  enabled step = true ->
  step_type step = "loop" ->
  default "count" (loop_type step) = "count" ->
  default ("loop_" +:+ str_of_int (current_step st)) (loop_id step) = lid ->
  next_step step = None ->
  _resolve_value (variables st) (default (VInt 1) (count step)) = Ok (VInt N) ->
  (loop_counters st !! lid = None /\ N <= 0)
  \/ (exists cur tot start,
        loop_counters st !! lid = Some (CountFrame cur (VInt tot) start)
        /\ tot <= cur) ->
  exists st',
    iteration steps st = Continue st'
    /\ current_step st' = match end_step step with
                          | Some e => e + 1
                          | None => current_step st + 1
                          end
    /\ loop_counters st' = delete lid (loop_counters st)
    /\ variables st' = variables st.
Proof.
  intros Hr Hp Hs He Hty Hlt Hlid Hn Hcnt Hframe.
  destruct (InterpreterProps.iteration_enabled world_step world_image world_text
              steps st step Hr Hp Hs He) as (ok & st2 & Hx & Hit).
  rewrite exec_loop_step in Hx by exact Hty.
  unfold _execute_loop in Hx. simpl current_step in Hx.
  rewrite Hlid, Hlt in Hx. change (str_is "count" "count") with true in Hx.
  cbv iota in Hx. unfold _execute_count_loop in Hx.
  simpl variables in Hx. rewrite Hcnt in Hx. simpl loop_counters in Hx.
  assert (Hres : ok = true
                 /\ current_step st2 = match end_step step with
                                       | Some e => e
                                       | None => current_step st
                                       end
                 /\ loop_counters st2 = delete lid (loop_counters st)
                 /\ variables st2 = variables st).
  { destruct Hframe as [[Hnone HN]|(cur & tot & start & Hsome & Hle)].
    - rewrite Hnone in Hx. simpl in Hx. rewrite lookup_insert_eq in Hx.
      unfold int_ge in Hx. simpl in Hx.
      replace (N <=? 0) with true in Hx by (symmetry; lia).
      destruct (end_step step); inversion Hx; subst; simpl;
        rewrite delete_insert_eq; auto.
    - rewrite Hsome in Hx. simpl in Hx. rewrite Hsome in Hx.
      unfold int_ge in Hx. simpl in Hx.
      replace (tot <=? cur) with true in Hx by (symmetry; lia).
      destruct (end_step step); inversion Hx; subst; simpl; auto. }
  destruct Hres as (-> & Hcs & Hlc & Hvs).
  rewrite Hn in Hit. eexists. split; [exact Hit|].
  simpl. rewrite Hcs, Hlc, Hvs. destruct (end_step step); auto.
Qed.

Lemma resolve_str_is_str (vars : gmap string Value) (s : string) (w : Value) :
  _resolve_value vars (VStr s) = Ok w -> exists s', w = VStr s'.
Proof.
  simpl. destruct (sub_pieces vars (re_matches s)) as [out|e]; simpl;
    intros H; inversion H. eauto.
Qed.

(** X9. A count given as a string (a template such as ["${retry_count}"]
    included: the resolver turns every value into text) never loops: at the
    first visit the comparison of the counter with the text raises, the loop
    step reports a failure and leaves the step index and the variables as
    they are. *)
Theorem count_loop_with_text_count
        (st : State) (step : Step) (lid s : string) :
  step_type step = "loop" ->
  default "count" (loop_type step) = "count" ->
  default ("loop_" +:+ str_of_int (current_step st)) (loop_id step) = lid ->
  count step = Some (VStr s) ->
  loop_counters st !! lid = None ->
  fst (exec_step st step) = false
  /\ current_step (snd (exec_step st step)) = current_step st
  /\ variables (snd (exec_step st step)) = variables st.
Proof.
  intros Hty Hlt Hlid Hcnt Hnone.
  rewrite exec_loop_step by exact Hty.
  unfold _execute_loop. rewrite Hlid, Hlt.
  change (str_is "count" "count") with true. cbv iota.
  unfold _execute_count_loop. rewrite Hcnt.
  change (default (VInt 1) (Some (VStr s))) with (VStr s).
  destruct (_resolve_value (variables st) (VStr s)) as [w|e] eqn:Hw;
    [|simpl; auto].
  destruct (resolve_str_is_str _ _ _ Hw) as (s' & ->).
  rewrite Hnone. simpl. rewrite lookup_insert_eq. simpl. auto.
Qed.

(** X10. A while loop start whose predicate is false at the first visit
    skips the body: the pass continues after [end_step] (after the loop start
    itself when the step has no [end_step]) and no frame is left. *)
Theorem while_loop_false_at_first_visit
        (steps : list Step) (st : State) (step : Step) (lid : string) :
  running st = true -> paused st = false ->
  seq_index steps (current_step st) = Some step ->
  enabled step = true ->
  step_type step = "loop" ->
  loop_type step = Some "while" ->
  default ("loop_" +:+ str_of_int (current_step st)) (loop_id step) = lid ->
  next_step step = None ->
  loop_counters st !! lid = None ->
  (condition_type step = Some "image_exists"
   /\ world_image (clock st) step = Ok false)
  \/ (condition_type step = Some "variable_equals"
      /\ _check_variable_equals_condition st step = Ok false) ->
  exists st',
    iteration steps st = Continue st'
    /\ current_step st' = match end_step step with
                          | Some e => e + 1
                          | None => current_step st + 1
                          end
    /\ loop_counters st' = loop_counters st
    /\ variables st' = variables st.
Proof.
  intros Hr Hp Hs He Hty Hlt Hlid Hn Hnone Hpred.
  destruct (InterpreterProps.iteration_enabled world_step world_image world_text
              steps st step Hr Hp Hs He) as (ok & st2 & Hx & Hit).
  rewrite exec_loop_step in Hx by exact Hty.
  unfold _execute_loop in Hx. simpl current_step in Hx.
  rewrite Hlid, Hlt in Hx.
  change (str_is (default "count" (Some "while")) "count") with false in Hx.
  change (str_is (default "count" (Some "while")) "while") with true in Hx.
  cbv iota in Hx. unfold _execute_while_loop in Hx.
  simpl loop_counters in Hx. rewrite Hnone in Hx.
  assert (Hres : ok = true
                 /\ current_step st2 = match end_step step with
                                       | Some e => e
                                       | None => current_step st
                                       end
                 /\ loop_counters st2 = loop_counters st
                 /\ variables st2 = variables st).
  { destruct Hpred as [[Hct Hw]|[Hct Hw]]; rewrite Hct in Hx.
    - change (str_is (default "" (Some "image_exists")) "") with false in Hx.
      change (str_is (default "" (Some "image_exists")) "image_exists")
        with true in Hx.
      cbv iota in Hx. unfold _check_image_condition in Hx. simpl in Hx.
      rewrite Hw in Hx.
      destruct (end_step step); inversion Hx; subst; simpl;
        rewrite delete_insert_id by exact Hnone; auto.
    - change (str_is (default "" (Some "variable_equals")) "") with false in Hx.
      change (str_is (default "" (Some "variable_equals")) "image_exists")
        with false in Hx.
      change (str_is (default "" (Some "variable_equals")) "variable_equals")
        with true in Hx.
      cbv iota in Hx.
      assert (Hsame : _check_variable_equals_condition
                        (set_loop_counters
                           (<[lid := WhileFrame
                                       (current_step
                                          (emit (OnStepStart (current_step st)) st))]>
                              (loop_counters st))
                           (emit (OnStepStart (current_step st)) st)) step
                      = _check_variable_equals_condition st step) by reflexivity.
      rewrite Hsame, Hw in Hx.
      destruct (end_step step); inversion Hx; subst; simpl;
        rewrite delete_insert_id by exact Hnone; auto. }
  destruct Hres as (-> & Hcs & Hlc & Hvs).
  rewrite Hn in Hit. eexists. split; [exact Hit|].
  simpl. rewrite Hcs, Hlc, Hvs. destruct (end_step step); auto.
Qed.

(** X11. [end_loop] never opens or closes a frame and never writes a
    variable; with a frame missing under its [loop_id] (a loop that was
    skipped or has been closed) it succeeds and leaves everything as it is;
    without a [loop_id] it fails. *)
Theorem end_loop_keeps_frames (st : State) (step : Step) :
  loop_counters (snd (_execute_end_loop st step)) = loop_counters st
  /\ variables (snd (_execute_end_loop st step)) = variables st
  /\ (forall lid, loop_id step = Some lid -> lid <> EmptyString ->
                  loop_counters st !! lid = None ->
                  _execute_end_loop st step = (true, st))
  /\ (default "" (loop_id step) = "" -> _execute_end_loop st step = (false, st)).
Proof.
  unfold _execute_end_loop.
  split; [|split; [|split]].
  - destruct (str_is _ ""); [reflexivity|].
    destruct (loop_counters st !! _) as [[cur tot start|start]|]; try reflexivity.
    destruct (int_lt cur tot) as [[|]|]; reflexivity.
  - destruct (str_is _ ""); [reflexivity|].
    destruct (loop_counters st !! _) as [[cur tot start|start]|]; try reflexivity.
    destruct (int_lt cur tot) as [[|]|]; reflexivity.
  - intros lid Hl Hne Hnone. rewrite Hl. simpl.
    replace (str_is lid "") with false.
    + now rewrite Hnone.
    + symmetry. apply String.eqb_neq. exact Hne.
  - intros H. rewrite H. reflexivity.
Qed.

(** *** A while loop whose predicate holds *)

Lemma iteration_sequential_frames (steps : list Step) (st : State) (step : Step) :
  running st = true -> paused st = false ->
  seq_index steps (current_step st) = Some step ->
  sequential step ->
  exists st',
    iteration steps st = Continue st'
    /\ running st' = true /\ paused st' = false
    /\ current_step st' = current_step st + 1
    /\ loop_counters st' = loop_counters st.
Proof.
  intros Hr Hp Hs (He & Hn & Hf & Hc).
  destruct (InterpreterProps.iteration_enabled world_step world_image world_text
              steps st step Hr Hp Hs He) as (b & st2 & Hx & Hit).
  pose proof (InterpreterProps.execute_step_frame world_step world_image world_text
                (emit (OnStepStart (current_step st)) st) step) as F.
  pose proof (InterpreterProps.execute_step_plain world_step world_image world_text
                _ _ _ _ Hc Hx) as [Hcs Hlc].
  rewrite Hx in F. destruct F as (F1 & F2 & _). simpl in *.
  eexists. split; [exact Hit|].
  rewrite Hn, Hf. destruct b; simpl; rewrite ?F1, ?F2, ?Hcs, ?Hlc; auto.
Qed.

Lemma seq_index_middle {A : Type} (pre rest : list A) (k : nat) :
  (k < length rest)%nat ->
  seq_index (pre ++ rest) (Z.of_nat (length pre) + Z.of_nat k) = nth_error rest k.
Proof.
  intros Hk.
  replace (Z.of_nat (length pre) + Z.of_nat k) with (Z.of_nat (length pre + k)) by lia.
  rewrite InterpreterProps.seq_index_nat by (rewrite length_app; lia).
  rewrite nth_error_app2 by lia. f_equal. lia.
Qed.

Section WhileLoop.

Variables (pre body post : list Step) (w e : Step) (lid : string).

Hypothesis w_enabled : enabled w = true.
Hypothesis w_type : step_type w = "loop".
Hypothesis w_while : loop_type w = Some "while".
Hypothesis w_id : loop_id w = Some lid.
Hypothesis w_next : next_step w = None.
Hypothesis lid_given : lid <> EmptyString.
Hypothesis body_sequential : Forall sequential body.
Hypothesis e_enabled : enabled e = true.
Hypothesis e_type : step_type e = "end_loop".
Hypothesis e_id : loop_id e = Some lid.
Hypothesis e_next : next_step e = None.

Local Notation "'prog'" := (pre ++ w :: body ++ e :: post).
Local Notation "'top'" := (Z.of_nat (length pre)).

Lemma while_body_pass (st : State) (k : nat) :
  running st = true -> paused st = false ->
  loop_counters st !! lid = Some (WhileFrame top) ->
  (k <= length body)%nat ->
  current_step st = top + 1 + Z.of_nat k ->
  exists st' k',
    iteration prog st = Continue st'
    /\ running st' = true /\ paused st' = false
    /\ loop_counters st' !! lid = Some (WhileFrame top)
    /\ (k' <= length body)%nat
    /\ current_step st' = top + 1 + Z.of_nat k'.
Proof.
  intros Hr Hp Hf Hk Hcs.
  assert (Hidx : seq_index prog (current_step st)
                 = nth_error (body ++ e :: post) k).
  { rewrite Hcs.
    replace (top + 1 + Z.of_nat k) with (top + Z.of_nat (S k)) by lia.
    rewrite seq_index_middle by (simpl; rewrite length_app; simpl; lia).
    reflexivity. }
  destruct (Nat.eq_dec k (length body)) as [Hend|Hin].
  - assert (Hs : seq_index prog (current_step st) = Some e).
    { rewrite Hidx, nth_error_app2 by lia.
      replace (k - length body)%nat with 0%nat by lia. reflexivity. }
    destruct (InterpreterProps.iteration_enabled world_step world_image world_text
                prog st e Hr Hp Hs e_enabled) as (b & st2 & Hx & Hit).
    rewrite exec_end_loop_step in Hx by exact e_type.
    unfold _execute_end_loop in Hx. rewrite e_id in Hx. simpl in Hx.
    replace (str_is lid "") with false in Hx
      by (symmetry; apply String.eqb_neq; exact lid_given).
    rewrite Hf in Hx. inversion Hx; subst b st2; clear Hx.
    rewrite e_next in Hit.
    eexists. exists 0%nat. split; [exact Hit|]. simpl.
    repeat split; auto; lia.
  - assert (Hlt : (k < length body)%nat) by lia.
    destruct (nth_error body k) as [s|] eqn:En;
      [|apply nth_error_None in En; lia].
    assert (Hs : seq_index prog (current_step st) = Some s).
    { rewrite Hidx, nth_error_app1 by lia. exact En. }
    assert (Hseq : sequential s).
    { pose proof body_sequential as Hall.
      rewrite List.Forall_forall in Hall. apply Hall. eapply nth_error_In, En. }
    destruct (iteration_sequential_frames prog st s Hr Hp Hs Hseq)
      as (st' & Hit & Hr' & Hp' & Hcs' & Hlc).
    exists st', (S k). split; [exact Hit|].
    rewrite Hlc. repeat split; auto; lia.
Qed.

Lemma while_body_forever (fuel : nat) :
  forall (st : State) (k : nat),
    running st = true -> paused st = false ->
    loop_counters st !! lid = Some (WhileFrame top) ->
    (k <= length body)%nat ->
    current_step st = top + 1 + Z.of_nat k ->
    loop fuel prog st = None.
Proof.
  induction fuel as [|fuel IH]; intros st k Hr Hp Hf Hk Hcs; [reflexivity|].
  destruct (while_body_pass st k Hr Hp Hf Hk Hcs)
    as (st' & k' & Hit & Hr' & Hp' & Hf' & Hk' & Hcs').
  simpl. rewrite Hit. eapply IH; eauto.
Qed.

(** X12. A while loop whose predicate holds when its start is first
    reached never ends, whatever its body of sequential steps does to the
    variables or the screen: [end_loop] sets the step index to the loop start
    and the run loop adds one, so the predicate is never evaluated again and
    the run loop is still going after any number of passes. *)
Theorem while_loop_never_rechecks (st : State) (fuel : nat) :
  running st = true -> paused st = false ->
  current_step st = top ->
  loop_counters st !! lid = None ->
  (condition_type w = Some "image_exists"
   /\ world_image (clock st) w = Ok true)
  \/ (condition_type w = Some "variable_equals"
      /\ _check_variable_equals_condition st w = Ok true) ->
  loop fuel prog st = None.
Proof.
  intros Hr Hp Hcs Hnone Hpred.
  destruct fuel as [|fuel]; [reflexivity|].
  assert (Hs : seq_index prog (current_step st) = Some w).
  { rewrite Hcs. replace top with (top + Z.of_nat 0) by lia.
    rewrite seq_index_middle by (simpl; lia). reflexivity. }
  destruct (InterpreterProps.iteration_enabled world_step world_image world_text
              prog st w Hr Hp Hs w_enabled) as (ok & st2 & Hx & Hit).
  rewrite exec_loop_step in Hx by exact w_type.
  unfold _execute_loop in Hx. rewrite w_id, w_while in Hx.
  change (str_is (default "count" (Some "while")) "count") with false in Hx.
  change (str_is (default "count" (Some "while")) "while") with true in Hx.
  change (default _ (Some lid)) with lid in Hx.
  cbv iota in Hx. unfold _execute_while_loop in Hx.
  simpl loop_counters in Hx. rewrite Hnone in Hx.
  assert (Hres : ok = true
                 /\ current_step st2 = current_step st
                 /\ running st2 = true /\ paused st2 = false
                 /\ loop_counters st2 !! lid = Some (WhileFrame top)).
  { destruct Hpred as [[Hct Hw]|[Hct Hw]]; rewrite Hct in Hx.
    - change (str_is (default "" (Some "image_exists")) "") with false in Hx.
      change (str_is (default "" (Some "image_exists")) "image_exists")
        with true in Hx.
      cbv iota in Hx. unfold _check_image_condition in Hx. simpl in Hx.
      rewrite Hw in Hx. inversion Hx; subst; simpl.
      rewrite lookup_insert_eq, Hcs. auto.
    - change (str_is (default "" (Some "variable_equals")) "") with false in Hx.
      change (str_is (default "" (Some "variable_equals")) "image_exists")
        with false in Hx.
      change (str_is (default "" (Some "variable_equals")) "variable_equals")
        with true in Hx.
      cbv iota in Hx.
      assert (Hsame : _check_variable_equals_condition
                        (set_loop_counters
                           (<[lid := WhileFrame
                                       (current_step
                                          (emit (OnStepStart (current_step st)) st))]>
                              (loop_counters st))
                           (emit (OnStepStart (current_step st)) st)) w
                      = _check_variable_equals_condition st w) by reflexivity.
      rewrite Hsame, Hw in Hx. inversion Hx; subst; simpl.
      rewrite lookup_insert_eq, Hcs. auto. }
  destruct Hres as (-> & Hcs2 & Hr2 & Hp2 & Hf2).
  rewrite w_next in Hit. simpl. rewrite Hit.
  apply (while_body_forever fuel _ 0%nat); simpl; auto; lia.
Qed.

End WhileLoop.

End WithWorld.

Lemma count_loop_without_rounds_witness :
  exists st',
    loop_iteration Samples.quiet_step Samples.quiet_image Samples.quiet_text
      (Samples.count_program 0) (run_script_init 0 Samples.fresh) = Continue st'
    /\ current_step st' = 2 + 1
    /\ loop_counters st'
       = delete "main_loop" (loop_counters (run_script_init 0 Samples.fresh))
    /\ variables st' = variables (run_script_init 0 Samples.fresh).
Proof.
  apply (count_loop_without_rounds Samples.quiet_step Samples.quiet_image
           Samples.quiet_text (Samples.count_program 0)
           (run_script_init 0 Samples.fresh)
           (Samples.count_loop_step "main_loop" (VInt 0) 2) "main_loop" 0);
    try reflexivity.
  left. split; [reflexivity|lia].
Defined.

Lemma count_loop_with_text_count_witness :
  fst (_execute_step Samples.quiet_step Samples.quiet_image Samples.quiet_text
         Samples.in_progress
         (Samples.count_loop_step "main_loop" (VStr "${x}") 7)) = false
  /\ current_step
       (snd (_execute_step Samples.quiet_step Samples.quiet_image Samples.quiet_text
               Samples.in_progress
               (Samples.count_loop_step "main_loop" (VStr "${x}") 7)))
     = current_step Samples.in_progress
  /\ variables
       (snd (_execute_step Samples.quiet_step Samples.quiet_image Samples.quiet_text
               Samples.in_progress
               (Samples.count_loop_step "main_loop" (VStr "${x}") 7)))
     = variables Samples.in_progress.
Proof.
  apply (count_loop_with_text_count Samples.quiet_step Samples.quiet_image
           Samples.quiet_text Samples.in_progress
           (Samples.count_loop_step "main_loop" (VStr "${x}") 7) "main_loop" "${x}");
    reflexivity.
Defined.

Lemma while_loop_false_at_first_visit_witness :
  exists st',
    loop_iteration Samples.quiet_step Samples.quiet_image Samples.quiet_text
      MoreSamples.logo_program (run_script_init 0 Samples.fresh) = Continue st'
    /\ current_step st' = 2 + 1
    /\ loop_counters st' = loop_counters (run_script_init 0 Samples.fresh)
    /\ variables st' = variables (run_script_init 0 Samples.fresh).
Proof.
  apply (while_loop_false_at_first_visit Samples.quiet_step Samples.quiet_image
           Samples.quiet_text MoreSamples.logo_program
           (run_script_init 0 Samples.fresh)
           (MoreSamples.while_image_step "logo" 2) "logo");
    try reflexivity.
  left. split; reflexivity.
Defined.

Lemma end_loop_keeps_frames_witness :
  _execute_end_loop Samples.fresh (Samples.end_loop_step "main_loop")
  = (true, Samples.fresh)
  /\ _execute_end_loop Samples.fresh (Samples.plain_step "end_loop")
     = (false, Samples.fresh).
Proof.
  split.
  - destruct (end_loop_keeps_frames Samples.fresh (Samples.end_loop_step "main_loop"))
      as (_ & _ & H & _).
    apply (H "main_loop"); [reflexivity|discriminate|reflexivity].
  - destruct (end_loop_keeps_frames Samples.fresh (Samples.plain_step "end_loop"))
      as (_ & _ & _ & H).
    apply H. reflexivity.
Defined.

Lemma while_loop_never_rechecks_witness :
  run_loop Samples.quiet_step MoreSamples.seeing_image Samples.quiet_text 50
    ([] ++ MoreSamples.while_image_step "logo" 2
        :: [Samples.plain_step "click"] ++ Samples.end_loop_step "logo" :: [])
    (run_script_init 0 Samples.fresh)
  = None.
Proof.
  apply (while_loop_never_rechecks Samples.quiet_step MoreSamples.seeing_image
           Samples.quiet_text [] [Samples.plain_step "click"] []
           (MoreSamples.while_image_step "logo" 2) (Samples.end_loop_step "logo")
           "logo");
    try reflexivity.
  - discriminate.
  - repeat constructor.
  - left. split; reflexivity.
Defined.

Lemma run_script_start_index_witness :
  (exists st' evs,
      run_script Samples.quiet_step Samples.quiet_image Samples.quiet_text 4
        [Samples.plain_step "click"; Samples.plain_step "wait"] (- Z.of_nat 1)
        Samples.fresh = Some (true, st')
      /\ trace st' = trace Samples.fresh ++ evs
      /\ started evs
         = List.map (fun j => Z.of_nat j - Z.of_nat 1) (seq 0 (1 + 2)))
  /\ run_script Samples.quiet_step Samples.quiet_image Samples.quiet_text 1
       [Samples.plain_step "click"; Samples.plain_step "wait"] 5 Samples.fresh
     = Some (true, set_running false
                     (emit (OnScriptEnd true) (run_script_init 5 Samples.fresh))).
Proof.
  destruct (run_script_start_index Samples.quiet_step Samples.quiet_image
              Samples.quiet_text
              [Samples.plain_step "click"; Samples.plain_step "wait"] Samples.fresh)
    as [Hneg Hbig]; [discriminate|].
  split.
  - apply (Hneg 1%nat 4%nat); [repeat constructor|simpl; lia|simpl; lia].
  - apply (Hbig 5 0%nat). simpl. lia.
Defined.

Lemma pause_then_resume_witness :
  resume_script
    (loop_state Samples.quiet_step Samples.quiet_image Samples.quiet_text 3
       (Samples.branch_program None) (pause_script Samples.in_progress))
  = Samples.in_progress.
Proof.
  apply (pause_then_resume Samples.quiet_step Samples.quiet_image Samples.quiet_text
           (Samples.branch_program None) 3 Samples.in_progress).
  reflexivity.
Defined.

Lemma run_script_completion_witness :
  (exists evs,
      trace (set_running false
               (emit (OnScriptEnd false) (run_script_init (-2) Samples.fresh)))
      = trace Samples.fresh ++ evs ++ [OnScriptEnd false]
      /\ count_script_end evs = 0%nat)
  /\ running (set_running false
                (emit (OnScriptEnd false) (run_script_init (-2) Samples.fresh)))
     = false
  /\ (false = false ->
      current_step (set_running false
                      (emit (OnScriptEnd false) (run_script_init (-2) Samples.fresh)))
      < - Z.of_nat (length [Samples.plain_step "click"])).
Proof.
  apply (run_script_completion Samples.quiet_step Samples.quiet_image
           Samples.quiet_text 1 [Samples.plain_step "click"] (-2) Samples.fresh).
  - discriminate.
  - reflexivity.
Defined.

(** X24. A [variable_equals] condition whose [value] is text (a template
    included: the resolver always gives text back) holds only for a variable
    that is set and holds text itself; for a variable holding a number, a
    list or nothing it is never true. *)
Theorem variable_equals_text_needs_text (st : State) (step : Step) (s : string) :
  value step = Some (VStr s) ->
  _check_variable_equals_condition st step = Ok true ->
  exists var_name t,
    variable step = Some var_name /\ variables st !! var_name = Some (VStr t).
Proof.
  intros Hv. unfold _check_variable_equals_condition. rewrite Hv.
  destruct (variable step) as [var_name|]; simpl; [|discriminate].
  destruct (str_is var_name ""); simpl; [discriminate|].
  destruct (sub_pieces (variables st) (re_matches s)) as [out|e]; simpl;
    [|discriminate].
  intros H. inversion H as [Heq]. exists var_name.
  destruct (variables st !! var_name) as [[| | | t | | |]|]; simpl in Heq;
    try discriminate.
  exists t. auto.
Qed.

Lemma variable_equals_text_needs_text_witness :
  exists var_name t,
    variable (Samples.condition_step "mode" (VStr "fast") 1 2 None)
    = Some var_name
    /\ variables (set_variables {[ "mode" := VStr "fast" ]} Samples.fresh)
          !! var_name
       = Some (VStr t).
Proof.
  apply (variable_equals_text_needs_text _ _ "fast"); reflexivity.
Defined.

End InterpreterMore.

(* ===================================================================== *)
(** ** More on the event player                                           *)
(* ===================================================================== *)

Module EventPlayerMore.
Import EventPlayer PlaybackLog.

Local Arguments thread_steps : simpl never.
Local Arguments join : simpl never.

Section WithClock.
Context {clock : Clock}.

Lemma dispatched_app (a b : list Action) :
  dispatched (a ++ b) = dispatched a ++ dispatched b.
Proof.
  induction a as [|x a IH]; simpl; [reflexivity|].
  destruct x; simpl; rewrite IH; reflexivity.
Qed.

Lemma count_on_error_app (a b : list Action) :
  count_on_error (a ++ b) = (count_on_error a + count_on_error b)%nat.
Proof.
  induction a as [|x a IH]; simpl; [reflexivity|].
  destruct x; simpl; rewrite IH; reflexivity.
Qed.

Lemma pass_actions_log (evs : list Event) (spd : Q) :
  forall (i : nat) (last : Q),
    dispatched (pass_actions evs i last spd) = seq i (length evs)
    /\ count_on_stop (pass_actions evs i last spd) = 0%nat
    /\ count_on_error (pass_actions evs i last spd) = 0%nat.
Proof.
  induction evs as [|e r IH]; intros i last; simpl; [auto|].
  destruct (IH (S i) (etime e)) as (H1 & H2 & H3).
  destruct (is_positive (wait_time (etime e) last spd)); simpl;
    rewrite H1, H2, H3; auto.
Qed.

Lemma started_session (spd : option Q) (evs : list Event) (s0 : Q) (p0 : Player) :
  start_playback spd (loaded evs s0) = (true, p0) ->
  p0 = {| playing := true; paused := false; stop_event := false; events := evs;
          speed := default s0 spd; thread := Some (Head 0 0); log := [OnStart] |}.
Proof.
  unfold start_playback, loaded. simpl.
  destruct evs as [|e evs]; [discriminate|].
  intros H. inversion H. destruct spd; reflexivity.
Qed.

(** X13. A playback at a speed other than zero (negative speeds included)
    that is neither paused nor stopped, and all of whose positive waits
    [time.sleep] takes, dispatches every event exactly once, in the order of
    the list, then calls [on_stop] once, never [on_error], and ends with
    [playing] false. *)
Theorem playback_dispatches_each_event_once
        (spd : option Q) (evs : list Event) (s0 : Q) (p0 : Player) :
  start_playback spd (loaded evs s0) = (true, p0) ->
  is_zero (speed p0) = false ->
  waits_accepted (gaps evs 0 (speed p0)) = true ->
  thread (thread_steps (4 * length evs + 2) p0) = Some Done
  /\ playing (thread_steps (4 * length evs + 2) p0) = false
  /\ dispatched (log (thread_steps (4 * length evs + 2) p0)) = seq 0 (length evs)
  /\ count_on_stop (log (thread_steps (4 * length evs + 2) p0)) = 1%nat
  /\ count_on_error (log (thread_steps (4 * length evs + 2) p0)) = 0%nat.
Proof.
  intros Hstart Hz Hws. apply started_session in Hstart. subst p0.
  match goal with |- context [thread_steps _ ?q] =>
    destruct (EventPlayerProps.natural_run evs 0%nat 0 q) as (H1 & H2 & H3); auto
  end.
  destruct (pass_actions_log evs (default s0 spd) 0%nat 0) as (D1 & D2 & D3).
  rewrite H3. simpl log. simpl speed.
  change ([OnStart] ++ pass_actions evs 0 0 (default s0 spd) ++ [OnStop])
    with (OnStart :: pass_actions evs 0 0 (default s0 spd) ++ [OnStop]).
  simpl. rewrite dispatched_app, EventPlayerProps.count_on_stop_app,
           count_on_error_app, D1, D2, D3.
  simpl. rewrite app_nil_r. auto.
Qed.

Lemma step_wait_zero (p : Player) (i : nat) (last : Q) (e : Event) :
  thread p = Some (Wait i last) -> nth_error (events p) i = Some e ->
  is_zero (speed p) = true ->
  thread_step p = goto Finally (act OnError p).
Proof. intros Ht Hn Hz. unfold thread_step. now rewrite Ht, Hn, Hz. Qed.

(** X14. A playback at speed zero ends on its first event: the division
    raises, [on_error] is called, no event is dispatched and no sleep is
    made, and [on_stop] is still called and [playing] cleared. *)
Theorem playback_at_speed_zero
        (spd : option Q) (evs : list Event) (s0 : Q) (p0 : Player) :
  start_playback spd (loaded evs s0) = (true, p0) ->
  is_zero (speed p0) = true ->
  thread (thread_steps 4 p0) = Some Done
  /\ playing (thread_steps 4 p0) = false
  /\ log (thread_steps 4 p0) = [OnStart; OnError; OnStop].
Proof.
  intros Hstart Hz. pose proof Hstart as Hnil.
  apply started_session in Hstart. subst p0. simpl in Hz.
  unfold start_playback, loaded in Hnil. simpl in Hnil.
  destruct evs as [|e evs]; [discriminate|]. clear Hnil.
  rewrite EventPlayerProps.thread_steps_S.
  rewrite (EventPlayerProps.step_head _ 0%nat 0 e) by reflexivity.
  rewrite EventPlayerProps.thread_steps_S.
  rewrite (EventPlayerProps.step_pause _ 0%nat 0) by reflexivity.
  rewrite EventPlayerProps.thread_steps_S.
  match goal with |- context [thread_steps _ (thread_step ?q)] =>
    rewrite (step_wait_zero q 0%nat 0 e) by first [reflexivity | exact Hz]
  end.
  rewrite EventPlayerProps.thread_steps_S.
  match goal with |- context [thread_steps _ (thread_step ?q)] =>
    rewrite (EventPlayerProps.step_finally q) by reflexivity
  end.
  rewrite ?EventPlayerProps.thread_steps_O. simpl. auto.
Qed.

(** *** Stopping and pausing *)

Ltac thread_split :=
  repeat (simpl in *;
          match goal with
          | |- context [match nth_error ?l ?i with _ => _ end] =>
              destruct (nth_error l i) eqn:?
          | |- context [if ?c then _ else _] => destruct c eqn:?
          end);
  simpl in *.

Lemma stopping_step_budget (p : Player) :
  stop_event p = true ->
  stop_event (thread_step p) = true
  /\ (length (dispatched (log (thread_step p))) + dispatches_left (thread_step p)
      <= length (dispatched (log p)) + dispatches_left p)%nat
  /\ (length (sleeps (log (thread_step p))) + sleeps_left (thread_step p)
      <= length (sleeps (log p)) + sleeps_left p)%nat.
Proof.
  intros Hs. destruct p as [pl pa se evs spd th lg]. simpl in Hs. subst se.
  destruct th as [[i last|i last|i last|i| |]|];
    unfold thread_step, dispatches_left, sleeps_left; thread_split;
    rewrite ?dispatched_app, ?EventPlayerProps.sleeps_app, ?length_app;
    simpl; repeat split; try discriminate; lia.
Qed.

(** X16. Cancellation is cooperative and bounded: once the stop flag is
    set, however long the playback thread still runs, it dispatches at most
    one more event and makes at most one more sleep. *)
Theorem at_most_one_event_after_stop (p : Player) (n : nat) :
  stop_event p = true ->
  (length (dispatched (log (thread_steps n p)))
   <= length (dispatched (log p)) + 1)%nat
  /\ (length (sleeps (log (thread_steps n p)))
      <= length (sleeps (log p)) + 1)%nat.
Proof.
  intros Hs.
  assert (H : stop_event (thread_steps n p) = true
              /\ (length (dispatched (log (thread_steps n p)))
                  + dispatches_left (thread_steps n p)
                  <= length (dispatched (log p)) + dispatches_left p)%nat
              /\ (length (sleeps (log (thread_steps n p)))
                  + sleeps_left (thread_steps n p)
                  <= length (sleeps (log p)) + sleeps_left p)%nat).
  { revert p Hs. induction n as [|n IH]; intros p Hs.
    - rewrite EventPlayerProps.thread_steps_O. auto.
    - rewrite EventPlayerProps.thread_steps_S.
      destruct (stopping_step_budget p Hs) as (Hs' & Hd & Hl).
      destruct (IH (thread_step p) Hs') as (Hs'' & Hd' & Hl').
      repeat split; [exact Hs''|lia|lia]. }
  destruct H as (_ & Hd & Hl).
  assert (dispatches_left p <= 1)%nat
    by (unfold dispatches_left; destruct (thread p) as [[| | | | |]|]; lia).
  assert (sleeps_left p <= 1)%nat
    by (unfold sleeps_left; destruct (thread p) as [[| | | | |]|]; lia).
  lia.
Qed.

Lemma events_thread_step (p : Player) : events (thread_step p) = events p.
Proof.
  destruct p as [pl pa se evs spd th lg].
  destruct th as [[i last|i last|i last|i| |]|];
    unfold thread_step; thread_split; reflexivity.
Qed.

Lemma events_run_cmds (cs : list Cmd) (p : Player) :
  events (run_cmds cs p) = events p.
Proof.
  revert p. unfold run_cmds. induction cs as [|c cs IH]; intros p; [reflexivity|].
  simpl. rewrite IH. destruct c; simpl.
  - apply events_thread_step.
  - unfold pause_playback. destruct (negb (playing p) || paused p); reflexivity.
  - unfold resume_playback. destruct (negb (playing p) || negb (paused p));
      reflexivity.
Qed.

Lemma events_join (n : nat) :
  forall p p' : Player, join n p = Some p' -> events p' = events p.
Proof.
  induction n as [|n IH]; intros p p' H.
  - unfold join in H. destruct (is_alive p); [discriminate|]. now inversion H.
  - destruct (is_alive p) eqn:Ha.
    + rewrite EventPlayerProps.join_alive in H by exact Ha.
      rewrite (IH _ _ H). apply events_thread_step.
    + rewrite EventPlayerProps.join_ended in H by exact Ha. now inversion H.
Qed.

(** X17. After a [stop_playback] that ended a session, a second
    [stop_playback] returns [False] and changes nothing, and a new
    [start_playback] is accepted: it clears the stop flag and plays the same
    events again from the first one. *)
Theorem stop_then_start_again
        (spd spd' : option Q) (evs : list Event) (s0 : Q) (cs : list Cmd)
        (p0 : Player) :
  start_playback spd (loaded evs s0) = (true, p0) ->
  playing (run_cmds cs p0) = true ->
  exists p1,
    stop_playback 4 (run_cmds cs p0) = Some (true, p1)
    /\ (forall fuel, stop_playback fuel p1 = Some (false, p1))
    /\ exists p2,
         start_playback spd' p1 = (true, p2)
         /\ thread p2 = Some (Head 0 0)
         /\ playing p2 = true /\ paused p2 = false /\ stop_event p2 = false
         /\ events p2 = evs.
Proof.
  intros Hstart Hplay.
  pose proof (EventPlayerProps.session_inv_cmds cs p0
                (EventPlayerProps.session_inv_start _ _ _ _ Hstart)) as Hinv.
  destruct Hinv as (Hs & [(Hp & Ha & Hc)|(Hp & _)]); [|congruence].
  assert (Hev : events (run_cmds cs p0) = evs).
  { rewrite events_run_cmds. apply started_session in Hstart. now subst p0. }
  assert (Hne : evs <> []).
  { intros ->. unfold start_playback, loaded in Hstart. simpl in Hstart.
    discriminate. }
  set (p := run_cmds cs p0) in *.
  set (q := set_playing false (set_stop_event true p)).
  assert (Ha1 : is_alive q = true) by exact Ha.
  destruct (EventPlayerProps.join_after_stop 4 q) as (p' & Hj & Ht & Hpl & _); auto.
  { unfold moves_left. simpl. destruct (thread p) as [[| | | | |]|]; lia. }
  pose proof (events_join 4 q p' Hj) as Hev'.
  exists (act OnStop (clear_thread p')).
  split; [|split].
  - unfold stop_playback. rewrite Hp. simpl negb. cbv iota.
    fold q. rewrite Ha1, Hj. reflexivity.
  - intros fuel. unfold stop_playback. simpl. rewrite Hpl. reflexivity.
  - unfold start_playback. simpl. rewrite Hpl, Hev'.
    change (events q) with (events p). rewrite Hev.
    destruct evs as [|e evs']; [congruence|].
    eexists. split; [reflexivity|].
    destruct spd'; simpl; repeat split; try reflexivity;
      (rewrite Hev'; exact Hev).
Qed.

Lemma run_cmds_app (a b : list Cmd) (p : Player) :
  run_cmds (a ++ b) p = run_cmds b (run_cmds a p).
Proof. unfold run_cmds. apply fold_left_app. Qed.

Lemma run_cmds_ticks (n : nat) (p : Player) :
  run_cmds (repeat Tick n) p = thread_steps n p.
Proof.
  revert p. induction n as [|n IH]; intros p; [reflexivity|].
  rewrite EventPlayerProps.thread_steps_S, <- IH. reflexivity.
Qed.

Lemma paused_polls (n : nat) :
  forall p : Player,
    (exists i last, thread p = Some (PauseLoop i last)) ->
    paused p = true -> stop_event p = false ->
    thread_steps n p
    = mkPlayer (playing p) (paused p) (stop_event p) (events p) (speed p)
               (thread p) (log p ++ repeat (Sleep poll_interval) n).
Proof.
  induction n as [|n IH]; intros p Ht Hp Hs.
  - rewrite EventPlayerProps.thread_steps_O. simpl. rewrite app_nil_r.
    now destruct p.
  - rewrite EventPlayerProps.thread_steps_S.
    assert (Hstep : thread_step p = act (Sleep poll_interval) p).
    { destruct Ht as (i & last & Ht). unfold thread_step.
      now rewrite Ht, Hp, Hs. }
    rewrite Hstep, IH by (simpl; auto).
    simpl. rewrite <- app_assoc. reflexivity.
Qed.

(** X18. Pausing delays a playback and changes nothing else.  When a
    playing session, all of whose remaining positive waits [time.sleep]
    takes, is paused before an event, polls [n] times and is resumed, its log
    is the log it would have had without the pause with [n] sleeps of the poll
    interval put in before that event: every event is still dispatched, in
    order, after the same waits. *)
Theorem pause_adds_only_polls
        (p : Player) (i : nat) (last : Q) (rest : list Event) (n : nat) :
  playing p = true -> paused p = false -> stop_event p = false ->
  is_zero (speed p) = false ->
  thread p = Some (Head i last) ->
  skipn i (events p) = rest ->
  rest <> [] ->
  waits_accepted (gaps rest last (speed p)) = true ->
  log (run_cmds (PauseCmd :: Tick :: repeat Tick n
                   ++ ResumeCmd :: repeat Tick (4 * length rest + 1)) p)
  = log p ++ repeat (Sleep poll_interval) n
          ++ pass_actions rest i last (speed p) ++ [OnStop]
  /\ log (thread_steps (4 * length rest + 2) p)
     = log p ++ pass_actions rest i last (speed p) ++ [OnStop].
Proof.
  intros Hpl Hpa Hs Hz Ht Hk Hne Hws.
  split; [|apply (EventPlayerProps.natural_run rest i last p); assumption].
  destruct rest as [|e rest']; [congruence|].
  destruct (EventPlayerProps.skipn_cons_nth _ _ _ _ Hk) as [Hn _].
  change (PauseCmd :: Tick :: repeat Tick n
            ++ ResumeCmd :: repeat Tick (4 * length (e :: rest') + 1))
    with ([PauseCmd; Tick] ++ repeat Tick n
            ++ [ResumeCmd] ++ repeat Tick (4 * length (e :: rest') + 1)).
  rewrite !run_cmds_app, !run_cmds_ticks.
  assert (H1 : run_cmds [PauseCmd; Tick] p
               = goto (PauseLoop i last) (set_paused true p)).
  { unfold run_cmds. simpl. unfold pause_playback. rewrite Hpl, Hpa. simpl.
    apply (EventPlayerProps.step_head _ i last e); assumption. }
  rewrite H1.
  rewrite (paused_polls n (goto (PauseLoop i last) (set_paused true p)));
    [|exists i, last; reflexivity|reflexivity|exact Hs].
  set (q := mkPlayer (playing p) false false (events p) (speed p)
                     (Some (Head i last))
                     (log p ++ repeat (Sleep poll_interval) n)).
  assert (H2 : run_cmds [ResumeCmd]
                 (mkPlayer
                    (playing (goto (PauseLoop i last) (set_paused true p)))
                    (paused (goto (PauseLoop i last) (set_paused true p)))
                    (stop_event (goto (PauseLoop i last) (set_paused true p)))
                    (events (goto (PauseLoop i last) (set_paused true p)))
                    (speed (goto (PauseLoop i last) (set_paused true p)))
                    (thread (goto (PauseLoop i last) (set_paused true p)))
                    (log (goto (PauseLoop i last) (set_paused true p))
                       ++ repeat (Sleep poll_interval) n))
               = thread_step q).
  { unfold run_cmds. simpl. unfold resume_playback. simpl. rewrite Hpl. simpl.
    rewrite (EventPlayerProps.step_head q i last e)
      by (subst q; simpl; first [reflexivity|assumption]).
    subst q. unfold goto, set_paused. simpl. rewrite ?Hpl, ?Hs. reflexivity. }
  rewrite H2, <- EventPlayerProps.thread_steps_S.
  replace (S (4 * length (e :: rest') + 1)) with (4 * length (e :: rest') + 2)%nat
    by lia.
  destruct (EventPlayerProps.natural_run (e :: rest') i last q) as (_ & _ & H3);
    try (subst q; simpl; first [reflexivity|assumption]).
  rewrite H3. subst q. simpl. rewrite <- !app_assoc. reflexivity.
Qed.

(** X27. A positive wait that [time.sleep] refuses ends the playback at
    that event: [on_error] is called, neither that event nor a later one is
    dispatched, and the [finally] block calls [on_stop] and clears
    [playing]. *)
Theorem refused_wait_ends_playback
        (p : Player) (i : nat) (last : Q) (e : Event) :
  thread p = Some (Head i last) ->
  stop_event p = false -> paused p = false ->
  nth_error (events p) i = Some e ->
  is_zero (speed p) = false ->
  accepted (wait_time (etime e) last (speed p)) = false ->
  thread (thread_steps 4 p) = Some Done
  /\ playing (thread_steps 4 p) = false
  /\ log (thread_steps 4 p) = log p ++ [OnError; OnStop].
Proof.
  intros Ht Hs Hp Hn Hz Hw.
  rewrite EventPlayerProps.thread_steps_S.
  rewrite (EventPlayerProps.step_head p i last e Ht Hn Hs).
  rewrite EventPlayerProps.thread_steps_S.
  rewrite (EventPlayerProps.step_pause (goto (PauseLoop i last) p) i last)
    by first [reflexivity | exact Hp | exact Hs].
  rewrite EventPlayerProps.thread_steps_S.
  rewrite (EventPlayerProps.step_wait_refused
             (goto (Wait i last) (goto (PauseLoop i last) p)) i last e)
    by first [reflexivity | exact Hn | exact Hz | exact Hw].
  rewrite EventPlayerProps.thread_steps_S.
  match goal with |- context [thread_steps _ (thread_step ?q)] =>
    rewrite (EventPlayerProps.step_finally q) by reflexivity
  end.
  rewrite ?EventPlayerProps.thread_steps_O.
  cbn [thread playing log goto act set_playing].
  rewrite <- app_assoc. auto.
Qed.

End WithClock.

Lemma refused_wait_ends_playback_witness :
  thread (thread_steps (clock:=Samples.int64_clock) 4 MoreSamples.before_long_gap)
  = Some Done
  /\ playing (thread_steps (clock:=Samples.int64_clock) 4
                MoreSamples.before_long_gap) = false
  /\ log (thread_steps (clock:=Samples.int64_clock) 4 MoreSamples.before_long_gap)
     = log MoreSamples.before_long_gap ++ [OnError; OnStop].
Proof.
  apply (refused_wait_ends_playback (clock:=Samples.int64_clock)
           MoreSamples.before_long_gap 1%nat 0%Q
           (mkEvent 10000000000 "key_release")); reflexivity.
Defined.

Lemma playback_dispatches_each_event_once_witness :
  thread (thread_steps (clock:=Samples.int64_clock) (4 * length Samples.two_events + 2)
            (snd (start_playback (Some (-2)%Q) (loaded Samples.two_events 1))))
  = Some Done
  /\ playing (thread_steps (clock:=Samples.int64_clock) (4 * length Samples.two_events + 2)
                (snd (start_playback (Some (-2)%Q) (loaded Samples.two_events 1))))
     = false
  /\ dispatched (log (thread_steps (clock:=Samples.int64_clock) (4 * length Samples.two_events + 2)
                        (snd (start_playback (Some (-2)%Q)
                                (loaded Samples.two_events 1)))))
     = seq 0 (length Samples.two_events)
  /\ count_on_stop (log (thread_steps (clock:=Samples.int64_clock) (4 * length Samples.two_events + 2)
                           (snd (start_playback (Some (-2)%Q)
                                   (loaded Samples.two_events 1)))))
     = 1%nat
  /\ count_on_error (log (thread_steps (clock:=Samples.int64_clock) (4 * length Samples.two_events + 2)
                            (snd (start_playback (Some (-2)%Q)
                                    (loaded Samples.two_events 1)))))
     = 0%nat.
Proof.
  apply (playback_dispatches_each_event_once (clock:=Samples.int64_clock)
           (Some (-2)%Q) Samples.two_events 1); reflexivity.
Defined.

Lemma playback_at_speed_zero_witness :
  thread (thread_steps (clock:=Samples.int64_clock) 4
            (snd (start_playback (Some 0%Q) (loaded Samples.two_events 1))))
  = Some Done
  /\ playing (thread_steps (clock:=Samples.int64_clock) 4
                (snd (start_playback (Some 0%Q) (loaded Samples.two_events 1))))
     = false
  /\ log (thread_steps (clock:=Samples.int64_clock) 4
            (snd (start_playback (Some 0%Q) (loaded Samples.two_events 1))))
     = [OnStart; OnError; OnStop].
Proof.
  apply (playback_at_speed_zero (clock:=Samples.int64_clock) (Some 0%Q) Samples.two_events 1); reflexivity.
Defined.

Lemma at_most_one_event_after_stop_witness :
  (length (dispatched
             (log (thread_steps (clock:=Samples.int64_clock) 7 (set_stop_event true Samples.waiting))))
   <= length (dispatched (log (set_stop_event true Samples.waiting))) + 1)%nat
  /\ (length (sleeps
                (log (thread_steps (clock:=Samples.int64_clock) 7 (set_stop_event true Samples.waiting))))
      <= length (sleeps (log (set_stop_event true Samples.waiting))) + 1)%nat.
Proof.
  apply (at_most_one_event_after_stop (clock:=Samples.int64_clock) (set_stop_event true Samples.waiting) 7).
  reflexivity.
Defined.

Lemma stop_then_start_again_witness :
  exists p1,
    stop_playback (clock:=Samples.int64_clock) 4
      (run_cmds (clock:=Samples.int64_clock) [Tick; Tick; Tick]
         (snd (start_playback (Some 1%Q) (loaded Samples.two_events 1))))
    = Some (true, p1)
    /\ (forall fuel, stop_playback (clock:=Samples.int64_clock) fuel p1 = Some (false, p1))
    /\ exists p2,
         start_playback (Some 2%Q) p1 = (true, p2)
         /\ thread p2 = Some (Head 0 0)
         /\ playing p2 = true /\ paused p2 = false /\ stop_event p2 = false
         /\ events p2 = Samples.two_events.
Proof.
  apply (stop_then_start_again (clock:=Samples.int64_clock) (Some 1%Q) (Some 2%Q) Samples.two_events 1
           [Tick; Tick; Tick]); reflexivity.
Defined.

Lemma pause_adds_only_polls_witness :
  log (run_cmds (clock:=Samples.int64_clock) (PauseCmd :: Tick :: repeat Tick 3
                   ++ ResumeCmd :: repeat Tick (4 * length Samples.two_events + 1))
         (snd (start_playback (Some 1%Q) (loaded Samples.two_events 1))))
  = log (snd (start_playback (Some 1%Q) (loaded Samples.two_events 1)))
      ++ repeat (Sleep poll_interval) 3
      ++ pass_actions Samples.two_events 0 0 1 ++ [OnStop]
  /\ log (thread_steps (clock:=Samples.int64_clock) (4 * length Samples.two_events + 2)
            (snd (start_playback (Some 1%Q) (loaded Samples.two_events 1))))
     = log (snd (start_playback (Some 1%Q) (loaded Samples.two_events 1)))
         ++ pass_actions Samples.two_events 0 0 1 ++ [OnStop].
Proof.
  apply (pause_adds_only_polls (clock:=Samples.int64_clock)
           (snd (start_playback (Some 1%Q) (loaded Samples.two_events 1)))
           0%nat 0%Q Samples.two_events 3); try reflexivity.
  discriminate.
Defined.

End EventPlayerMore.

(* ===================================================================== *)
(** ** config.py: reading and writing settings                            *)
(* ===================================================================== *)

Module ConfigProps.
Import PyValue Config.

Lemma split_dot_not_nil (s : string) : split_dot s <> [].
Proof.
  induction s as [|c r IH]; simpl; [discriminate|].
  destruct (is_dot c); [discriminate|].
  destruct (split_dot r); discriminate.
Qed.

Lemma seq_index_last (pre : list string) (l : string) :
  seq_index (pre ++ [l]) (-1) = Some l.
Proof.
  unfold seq_index. rewrite length_app. simpl length.
  replace (0 <=? -1) with false by reflexivity. cbn [andb].
  replace ((- Z.of_nat (length pre + 1) <=? -1) && (-1 <? 0)) with true
    by (symmetry; apply andb_true_iff; split; [apply Z.leb_le; lia|reflexivity]).
  replace (Z.to_nat (Z.of_nat (length pre + 1) + -1)) with (length pre + 0)%nat
    by lia.
  rewrite nth_error_app2 by lia.
  replace (length pre + 0 - length pre)%nat with 0%nat by lia. reflexivity.
Qed.

(** [set] always gets through: the key list is never empty. *)
Lemma set_unfold (config : list (string * Value)) (key : string) (value : Value) :
  exists pre last,
    split_dot key = pre ++ [last]
    /\ set config key value = Ok (true, assign_path config pre last value).
Proof.
  destruct (exists_last (split_dot_not_nil key)) as (pre & last & E).
  exists pre, last. split; [exact E|].
  unfold set. rewrite E, seq_index_last, removelast_last. reflexivity.
Qed.

Lemma dict_get_set_same (kvs : list (string * Value)) (k : string) (v : Value) :
  dict_get (dict_set kvs k v) k = Some v.
Proof.
  induction kvs as [|[k' x] rest IH]; simpl.
  - now rewrite String.eqb_refl.
  - destruct (String.eqb k k') eqn:E; simpl; rewrite E; auto.
Qed.

Lemma dict_get_set_other (kvs : list (string * Value)) (k k' : string) (v : Value) :
  k <> k' -> dict_get (dict_set kvs k v) k' = dict_get kvs k'.
Proof.
  intros Hne. induction kvs as [|[k0 x] rest IH]; simpl.
  - destruct (String.eqb k' k) eqn:E; [|reflexivity].
    apply String.eqb_eq in E. congruence.
  - destruct (String.eqb k k0) eqn:E; simpl.
    + apply String.eqb_eq in E. subst k0.
      destruct (String.eqb k' k) eqn:E'; [|reflexivity].
      apply String.eqb_eq in E'. congruence.
    + destruct (String.eqb k' k0); [reflexivity|exact IH].
Qed.

Lemma lookup_raises (keys : list string) :
  forall (v : Value) (e : PyExn),
    lookup_path v keys = Raise e -> e = KeyError \/ e = TypeError.
Proof.
  induction keys as [|k ks IH]; intros v e; simpl; [discriminate|].
  destruct v as [| | | | | |kvs]; simpl;
    try solve [intros H; inversion H; auto].
  destruct (dict_get kvs k) as [x|]; simpl.
  - apply (IH x e).
  - intros H. inversion H. auto.
Qed.

Lemma get_or_default (config : list (string * Value)) (key : string) (d : Value) :
  get config key d
  = Ok (or_default d (lookup_path (VDict config) (split_dot key))).
Proof.
  unfold get.
  destruct (lookup_path (VDict config) (split_dot key)) as [v|e] eqn:E;
    [reflexivity|].
  destruct (lookup_raises _ _ _ E); subst e; reflexivity.
Qed.

Lemma lookup_assigned (pre : list string) (last : string) (value : Value) :
  forall config : list (string * Value),
    lookup_path (VDict (assign_path config pre last value)) (pre ++ [last])
    = Ok value.
Proof.
  induction pre as [|k ks IH]; intros config; simpl.
  - now rewrite dict_get_set_same.
  - rewrite dict_get_set_same. simpl. apply IH.
Qed.

(** X19. A setting written with [set] is read back by [get] under the same
    key, whatever the key (empty components included) and whatever the
    configuration held before; [set] never raises and returns [True]. *)
Theorem set_then_get
        (config : list (string * Value)) (key : string) (value d : Value) :
  exists config',
    set config key value = Ok (true, config')
    /\ get config' key d = Ok value.
Proof.
  destruct (set_unfold config key value) as (pre & last & E & Hset).
  exists (assign_path config pre last value). split; [exact Hset|].
  rewrite get_or_default, E, lookup_assigned. reflexivity.
Qed.

(** X20. [get] never raises: it returns the value found along the dotted
    path, and the default as soon as a component is missing or the value
    reached is not a dict. *)
Theorem get_never_raises
        (config : list (string * Value)) (key : string) (d : Value) :
  (exists v, get config key d = Ok v)
  /\ (forall pre k rest x,
        split_dot key = pre ++ k :: rest ->
        lookup_path (VDict config) pre = Ok x ->
        getitem_str x k = Raise KeyError \/ getitem_str x k = Raise TypeError ->
        get config key d = Ok d).
Proof.
  split.
  - rewrite get_or_default. eauto.
  - intros pre k rest x E Hx Hk. rewrite get_or_default, E.
    assert (H : forall keys v,
               lookup_path v keys = Ok x ->
               exists e, lookup_path v (keys ++ k :: rest) = Raise e).
    { induction keys as [|k0 ks IH]; intros v; simpl.
      - intros H. inversion H. subst v.
        destruct Hk as [-> | ->]; simpl; eauto.
      - destruct (getitem_str v k0) as [y|e]; simpl; [apply IH|discriminate]. }
    destruct (H pre (VDict config) Hx) as (e & ->). reflexivity.
Qed.

Lemma lookup_empty_dict (keys : list string) :
  keys <> [] -> lookup_path (VDict []) keys = Raise KeyError.
Proof. destruct keys; [congruence|reflexivity]. Qed.

Lemma lookup_not_dict (keys : list string) (x : Value) :
  keys <> [] -> (forall d, x <> VDict d) ->
  lookup_path x keys = Raise TypeError.
Proof.
  destruct keys; [congruence|]. intros _ Hx.
  destruct x; try reflexivity. now destruct (Hx kvs).
Qed.

Lemma assign_keeps_others
      (pre : list string) (k k' : string) (tail rest' : list string)
      (last : string) (value d : Value) :
  k <> k' ->
  forall config : list (string * Value),
    or_default d
      (lookup_path (VDict (assign_path config (pre ++ k :: tail) last value))
         (pre ++ k' :: rest'))
    = or_default d (lookup_path (VDict config) (pre ++ k' :: rest'))
    /\ or_default d
         (lookup_path (VDict (assign_path config pre k value))
            (pre ++ k' :: rest'))
       = or_default d (lookup_path (VDict config) (pre ++ k' :: rest')).
Proof.
  intros Hne. induction pre as [|a pre IH]; intros config.
  - simpl. rewrite !dict_get_set_other by exact Hne. auto.
  - simpl. rewrite !dict_get_set_same. simpl.
    assert (Hpath : pre ++ k' :: rest' <> []) by (destruct pre; discriminate).
    destruct (dict_get config a) as [[| | | | | |sub]|] eqn:Ea; simpl;
      try (destruct (IH []) as [H1 H2]; rewrite H1, H2;
           rewrite lookup_empty_dict by exact Hpath;
           try (rewrite lookup_not_dict by (auto; discriminate));
           split; reflexivity).
    apply IH.
Qed.

(** X21. [set] leaves every other branch of the tree alone: a key whose
    path parts from the path written at some component reads as before. *)
Theorem set_keeps_other_keys
        (config config' : list (string * Value)) (key key' : string)
        (pre : list string) (k k' : string) (rest rest' : list string)
        (value d : Value) :
  split_dot key = pre ++ k :: rest ->
  split_dot key' = pre ++ k' :: rest' ->
  k <> k' ->
  set config key value = Ok (true, config') ->
  get config' key' d = get config key' d.
Proof.
  intros E E' Hne Hset.
  destruct (set_unfold config key value) as (pre0 & last & E0 & Hset0).
  rewrite Hset0 in Hset. inversion Hset. subst config'. clear Hset.
  rewrite !get_or_default, E'. f_equal.
  rewrite E in E0.
  destruct (exists_last (l:=k :: rest)) as (mid & l & Em); [discriminate|].
  rewrite Em, app_assoc in E0. apply app_inj_tail in E0 as [<- <-].
  destruct mid as [|k0 mid].
  - simpl in Em. inversion Em. subst l. rewrite app_nil_r.
    apply (assign_keeps_others pre k k' [] rest' k value d Hne config).
  - simpl in Em. inversion Em. subst k0.
    apply (assign_keeps_others pre k k' mid rest' l value d Hne config).
Qed.

Lemma assign_makes_dicts (p : list string) :
  p <> [] ->
  forall (q : list string) (last : string) (value : Value)
         (config : list (string * Value)),
    exists sub,
      lookup_path (VDict (assign_path config (p ++ q) last value)) p
      = Ok (VDict sub).
Proof.
  induction p as [|a p IH]; [congruence|]. intros _ q last value config.
  simpl. rewrite dict_get_set_same. simpl.
  destruct p as [|b p]; [simpl; eauto|].
  apply IH. discriminate.
Qed.

(** X22. [set] makes room along its path: after a write under a dotted
    key, every proper prefix of that key reads as a dict, so a setting that
    was not a dict and lay on the path is replaced. *)
Theorem set_replaces_values_on_the_path
        (config config' : list (string * Value)) (key prefix : string)
        (rest : list string) (value d : Value) :
  split_dot key = split_dot prefix ++ rest -> rest <> [] ->
  set config key value = Ok (true, config') ->
  exists sub, get config' prefix d = Ok (VDict sub).
Proof.
  intros E Hrest Hset.
  destruct (set_unfold config key value) as (pre0 & last & E0 & Hset0).
  rewrite Hset0 in Hset. inversion Hset. subst config'. clear Hset.
  destruct (exists_last Hrest) as (mid & l & ->).
  rewrite E, app_assoc in E0. apply app_inj_tail in E0 as [<- <-].
  destruct (assign_makes_dicts (split_dot prefix) (split_dot_not_nil prefix)
              mid l value config) as (sub & Hsub).
  exists sub. rewrite get_or_default, Hsub. reflexivity.
Qed.

Lemma update_dict_nil (target : list (string * Value)) :
  _update_dict target [] = target.
Proof. reflexivity. Qed.

Lemma update_dict_cons
      (target : list (string * Value)) (key : string) (value : Value)
      (rest : list (string * Value)) :
  _update_dict target ((key, value) :: rest)
  = _update_dict
      match dict_get target key, value with
      | Some (VDict t), VDict s => dict_set target key (VDict (_update_dict t s))
      | _, _ => dict_set target key value
      end rest.
Proof.
  unfold _update_dict.
  destruct (dict_get target key) as [[| | | | | |t]|] eqn:Et;
    destruct value; simpl; rewrite Et; reflexivity.
Qed.

Lemma dict_get_absent (kvs : list (string * Value)) (k : string) :
  ~ In k (List.map fst kvs) -> dict_get kvs k = None.
Proof.
  induction kvs as [|[k' x] rest IH]; simpl; [reflexivity|]. intros H.
  destruct (String.eqb k k') eqn:E.
  - apply String.eqb_eq in E. subst k'. destruct H. now left.
  - apply IH. intros Hin. apply H. now right.
Qed.

(** X23. What [_update_dict] leaves under each key of the target, for a
    source with distinct keys (a loaded JSON object): a key the source does
    not hold keeps its value; a key it holds takes the source's value, except
    that two dicts are merged by the same rule. *)
Theorem update_dict_lookup
        (source : list (string * Value)) :
  List.NoDup (List.map fst source) ->
  forall (target : list (string * Value)) (k : string),
    dict_get (_update_dict target source) k
    = match dict_get source k with
      | None => dict_get target k
      | Some v =>
          Some match dict_get target k, v with
               | Some (VDict t), VDict s => VDict (_update_dict t s)
               | _, _ => v
               end
      end.
Proof.
  induction source as [|[k0 v0] rest IH]; intros Hnd target k.
  - reflexivity.
  - simpl in Hnd. apply List.NoDup_cons_iff in Hnd as [Hin Hnd].
    rewrite update_dict_cons, (IH Hnd). simpl.
    destruct (String.eqb k k0) eqn:E.
    + apply String.eqb_eq in E. subst k0.
      rewrite (dict_get_absent rest k Hin).
      destruct (dict_get target k) as [[| | | | | |t]|];
        destruct v0; now rewrite dict_get_set_same.
    + assert (Hne : k0 <> k)
        by (intros ->; rewrite String.eqb_refl in E; discriminate).
      assert (Hsame : forall x, dict_get (dict_set target k0 x) k
                                = dict_get target k)
        by (intros x; apply dict_get_set_other; exact Hne).
      destruct (dict_get target k0) as [[| | | | | |t]|];
        destruct v0; rewrite Hsame; reflexivity.
Qed.

Lemma get_never_raises_witness :
  (exists v, get settings "log_level.file" (VInt 0) = Ok v)
  /\ get settings "log_level.file" (VInt 0) = Ok (VInt 0).
Proof.
  destruct (get_never_raises settings "log_level.file" (VInt 0)) as [H1 H2].
  split; [exact H1|].
  apply (H2 ["log_level"] "file" [] (VStr "INFO"));
    [reflexivity|reflexivity|right; reflexivity].
Defined.

Lemma set_keeps_other_keys_witness :
  get (assign_path settings ["paths"] "scripts" (VStr "macros"))
      "paths.logs" VNone
  = get settings "paths.logs" VNone.
Proof.
  apply (set_keeps_other_keys settings _ "paths.scripts" "paths.logs"
           ["paths"] "scripts" "logs" [] [] (VStr "macros") VNone);
    [reflexivity|reflexivity|discriminate|reflexivity].
Defined.

Lemma set_replaces_values_on_the_path_witness :
  exists sub,
    get (assign_path settings ["log_level"] "file" (VStr "DEBUG"))
        "log_level" VNone
    = Ok (VDict sub).
Proof.
  apply (set_replaces_values_on_the_path settings _ "log_level.file"
           "log_level" ["file"] (VStr "DEBUG") VNone);
    [reflexivity|discriminate|reflexivity].
Defined.

Lemma update_dict_lookup_witness :
  dict_get (_update_dict settings loaded_file) "paths"
  = Some (VDict (_update_dict
                   [("scripts", VStr "scripts"); ("logs", VStr "logs")]
                   [("logs", VStr "var/log")])).
Proof.
  apply (update_dict_lookup loaded_file).
  repeat constructor; simpl; intuition discriminate.
Defined.

End ConfigProps.

(* ===================================================================== *)
(** ** core/player.py: what the playback thread does                      *)
(* ===================================================================== *)

Module InputThreadProps.
Import InputPlayer InputThread PyTime.

Local Arguments thread_steps : simpl never.
Local Arguments nth_error : simpl never.

Section WithClock.
Context {clock : Clock}.

Lemma steps_S (n : nat) (s : Session) :
  thread_steps (S n) s = thread_steps n (thread_step s).
Proof. reflexivity. Qed.

Lemma steps_O (s : Session) : thread_steps 0 s = s.
Proof. reflexivity. Qed.

Lemma thread_plays_app (a b : list Action) : plays (a ++ b) = plays a ++ plays b.
Proof.
  induction a as [|x a IH]; [reflexivity|]. destruct x; simpl; now rewrite IH.
Qed.

Lemma thread_sleeps_app (a b : list Action) : sleeps (a ++ b) = sleeps a ++ sleeps b.
Proof.
  induction a as [|x a IH]; [reflexivity|]. destruct x; simpl; now rewrite IH.
Qed.

Lemma thread_completes_app (a b : list Action) :
  completes (a ++ b) = (completes a + completes b)%nat.
Proof.
  induction a as [|x a IH]; [reflexivity|]. destruct x; simpl; now rewrite IH.
Qed.

Lemma plays_callback (cb : option nat) (i : nat) :
  plays (callback_entry cb (OnEvent i)) = []
  /\ sleeps (callback_entry cb (OnEvent i)) = []
  /\ completes (callback_entry cb (OnEvent i)) = 0%nat.
Proof. destruct cb; auto. Qed.

(** A speed in the range is a finite number above zero. *)
Lemma speed_in_range_positive (s : Num) :
  in_speed_range s = true -> exists q, s = Fin q /\ (0 < q)%Q.
Proof.
  unfold in_speed_range. destruct s as [q| | |]; simpl; try discriminate.
  intros H. apply andb_true_iff in H as [H _]. exists q. split; [reflexivity|].
  apply Qle_bool_iff in H.
  apply Qlt_le_trans with (3602879701896397 # 36028797018963968); [|exact H].
  reflexivity.
Qed.

Lemma wait_for_positive (gap q : Q) :
  (0 < q)%Q -> (0 < gap)%Q -> wait_for gap (Fin q) = Some (gap / q)%Q.
Proof.
  intros Hq Hg. unfold wait_for.
  destruct (Qeq_bool q 0) eqn:E.
  - apply Qeq_bool_iff in E. rewrite E in Hq. now apply Qlt_irrefl in Hq.
  - destruct (Qle_bool (gap / q) 0) eqn:E'; [|reflexivity].
    apply Qle_bool_iff in E'.
    assert (0 < gap / q)%Q.
    { unfold Qdiv. apply Qmult_lt_0_compat; [exact Hg|].
      now apply Qinv_lt_0_compat. }
    exfalso. apply (Qlt_irrefl 0). eapply Qlt_le_trans; eauto.
Qed.

Lemma gap_positive (t t' : Q) : Qle_bool t' t = false -> (0 < t' - t)%Q.
Proof.
  intros H. apply Qnot_le_lt. intros Hle.
  assert (Qle_bool t' t = true); [|congruence].
  apply Qle_bool_iff. apply Qle_minus_iff. apply Qle_minus_iff in Hle.
  eapply Qle_trans; [exact Hle|]. apply Qle_lteq. right. ring.
Qed.

(** The run of an undisturbed thread from its loop head, when [time.sleep]
    takes its waits. *)
Lemma thread_runs (rest : list Q) :
  forall (t : Q) (i : nat) (q : Q) (s : Session),
    pc s = Head -> playing (player s) = true -> paused (player s) = false ->
    speed (player s) = Fin q -> (0 < q)%Q ->
    current_index (player s) = i ->
    skipn i (events (player s)) = t :: rest ->
    waits_taken (waits_after t rest q) = true ->
    thread_steps (4 * length (t :: rest) + 1) s
    = mkSession
        (set_flags false false
           (set_index (i + length (t :: rest)) (player s)))
        Done
        (log s ++ run_actions (on_event_callback (player s)) t rest i q
               ++ callback_entry (on_complete_callback (player s)) OnComplete).
Proof.
  induction rest as [|t' rest IH]; intros t i q s Hpc Hpl Hpa Hsp Hq Hi Hk Hw;
    destruct s as [p c lg]; simpl in Hpc, Hpl, Hpa, Hsp, Hi, Hk; subst c;
    destruct (EventPlayerProps.skipn_cons_nth _ _ _ _ Hk) as [Hn Hk'];
    assert (Hlt : (i <? length (events p))%nat = true)
      by (apply Nat.ltb_lt, nth_error_Some; rewrite Hn; discriminate).
  - apply EventPlayerProps.skipn_nil_nth in Hk'.
    change (4 * length [t] + 1)%nat with 5%nat.
    rewrite !steps_S, steps_O.
    unfold thread_step at 5. simpl. rewrite Hpl, Hi, Hlt, Hpa. simpl.
    unfold thread_step at 4. simpl. rewrite Hi, Hn.
    unfold thread_step at 3. simpl.
    unfold thread_step at 2. simpl. rewrite Hi, Hk'.
    unfold thread_step. simpl.
    rewrite <- !app_assoc. simpl.
    replace (i + 1)%nat with (S i) by lia. reflexivity.
  - destruct (EventPlayerProps.skipn_cons_nth _ _ _ _ Hk') as [Hn' _].
    cbn [waits_after] in Hw. unfold waits_taken in Hw.
    rewrite forallb_app in Hw. apply andb_true_iff in Hw as [Hw1 Hw2].
    replace (4 * length (t :: t' :: rest) + 1)%nat
      with (S (S (S (S (4 * length (t' :: rest) + 1))))) by (simpl; lia).
    rewrite 4 steps_S.
    assert (H4 : thread_step (thread_step (thread_step (thread_step
                   {| player := p; pc := Head; log := lg |})))
                 = mkSession (set_index (S i) p) Head
                     (lg ++ callback_entry (on_event_callback p) (OnEvent i)
                         ++ Play i ::
                         (if negb (Qle_bool t' t)
                          then [Sleep ((t' - t) / q)%Q] else []))).
    { unfold thread_step at 4. simpl. rewrite Hpl, Hi, Hlt, Hpa. simpl.
      unfold thread_step at 3. simpl. rewrite Hi, Hn.
      unfold thread_step at 2. simpl.
      unfold thread_step. simpl. rewrite Hi, Hn'.
      destruct (Qle_bool t' t) eqn:Eg; simpl.
      - rewrite <- ?app_assoc. simpl. rewrite ?app_nil_r. reflexivity.
      - cbn [negb forallb] in Hw1. rewrite andb_true_r in Hw1.
        apply negb_true_iff in Hw1.
        rewrite Hsp, (wait_for_positive _ _ Hq (gap_positive _ _ Eg)), Hw1.
        rewrite <- ?app_assoc. reflexivity. }
    rewrite H4.
    rewrite (IH t' (S i) q) by (simpl; auto).
    simpl. f_equal.
    + unfold set_flags, set_index. simpl. f_equal. lia.
    + rewrite <- !app_assoc. simpl.
      destruct (negb (Qle_bool t' t)); simpl; rewrite <- ?app_assoc;
        reflexivity.
Qed.

Lemma plays_run_actions (cb : option nat) (rest : list Q) :
  forall (t : Q) (i : nat) (q : Q),
    plays (run_actions cb t rest i q) = seq i (S (length rest))
    /\ sleeps (run_actions cb t rest i q) = waits_after t rest q
    /\ completes (run_actions cb t rest i q) = 0%nat.
Proof.
  induction rest as [|t' rest IH]; intros t i q; simpl;
    rewrite thread_plays_app, thread_sleeps_app, thread_completes_app;
    destruct (plays_callback cb i) as (-> & -> & ->); simpl.
  - auto.
  - rewrite thread_plays_app, thread_sleeps_app, thread_completes_app.
    destruct (IH t' (S i) q) as (-> & -> & ->).
    destruct (negb (Qle_bool t' t)); simpl; auto.
Qed.

(** X25. A playback of an [InputPlayer] that nobody disturbs, and whose
    waits [time.sleep] takes, plays every event once, in order, and ends with
    [playing] and [paused] false and one call of [on_complete] when that
    callback is set.  The loop of [_playback_thread] itself makes no wait
    before the first event; between two events it sleeps their gap divided by
    the clamped speed [q] when the later timestamp is greater, and not at all
    otherwise.  (What [_play_event] does for an event, the sleep of a
    [WaitEvent] included, is part of playing it.) *)
Theorem input_playback_runs_through
        (on_event on_complete : option nat) (s : Num) (p0 p : Player)
        (t : Q) (rest : list Q) (q : Q) :
  start_playback on_event on_complete s p0 = (true, p) ->
  events p0 = t :: rest ->
  speed p = Fin q ->
  waits_taken (waits_after t rest q) = true ->
  (0 < q)%Q
  /\ pc (thread_steps (4 * length (events p) + 1) (spawn p)) = Done
  /\ playing (player (thread_steps (4 * length (events p) + 1) (spawn p)))
     = false
  /\ paused (player (thread_steps (4 * length (events p) + 1) (spawn p)))
     = false
  /\ plays (log (thread_steps (4 * length (events p) + 1) (spawn p)))
     = seq 0 (length (events p))
  /\ sleeps (log (thread_steps (4 * length (events p) + 1) (spawn p)))
     = waits_after t rest q
  /\ completes (log (thread_steps (4 * length (events p) + 1) (spawn p)))
     = length (callback_entry on_complete OnComplete).
Proof.
  intros Hstart Hev Hq Hw. unfold start_playback in Hstart.
  destruct (playing p0); [discriminate|]. rewrite Hev in Hstart.
  inversion Hstart. subst p. clear Hstart. cbn [events speed] in *.
  destruct (speed_in_range_positive _ (InputPlayerProps.clamp_speed_in_range s))
    as (q' & Hq' & Hpos).
  assert (q' = q) by congruence. subst q'.
  split; [exact Hpos|].
  match goal with |- context [thread_steps _ ?x] =>
    rewrite (thread_runs rest t 0%nat q x) by (simpl; auto) end.
  cbn [pc player log playing paused set_flags set_index spawn
       on_event_callback on_complete_callback app].
  rewrite !thread_plays_app, !thread_sleeps_app, !thread_completes_app.
  destruct (plays_run_actions on_event rest t 0%nat q) as (-> & -> & ->).
  destruct on_complete; simpl; rewrite ?app_nil_r; repeat split; reflexivity.
Qed.

Ltac step_split :=
  repeat (simpl in *;
          match goal with
          | |- context [match nth_error ?l ?i with _ => _ end] =>
              destruct (nth_error l i) eqn:?
          | |- context [if ?c then _ else _] => destruct c eqn:?
          | |- context [match ?o with Some _ => _ | None => _ end] =>
              destruct o eqn:?
          end);
  simpl in *.

Lemma stopped_step (s : Session) :
  playing (player s) = false ->
  in_speed_range (speed (player s)) = true ->
  pending_ok s = true ->
  playing (player (thread_step s)) = false
  /\ in_speed_range (speed (player (thread_step s))) = true
  /\ pending_ok (thread_step s) = true
  /\ (rank (thread_step s) <= Nat.pred (rank s))%nat
  /\ (length (plays (log (thread_step s))) + plays_left (thread_step s)
      <= length (plays (log s)) + plays_left s)%nat
  /\ (completes (log (thread_step s)) + completes_left (thread_step s)
      = completes (log s) + completes_left s)%nat.
Proof.
  intros Hpl Hr Hpend. destruct s as [p c lg]. simpl in Hpl, Hr.
  destruct (speed_in_range_positive _ Hr) as (q & Hq & Hpos).
  assert (Hz : Qeq_bool q 0 = false).
  { destruct (Qeq_bool q 0) eqn:E; [|reflexivity].
    apply Qeq_bool_iff in E. rewrite E in Hpos. now apply Qlt_irrefl in Hpos. }
  destruct p as [evs pl pa sp idx e k]. simpl in Hpl, Hr, Hq. subst pl sp.
  revert Hpend.
  destruct c as [| |i t|t| |];
    unfold thread_step, rank, plays_left, completes_left, pending_ok,
      pending_wait, wait_between, wait_for, callback_entry;
    simpl; rewrite ?Hz;
    step_split;
    rewrite ?thread_plays_app, ?thread_completes_app, ?length_app; simpl;
    intros; repeat split; try discriminate; try assumption; try lia.
Qed.

Lemma stopped_steps (n : nat) :
  forall x : Session,
    playing (player x) = false ->
    in_speed_range (speed (player x)) = true ->
    pending_ok x = true ->
    (rank (thread_steps n x) <= rank x - n)%nat
    /\ (length (plays (log (thread_steps n x))) + plays_left (thread_steps n x)
        <= length (plays (log x)) + plays_left x)%nat
    /\ (completes (log (thread_steps n x)) + completes_left (thread_steps n x)
        = completes (log x) + completes_left x)%nat.
Proof.
  induction n as [|n IH]; intros x Hx Hrx Hpx.
  - rewrite steps_O. repeat split; lia.
  - rewrite steps_S.
    destruct (stopped_step x Hx Hrx Hpx) as (Hx' & Hrx' & Hpx' & Hk & Hp & Hc).
    destruct (IH (thread_step x) Hx' Hrx' Hpx') as (Hk' & Hp' & Hc').
    repeat split; lia.
Qed.

Lemma rank_at_most_5 (x : Session) : (rank x <= 5)%nat.
Proof. unfold rank. destruct (pc x); lia. Qed.

Lemma rank_0_done (x : Session) : rank x = 0%nat -> pc x = Done.
Proof. unfold rank. destruct (pc x); intros H; try discriminate; reflexivity. Qed.

Lemma plays_left_at_most_1 (x : Session) : (plays_left x <= 1)%nat.
Proof. unfold plays_left. destruct (pc x); lia. Qed.

Lemma left_when_done (x : Session) :
  pc x = Done -> plays_left x = 0%nat /\ completes_left x = 0%nat.
Proof. intros H. unfold plays_left, completes_left. rewrite H. auto. Qed.

Lemma completes_left_alive (x : Session) :
  pc x <> Done ->
  completes_left x
  = length (callback_entry (on_complete_callback (player x)) OnComplete).
Proof.
  intros H. unfold completes_left.
  destruct (pc x); try congruence;
    destruct (on_complete_callback (player x)); reflexivity.
Qed.

Lemma stopped_run (x y : Session) :
  playing (player x) = false ->
  in_speed_range (speed (player x)) = true ->
  pending_ok x = true ->
  pc x <> Done ->
  y = thread_steps 5 x ->
  pc y = Done
  /\ (length (plays (log y)) <= length (plays (log x)) + 1)%nat
  /\ completes (log y)
     = (completes (log x)
        + length (callback_entry (on_complete_callback (player x)) OnComplete))%nat.
Proof.
  intros Hx Hrx Hpx Hpc Hy.
  destruct (stopped_steps 5 x Hx Hrx Hpx) as (Hk & Hp & Hc).
  rewrite <- Hy in Hk, Hp, Hc. clear Hy.
  pose proof (rank_at_most_5 x) as H5.
  assert (Hdone : pc y = Done) by (apply rank_0_done; lia).
  destruct (left_when_done y Hdone) as [Hl Hcl].
  rewrite Hl in Hp. rewrite Hcl in Hc.
  pose proof (plays_left_at_most_1 x) as H1.
  rewrite (completes_left_alive x Hpc) in Hc.
  split; [exact Hdone|]. split; lia.
Qed.

(** X26. [stop_playback] only clears the flag and returns; the thread ends
    on its own within five moves, playing at most one more event, and, when
    [time.sleep] takes the wait it may still be about to make, it still calls
    [on_complete] (once, when set): the callback does not tell a finished
    playback from a stopped one. *)
Theorem stopped_thread_still_completes (s : Session) :
  playing (player s) = true -> pc s <> Done ->
  in_speed_range (speed (player s)) = true ->
  pending_ok s = true ->
  pc (thread_steps 5 (mkSession (stop_playback (player s)) (pc s) (log s)))
  = Done
  /\ (length (plays (log (thread_steps 5
                (mkSession (stop_playback (player s)) (pc s) (log s)))))
      <= length (plays (log s)) + 1)%nat
  /\ completes (log (thread_steps 5
                  (mkSession (stop_playback (player s)) (pc s) (log s))))
     = (completes (log s)
        + length (callback_entry (on_complete_callback (player s)) OnComplete))%nat.
Proof.
  intros Hpl Hpc Hr Hpend.
  assert (Hstop : stop_playback (player s)
                  = mkPlayer (events (player s)) false false (speed (player s))
                             (current_index (player s))
                             (on_event_callback (player s))
                             (on_complete_callback (player s))).
  { unfold stop_playback. rewrite Hpl. reflexivity. }
  rewrite Hstop.
  apply (stopped_run
           (mkSession
              (mkPlayer (events (player s)) false false (speed (player s))
                        (current_index (player s))
                        (on_event_callback (player s))
                        (on_complete_callback (player s)))
              (pc s) (log s))
           _ eq_refl Hr); [|exact Hpc|reflexivity].
  destruct s as [p c lg]. exact Hpend.
Qed.

(** X7. [stop_playback] does not wait for the thread, and
    [start_playback] asks only the flag: a start that follows a stop before
    the old thread has tested the flag again is accepted, and the old thread
    then does not end.  From its loop head it goes on with the first event
    and the new callbacks, beside the thread the start has created. *)
Theorem restart_revives_old_thread
        (s : Session) (on_event on_complete : option nat) (v : Num)
        (t : Q) (rest : list Q) :
  pc s = Head -> events (player s) = t :: rest ->
  exists p,
    start_playback on_event on_complete v (stop_playback (player s)) = (true, p)
    /\ pc (thread_steps 3 (mkSession p Head (log s))) = Advance t
    /\ log (thread_steps 3 (mkSession p Head (log s)))
       = log s ++ callback_entry on_event (OnEvent 0) ++ [Play 0].
Proof.
  intros Hpc Hev.
  assert (Hstop : playing (stop_playback (player s)) = false
                  /\ events (stop_playback (player s)) = t :: rest).
  { unfold stop_playback. destruct (playing (player s)) eqn:E; simpl; auto. }
  destruct Hstop as [Hpl Hev'].
  unfold start_playback. rewrite Hpl, Hev'.
  eexists. split; [reflexivity|].
  rewrite !steps_S, steps_O.
  unfold thread_step. cbn. split; reflexivity.
Qed.

(** X28. A wait that [time.sleep] refuses ends the thread of an
    [InputPlayer] through the handler of [_playback_thread]: the event before
    the wait has been played, [playing] and [paused] are cleared, no later
    event is played and [on_complete] is not called. *)
Theorem refused_wait_skips_on_complete (s : Session) (t t' q : Q) :
  pc s = Head -> playing (player s) = true -> paused (player s) = false ->
  nth_error (events (player s)) (current_index (player s)) = Some t ->
  nth_error (events (player s)) (S (current_index (player s))) = Some t' ->
  Qle_bool t' t = false ->
  speed (player s) = Fin q -> (0 < q)%Q ->
  sleep_raises ((t' - t) / q)%Q = true ->
  pc (thread_steps 4 s) = Done
  /\ playing (player (thread_steps 4 s)) = false
  /\ paused (player (thread_steps 4 s)) = false
  /\ log (thread_steps 4 s)
     = log s ++ callback_entry (on_event_callback (player s))
                  (OnEvent (current_index (player s)))
             ++ [Play (current_index (player s))].
Proof.
  intros Hpc Hpl Hpa Hn Hn' Hg Hsp Hq Hr.
  destruct s as [p c lg]. simpl in Hpc, Hpl, Hpa, Hn, Hn', Hsp. subst c.
  assert (Hlt : (current_index p <? length (events p))%nat = true)
    by (apply Nat.ltb_lt, nth_error_Some; rewrite Hn; discriminate).
  assert (H4 : thread_steps 4 {| player := p; pc := Head; log := lg |}
               = mkSession (set_flags false false
                              (set_index (S (current_index p)) p))
                           Done
                           (lg ++ callback_entry (on_event_callback p)
                                    (OnEvent (current_index p))
                               ++ [Play (current_index p)])).
  { rewrite !steps_S, steps_O.
    unfold thread_step at 4. simpl. rewrite Hpl, Hlt, Hpa. simpl.
    unfold thread_step at 3. simpl. rewrite Hn.
    unfold thread_step at 2. simpl.
    unfold thread_step. simpl. rewrite Hn', Hg. simpl.
    rewrite Hsp, (wait_for_positive _ _ Hq (gap_positive _ _ Hg)), Hr.
    reflexivity. }
  rewrite H4. simpl. auto.
Qed.

End WithClock.

Lemma refused_wait_skips_on_complete_witness :
  pc (thread_steps (clock:=Samples.int64_clock) 4 before_long_wait) = Done
  /\ playing (player (thread_steps (clock:=Samples.int64_clock) 4
                        before_long_wait)) = false
  /\ paused (player (thread_steps (clock:=Samples.int64_clock) 4
                       before_long_wait)) = false
  /\ log (thread_steps (clock:=Samples.int64_clock) 4 before_long_wait)
     = log before_long_wait
         ++ callback_entry (on_event_callback (player before_long_wait))
              (OnEvent (current_index (player before_long_wait)))
         ++ [Play (current_index (player before_long_wait))].
Proof.
  apply (refused_wait_skips_on_complete (clock:=Samples.int64_clock)
           before_long_wait 0%Q 100000000000%Q 10%Q); reflexivity.
Defined.

Lemma input_playback_runs_through_witness :
  (0 < 2)%Q
  /\ pc (thread_steps (clock:=Samples.int64_clock) 13
           (spawn (snd (start_playback (Some 1%nat) (Some 2%nat) (Fin 2)
                          (load_events [0%Q; 1%Q; 3%Q] init))))) = Done
  /\ sleeps (log (thread_steps (clock:=Samples.int64_clock) 13
                    (spawn (snd (start_playback (Some 1%nat) (Some 2%nat) (Fin 2)
                                   (load_events [0%Q; 1%Q; 3%Q] init))))))
     = waits_after 0 [1%Q; 3%Q] 2.
Proof.
  destruct (input_playback_runs_through (clock:=Samples.int64_clock)
              (Some 1%nat) (Some 2%nat) (Fin 2)
              (load_events [0%Q; 1%Q; 3%Q] init)
              (snd (start_playback (Some 1%nat) (Some 2%nat) (Fin 2)
                      (load_events [0%Q; 1%Q; 3%Q] init)))
              0%Q [1%Q; 3%Q] 2%Q eq_refl eq_refl eq_refl eq_refl)
    as (H1 & H2 & _ & _ & _ & H3 & _).
  auto.
Defined.

Lemma stopped_thread_still_completes_witness :
  pc (thread_steps (clock:=Samples.int64_clock) 5
        (mkSession (stop_playback (player between_events)) (pc between_events)
                   (log between_events)))
  = Done.
Proof.
  apply (stopped_thread_still_completes (clock:=Samples.int64_clock)
           between_events);
    [reflexivity|discriminate|reflexivity|reflexivity].
Defined.

Lemma restart_revives_old_thread_witness :
  exists p,
    start_playback (Some 3%nat) None (Fin 1)
      (stop_playback (player between_events)) = (true, p)
    /\ pc (thread_steps (clock:=Samples.int64_clock) 3
             (mkSession p Head (log between_events))) = Advance 0
    /\ log (thread_steps (clock:=Samples.int64_clock) 3
              (mkSession p Head (log between_events)))
       = log between_events ++ callback_entry (Some 3%nat) (OnEvent 0) ++ [Play 0].
Proof.
  apply (restart_revives_old_thread (clock:=Samples.int64_clock)
           between_events (Some 3%nat) None (Fin 1)
           0%Q [1%Q; 3%Q]); reflexivity.
Defined.

End InputThreadProps.
